(** * Schema migration and seeding of the user API: a shallow embedding

    The development follows [pkg/db/postgres.go], [pkg/db/seed.go] (which
    holds [SeedDatabase], [RunMigrations]), [cmd/main.go] and the migration
    tool [cmd/migrate/main.go].  Go functions become functions in a state
    monad over a [World] that holds the process state (the package variable
    [DB], the environment, standard input), the file system, the PostgreSQL
    database and a chronological trace of every observable operation. *)

From Stdlib Require Import ZArith.
From stdpp Require Import base option list sorting gmap strings.

Local Open Scope Z_scope.

(** ** Strings: comparison, suffix test, sorting *)

(** Go compares strings byte by byte; so does [String.compare]. *)
Definition str_le (a b : string) : Prop := String.leb a b = true.
Definition str_lt (a b : string) : Prop := String.compare a b = Lt.

#[global] Instance str_le_dec : RelDecision str_le.
Proof. intros a b. unfold str_le. apply _. Defined.

(** [strings.HasSuffix]:
    [len(s) >= len(suffix) && s[len(s)-len(suffix):] == suffix]. *)
Definition HasSuffix (s suffix : string) : bool :=
  (String.length suffix <=? String.length s)%nat &&
  String.eqb
    (String.substring (String.length s - String.length suffix)
                      (String.length suffix) s)
    suffix.

(** [sort.Strings]: the strings in increasing order. *)
Definition sort_Strings (l : list string) : list string := merge_sort str_le l.

(** [filepath.Join] of a directory and a plain file name. *)
Definition filepath_Join (dir name : string) : string := dir +:+ "/" +:+ name.

(** A line feed, for the [\n] of the format strings. *)
Definition LF : string := String (Ascii.ascii_of_nat 10) EmptyString.

(** [strings.ToLower] on the ASCII letters. *)
Definition lower_ascii (c : Ascii.ascii) : Ascii.ascii :=
  let n := Ascii.nat_of_ascii c in
  if ((65 <=? n) && (n <=? 90))%nat then Ascii.ascii_of_nat (n + 32) else c.

Fixpoint ToLower (s : string) : string :=
  match s with
  | EmptyString => EmptyString
  | String c s' => String (lower_ascii c) (ToLower s')
  end.

(** [contains s sub]: [sub] occurs in [s]. *)
Definition contains (s sub : string) : Prop :=
  ∃ pre post, s = pre +:+ sub +:+ post.

(** ** The world the program runs in *)

(** [os.DirEntry], as far as the code looks at it. *)
Record DirEntry := { Name : string; IsDir : bool }.

(** Directories map to their listing, files to their contents. *)
Record FileSystem := {
  dirs : gmap string (list DirEntry);
  files : gmap string string
}.

(** [*pgxpool.Pool]; the package variable [DB] is [None] while it is nil. *)
Record Pool := { pool_dsn : string }.

(** Go's [error]: [None] is nil, [Some msg] an error with that message. *)
Definition error : Type := option string.

(** Everything the program does that can be observed from outside, in the
    order in which it happens. *)
Inductive Event :=
| EvStdout (text : string)
| EvStderr (text : string)
| EvScanln (token : string)
| EvReadDir (dir : string)
| EvReadFile (path : string)
| EvPoolNew (timeout_seconds : Z) (dsn : string)
| EvExec (sql : string) (args : list string)
| EvQuery (sql : string).

#[global] Instance Event_eq_dec : EqDecision Event.
Proof. solve_decision. Defined.

(** How a [main] ends: it returns, it exits through [log.Fatalf], or it
    hands control to the HTTP server. *)
Inductive Outcome :=
| Returned
| Exited (code : Z)
| Serving (addr : string).

(** The flags of the migration tool after [flag.Parse]. *)
Record Flags := { up : bool; down : bool; force : bool; help : bool }.

(** [pgxpool.New(ctx, connString)] as pgx v5 has it, the version that
    [postgres.go] imports: [ParseConfig], and then [NewWithConfig], which
    makes the pool without opening a connection; connections are opened
    later, in the background and by the first statement.  So the context
    and the server have no say in the result: the only error is that of
    the parser, which is taken as it comes ([Some] is its error). *)
Definition pgxpool_v5_New (ParseConfig : string → option string)
    (timeout_seconds : Z) (connString : string) : string + Pool :=
  match ParseConfig connString with
  | Some err => inl err
  | None => inr {| pool_dsn := connString |}
  end.

Section Program.

(** The part of the database that the change-sets and seed files define. *)
Context {Schema : Type}.

(** The database: the rows of the [filename] column of the tracker table
    [migrations] ([None] while the table does not exist) and the rest. *)
Record Database := {
  migrations : option (list string);
  schema : Schema
}.

Record World := {
  DB : option Pool;
  environ : gmap string string;
  stdin : list string;
  filesystem : FileSystem;
  database : Database;
  trace : list Event
}.

(** *** External collaborators *)

(** What the server does with the text of a change-set or seed file: an
    error (the statement is rolled back, the database is as before), or
    the database after it. *)
Variable sql_script : string → Database → string + Database.

(** What can go wrong between the pool and the server, whatever the
    statement is (a lost connection, a missing permission, a server that
    shuts down): [refuses] is the error with which a statement or a
    query fails, the database staying as it is; [interrupted] is the
    number of rows after which the connection breaks while the result of
    a query is read, so that [rows.Next] returns false there and the
    failure is left in [rows.Err]; [unscannable] is the error of
    [rows.Scan] on a row. *)
Record Faults := {
  refuses : Event → Database → option string;
  interrupted : Database → option nat;
  unscannable : string → option string
}.

Variable faults : Faults.

(** [pgxpool.New(ctx, dsn)] under a context with the given timeout: the
    library's error, or a pool. *)
Variable pgxpool_New : Z → string → string + Pool.

(** ** A state monad over the world *)

Definition IO (A : Type) : Type := World → A * World.

Definition ret {A} (a : A) : IO A := λ w, (a, w).

Definition bind {A B} (m : IO A) (k : A → IO B) : IO B :=
  λ w, let '(a, w') := m w in k a w'.

Notation "x <- m ;; k" := (bind m (λ x, k))
  (at level 100, m at next level, right associativity).
Notation "m ;;; k" := (bind m (λ _, k))
  (at level 100, right associativity).

Definition emit (e : Event) : IO unit := λ w,
  (tt, {| DB := DB w; environ := environ w; stdin := stdin w;
          filesystem := filesystem w; database := database w;
          trace := trace w ++ [e] |}).

Definition get_DB : IO (option Pool) := λ w, (DB w, w).

Definition set_DB (p : option Pool) : IO unit := λ w,
  (tt, {| DB := p; environ := environ w; stdin := stdin w;
          filesystem := filesystem w; database := database w;
          trace := trace w |}).

Definition set_database (d : Database) : IO unit := λ w,
  (tt, {| DB := DB w; environ := environ w; stdin := stdin w;
          filesystem := filesystem w; database := d;
          trace := trace w |}).

(** *** Standard output, standard error, standard input *)

(** The logger writes to standard error; its date and time prefix is left
    out. *)
Definition fmt_Printf (text : string) : IO unit := emit (EvStdout text).
Definition fmt_Println (text : string) : IO unit := emit (EvStdout (text +:+ LF)).
Definition log_Printf (text : string) : IO unit := emit (EvStderr (text +:+ LF)).
Definition log_Println (text : string) : IO unit := emit (EvStderr (text +:+ LF)).

(** The builtin [println] writes its arguments to standard error,
    separated by a space. *)
Definition println (a b : string) : IO unit :=
  emit (EvStderr (a +:+ " " +:+ b +:+ LF)).

(** [log.Fatalf] logs and then calls [os.Exit(1)]. *)
Definition log_Fatalf (text : string) : IO Outcome :=
  log_Printf text ;;; ret (Exited 1).

(** [fmt.Scanln(&response)]: the first token of the next input line, the
    empty string when there is none. *)
Definition fmt_Scanln : IO string := λ w,
  let token := hd "" (stdin w) in
  (token, {| DB := DB w; environ := environ w; stdin := tl (stdin w);
             filesystem := filesystem w; database := database w;
             trace := trace w ++ [EvScanln token] |}).

(** *** Environment and file system *)

(** [os.Getenv]: the empty string when the variable is not set. *)
Definition os_Getenv (key : string) : IO string := λ w,
  (default "" (environ w !! key), w).

Definition enoent (path : string) : string :=
  "open " +:+ path +:+ ": no such file or directory".

(** The error of a read from a directory that was opened as a file. *)
Definition eisdir (path : string) : string :=
  "read " +:+ path +:+ ": is a directory".

(** The error of a listing of what was opened and is a regular file (the
    system call named in front is that of Linux). *)
Definition enotdir (path : string) : string :=
  "readdirent " +:+ path +:+ ": not a directory".

(** The error of [os.ReadDir] on a path that is no directory. *)
Definition ReadDir_error (fs : FileSystem) (dir : string) : string :=
  match files fs !! dir with
  | Some _ => enotdir dir
  | None => enoent dir
  end.

(** The error of [os.ReadFile] on a path that is no regular file. *)
Definition ReadFile_error (fs : FileSystem) (path : string) : string :=
  match dirs fs !! path with
  | Some _ => eisdir path
  | None => enoent path
  end.

Definition os_ReadDir (dir : string) : IO (string + list DirEntry) :=
  emit (EvReadDir dir) ;;;
  λ w, (match dirs (filesystem w) !! dir with
        | Some entries => inr entries
        | None => inl (ReadDir_error (filesystem w) dir)
        end, w).

Definition os_ReadFile (path : string) : IO (string + string) :=
  emit (EvReadFile path) ;;;
  λ w, (match files (filesystem w) !! path with
        | Some content => inr content
        | None => inl (ReadFile_error (filesystem w) path)
        end, w).

(** ** The PostgreSQL server, as the program uses it *)

(** The statement that creates the tracker table (a raw string literal of
    [RunMigrations]). *)
Definition createMigrationsTable : string := "
		CREATE TABLE IF NOT EXISTS migrations (
			id SERIAL PRIMARY KEY,
			filename VARCHAR(255) NOT NULL UNIQUE,
			executed_at TIMESTAMP WITH TIME ZONE DEFAULT NOW()
		);
	".

Definition insertMigration : string :=
  "INSERT INTO migrations (filename) VALUES ($1)".

Definition selectMigrations : string := "SELECT filename FROM migrations".

(** One statement sent to the server, unless it fails for a reason of
    the server's or the connection's own.  [CREATE TABLE IF NOT EXISTS]
    keeps an existing table; the parameterised [INSERT] needs the table
    and, by the [UNIQUE] constraint on [filename], a name that is not yet
    there; every other text is a script.  File names are at most 255
    bytes long, so the [VARCHAR(255)] bound does not show. *)
Definition pg_exec (sql : string) (args : list string) (d : Database)
    : string + Database :=
  match refuses faults (EvExec sql args) d with
  | Some err => inl err
  | None =>
      if decide (sql = createMigrationsTable) then
        match migrations d with
        | Some _ => inr d
        | None => inr {| migrations := Some []; schema := schema d |}
        end
      else if decide (sql = insertMigration) then
        match args, migrations d with
        | [filename], Some rows =>
            if decide (filename ∈ rows)
            then inl "duplicate key value violates unique constraint"
            else inr {| migrations := Some (rows ++ [filename]);
                        schema := schema d |}
        | [_], None => inl "relation migrations does not exist"
        | _, _ => inl "wrong number of parameters"
        end
      else sql_script sql d
  end.

(** A query sent to the server: its error, or the rows that [rows.Next]
    steps through, which are all the rows of the table unless the
    connection breaks on the way. *)
Definition pg_query (sql : string) (d : Database) : string + list string :=
  match refuses faults (EvQuery sql) d with
  | Some err => inl err
  | None =>
      if decide (sql = selectMigrations) then
        match migrations d with
        | Some rows =>
            inr (match interrupted faults d with
                 | Some n => take n rows
                 | None => rows
                 end)
        | None => inl "relation migrations does not exist"
        end
      else inl "unsupported query"
  end.

(** [DB.Exec(context.Background(), sql, args...)], its result dropped. *)
Definition Pool_Exec (_ : Pool) (sql : string) (args : list string) : IO error :=
  emit (EvExec sql args) ;;;
  λ w, match pg_exec sql args (database w) with
       | inl err => (Some err, w)
       | inr d => (None, snd (set_database d w))
       end.

(** [DB.Query(context.Background(), sql)]: the error, or the rows for the
    loop over [rows.Next]. *)
Definition Pool_Query (_ : Pool) (sql : string) : IO (string + list string) :=
  emit (EvQuery sql) ;;;
  λ w, (pg_query sql (database w), w).

(** ** pkg/db/postgres.go *)

Definition InitPostgres : IO error :=
  dsn <- os_Getenv "DATABASE_URL" ;;
  println "Connecting to PostgreSQL with DSN:" dsn ;;;
  if decide (dsn = "") then
    ret (Some "DATABASE_URL environment variable is not set")
  else
    emit (EvPoolNew 10 dsn) ;;;
    match pgxpool_New 10 dsn with
    | inl err => ret (Some ("failed to connect to PostgreSQL: " +:+ err))
    | inr pool => set_DB (Some pool) ;;; ret None
    end.

(** ** pkg/db/seed.go *)

(** The loop that keeps the names of the regular files ending in [.sql]. *)
Fixpoint collect_sql (entries : list DirEntry) : list string :=
  match entries with
  | [] => []
  | file :: rest =>
      if negb (IsDir file) && HasSuffix (Name file) ".sql"
      then Name file :: collect_sql rest
      else collect_sql rest
  end.

Definition seedDir : string := "seeds".
Definition migrationDir : string := "migrations".

(** The loop over the seed files. *)
Fixpoint seed_files (pool : Pool) (sqlFiles : list string) : IO error :=
  match sqlFiles with
  | [] => ret None
  | filename :: rest =>
      fmt_Printf ("Executing seed file " +:+ filename +:+ LF) ;;;
      r <- os_ReadFile (filepath_Join seedDir filename) ;;
      match r with
      | inl err =>
          ret (Some ("failed to read seed file " +:+ filename +:+ ": " +:+ err))
      | inr content =>
          e <- Pool_Exec pool content [] ;;
          match e with
          | Some err =>
              ret (Some ("failed to execute seed file " +:+ filename
                         +:+ ": " +:+ err))
          | None =>
              fmt_Printf ("Seed file " +:+ filename
                          +:+ " executed successfully" +:+ LF) ;;;
              seed_files pool rest
          end
      end
  end.

Definition SeedDatabase : IO error :=
  db <- get_DB ;;
  match db with
  | None => ret (Some "database not initialized")
  | Some pool =>
      r <- os_ReadDir seedDir ;;
      match r with
      | inl err => ret (Some ("failed to read seeds directory: " +:+ err))
      | inr entries =>
          seed_files pool (sort_Strings (collect_sql entries))
      end
  end.

(** The loop over the rows of the query: [rows.Scan(&filename)] and the
    entry in the map [executedMigrations]. *)
Fixpoint scan_filenames (rows : list string)
    (executedMigrations : gmap string bool) : string + gmap string bool :=
  match rows with
  | [] => inr executedMigrations
  | row :: rest =>
      match unscannable faults row with
      | Some err => inl err
      | None => scan_filenames rest (<[row := true]> executedMigrations)
      end
  end.

(** The map [executedMigrations] when every row has been scanned. *)
Definition load_executed (rows : list string) : gmap string bool :=
  foldl (λ m filename, <[filename := true]> m) ∅ rows.

(** [executedMigrations[filename]]: false for a missing key. *)
Definition executed (m : gmap string bool) (filename : string) : bool :=
  default false (m !! filename).

(** The loop over the migration files. *)
Fixpoint migrate_files (pool : Pool) (executedMigrations : gmap string bool)
    (sqlFiles : list string) : IO error :=
  match sqlFiles with
  | [] => ret None
  | filename :: rest =>
      if executed executedMigrations filename then
        fmt_Printf ("Migration " +:+ filename
                    +:+ " already executed, skipping" +:+ LF) ;;;
        migrate_files pool executedMigrations rest
      else
        fmt_Printf ("Executing migration " +:+ filename +:+ LF) ;;;
        r <- os_ReadFile (filepath_Join migrationDir filename) ;;
        match r with
        | inl err =>
            ret (Some ("failed to read migration file " +:+ filename
                       +:+ ": " +:+ err))
        | inr content =>
            e <- Pool_Exec pool content [] ;;
            match e with
            | Some err =>
                ret (Some ("failed to execute migration " +:+ filename
                           +:+ ": " +:+ err))
            | None =>
                e <- Pool_Exec pool insertMigration [filename] ;;
                match e with
                | Some err =>
                    ret (Some ("failed to record migration " +:+ filename
                               +:+ ": " +:+ err))
                | None =>
                    fmt_Printf ("Migration " +:+ filename
                                +:+ " executed successfully" +:+ LF) ;;;
                    migrate_files pool executedMigrations rest
                end
            end
        end
  end.

Definition RunMigrations : IO error :=
  db <- get_DB ;;
  match db with
  | None => ret (Some "database not initialized")
  | Some pool =>
      e <- Pool_Exec pool createMigrationsTable [] ;;
      match e with
      | Some err => ret (Some ("failed to create migrations table: " +:+ err))
      | None =>
          r <- os_ReadDir migrationDir ;;
          match r with
          | inl err =>
              ret (Some ("failed to read migrations directory: " +:+ err))
          | inr entries =>
              let sqlFiles := sort_Strings (collect_sql entries) in
              q <- Pool_Query pool selectMigrations ;;
              match q with
              | inl err =>
                  ret (Some ("failed to query executed migrations: " +:+ err))
              | inr rows =>
                  match scan_filenames rows ∅ with
                  | inl err =>
                      ret (Some ("failed to scan migration filename: "
                                 +:+ err))
                  | inr executedMigrations =>
                      migrate_files pool executedMigrations sqlFiles
                  end
              end
          end
      end
  end.

(** ** cmd/main.go *)

(** [env.LoadEnv]: the reader of the optional [.env] file.  None of the
    properties below depends on how it parses the file, so it is taken as
    it comes. *)
Variable LoadEnv : string → IO error.

Definition auto_migrate_enabled (autoMigrate : string) : bool :=
  bool_decide (autoMigrate = "true") || bool_decide (autoMigrate = "1")
  || bool_decide (autoMigrate = "yes").

(** From seeding on: a seeding error is logged, then the HTTP server starts. *)
Definition seed_and_serve : IO Outcome :=
  e <- SeedDatabase ;;
  (match e with
   | Some err => log_Printf ("Warning: Failed to seed database: " +:+ err)
   | None => ret tt
   end) ;;;
  ret (Serving ":8080").

(** Up to the connection: the [.env] file is loaded, a failure to load
    it is logged, and the pool is initialised. *)
Definition load_and_connect : IO error :=
  e <- LoadEnv ".env" ;;
  (match e with
   | Some err => log_Printf ("Warning: Failed to load .env file: " +:+ err)
   | None => ret tt
   end) ;;;
  InitPostgres.

Definition main : IO Outcome :=
  e <- load_and_connect ;;
  match e with
  | Some err => log_Fatalf ("Failed to initialize database: " +:+ err)
  | None =>
      v <- os_Getenv "AUTO_MIGRATE" ;;
      let autoMigrate := ToLower v in
      if auto_migrate_enabled autoMigrate then
        log_Println "Auto-migration enabled, running migrations..." ;;;
        e <- RunMigrations ;;
        match e with
        | Some err => log_Fatalf ("Failed to run migrations: " +:+ err)
        | None => seed_and_serve
        end
      else
        log_Println "Auto-migration disabled. Use 'go run cmd/migrate/main.go -up' to run migrations manually." ;;;
        seed_and_serve
  end.

(** ** cmd/migrate/main.go *)

Definition showHelp : IO unit :=
  fmt_Println "Database Migration Tool" ;;;
  fmt_Println "Usage: go run cmd/migrate/main.go [OPTIONS]" ;;;
  fmt_Println "" ;;;
  fmt_Println "Options:" ;;;
  fmt_Println "  -up     Run all pending migrations" ;;;
  fmt_Println "  -down   Rollback the last migration (not implemented yet)" ;;;
  fmt_Println "  -force  Force run all migrations (dangerous!)" ;;;
  fmt_Println "  -help   Show this help message" ;;;
  fmt_Println "" ;;;
  fmt_Println "Examples:" ;;;
  fmt_Println "  go run cmd/migrate/main.go -up" ;;;
  fmt_Println "  go run cmd/migrate/main.go -down" ;;;
  fmt_Println "  go run cmd/migrate/main.go -help" ;;;
  fmt_Println "" ;;;
  fmt_Println "Environment Variables:" ;;;
  fmt_Println "  DATABASE_URL - PostgreSQL connection string".

(** After the confirmation of force mode, or directly without it. *)
Definition run_and_report : IO Outcome :=
  e <- RunMigrations ;;
  match e with
  | Some err => log_Fatalf ("Failed to run migrations: " +:+ err)
  | None =>
      fmt_Println "✅ Migrations completed successfully!" ;;;
      ret Returned
  end.

Definition runMigrationsUp (force : bool) : IO Outcome :=
  fmt_Println "Running migrations..." ;;;
  if force then
    fmt_Println "⚠️  FORCE MODE: This will run all migrations regardless of history!" ;;;
    fmt_Println "Are you sure? This could cause data loss. (y/N): " ;;;
    response <- fmt_Scanln ;;
    if bool_decide (response ≠ "y") && bool_decide (response ≠ "Y") then
      fmt_Println "Migration cancelled." ;;;
      ret Returned
    else
      run_and_report
  else
    run_and_report.

Definition runMigrationsDown : IO unit :=
  fmt_Println "⚠️  Rollback functionality not implemented yet." ;;;
  fmt_Println "This would rollback the last migration." ;;;
  fmt_Println "For now, you can manually rollback by:" ;;;
  fmt_Println "1. Connecting to your database" ;;;
  fmt_Println "2. Running the reverse SQL commands" ;;;
  fmt_Println "3. Removing the entry from the migrations table".

Definition migrate_main (flags : Flags) : IO Outcome :=
  if help flags then
    showHelp ;;; ret Returned
  else
    e <- InitPostgres ;;
    match e with
    | Some err => log_Fatalf ("Failed to initialize database: " +:+ err)
    | None =>
        if up flags then runMigrationsUp (force flags)
        else if down flags then runMigrationsDown ;;; ret Returned
        else
          fmt_Println "No action specified. Use -help for usage information." ;;;
          showHelp ;;;
          ret Returned
    end.

(** ** Vocabulary of the specification *)

(** The world after some more events, with the database as given. *)
Definition after (w : World) (d : Database) (events : list Event) : World :=
  {| DB := DB w; environ := environ w; stdin := stdin w;
     filesystem := filesystem w; database := d;
     trace := trace w ++ events |}.

(** The paths handed to [os.ReadFile], in order. *)
Definition read_paths (tr : list Event) : list string :=
  omap (λ e, match e with EvReadFile p => Some p | _ => None end) tr.

(** The statements handed to [DB.Exec], in order. *)
Definition exec_log (tr : list Event) : list (string * list string) :=
  omap (λ e, match e with EvExec sql args => Some (sql, args) | _ => None end) tr.

(** The statements and queries that reach the database server. *)
Definition is_statement (e : Event) : bool :=
  match e with
  | EvExec _ _ | EvQuery _ => true
  | _ => false
  end.

(** The files of the loop that are not in [executedMigrations]. *)
Definition unexecuted (m : gmap string bool) (sqlFiles : list string)
    : list string :=
  filter (λ f, executed m f = false) sqlFiles.

(** The change-sets of a listing that are not among the rows of the
    tracker, in the order of [sort.Strings]. *)
Definition pending (rows : list string) (entries : list DirEntry)
    : list string :=
  filter (λ f, f ∉ rows) (sort_Strings (collect_sql entries)).

(** The database once the tracker table is there. *)
Definition with_tracker (d : Database) : Database :=
  {| migrations := Some (default [] (migrations d)); schema := schema d |}.

(** The text of a change-set, empty when the file cannot be read. *)
Definition content_of (fs : FileSystem) (dir filename : string) : string :=
  default "" (files fs !! filepath_Join dir filename).

(** The two statements the executor sends for a change-set. *)
Definition changeset_execs (fs : FileSystem) (filename : string)
    : list (string * list string) :=
  [(content_of fs migrationDir filename, []); (insertMigration, [filename])].

(** A change-set applied as one unit of work, as the specification has
    it: its statements and its applied-record, or nothing. *)
Definition apply_changeset (fs : FileSystem) (d : Database) (filename : string)
    : string + Database :=
  match files fs !! filepath_Join migrationDir filename with
  | None => inl (ReadFile_error fs (filepath_Join migrationDir filename))
  | Some content =>
      match pg_exec content [] d with
      | inl err => inl err
      | inr d1 => pg_exec insertMigration [filename] d1
      end
  end.

Fixpoint apply_changesets (fs : FileSystem) (d : Database)
    (filenames : list string) : string + Database :=
  match filenames with
  | [] => inr d
  | f :: rest =>
      match apply_changeset fs d f with
      | inl err => inl err
      | inr d1 => apply_changesets fs d1 rest
      end
  end.

(** How the executor fails on the change-set [f] from the database [d]:
    the error it returns, the database it leaves and the statements it
    has sent for [f]. *)
Inductive failed_at (fs : FileSystem) (f : string) (d : Database)
    : string → Database → list (string * list string) → Prop :=
| failed_read :
    files fs !! filepath_Join migrationDir f = None →
    failed_at fs f d
      ("failed to read migration file " +:+ f +:+ ": "
       +:+ ReadFile_error fs (filepath_Join migrationDir f))
      d []
| failed_execute content err :
    files fs !! filepath_Join migrationDir f = Some content →
    pg_exec content [] d = inl err →
    failed_at fs f d
      ("failed to execute migration " +:+ f +:+ ": " +:+ err)
      d [(content, [])]
| failed_record content d1 err :
    files fs !! filepath_Join migrationDir f = Some content →
    pg_exec content [] d = inr d1 →
    pg_exec insertMigration [f] d1 = inl err →
    failed_at fs f d
      ("failed to record migration " +:+ f +:+ ": " +:+ err)
      d1 [(content, []); (insertMigration, [f])].

(** The three operations of a run before the loop. *)
Definition run_prologue : list Event :=
  [EvExec createMigrationsTable []; EvReadDir migrationDir;
   EvQuery selectMigrations].

(** A run gets as far as its loop with [rows] as its snapshot of the
    tracker: the server does not refuse to create the table, it answers
    the query with [rows], and every one of them can be scanned. *)
Definition snapshot (w : World) (rows : list string) : Prop :=
  refuses faults (EvExec createMigrationsTable []) (database w) = None
  ∧ pg_query selectMigrations (with_tracker (database w)) = inr rows
  ∧ Forall (λ row, unscannable faults row = None) rows.


(** A seed file executed: there is no record. *)
Definition apply_seed (fs : FileSystem) (d : Database) (filename : string)
    : string + Database :=
  match files fs !! filepath_Join seedDir filename with
  | None => inl (ReadFile_error fs (filepath_Join seedDir filename))
  | Some content => pg_exec content [] d
  end.

Fixpoint apply_seeds (fs : FileSystem) (d : Database)
    (filenames : list string) : string + Database :=
  match filenames with
  | [] => inr d
  | f :: rest =>
      match apply_seed fs d f with
      | inl err => inl err
      | inr d1 => apply_seeds fs d1 rest
      end
  end.

(** How the seed executor fails on the file [f] from the database [d]:
    the error it returns and the statements it has sent for [f]. *)
Inductive seed_failed_at (fs : FileSystem) (f : string) (d : Database)
    : string → list (string * list string) → Prop :=
| seed_failed_read :
    files fs !! filepath_Join seedDir f = None →
    seed_failed_at fs f d
      ("failed to read seed file " +:+ f +:+ ": "
       +:+ ReadFile_error fs (filepath_Join seedDir f))
      []
| seed_failed_execute content err :
    files fs !! filepath_Join seedDir f = Some content →
    pg_exec content [] d = inl err →
    seed_failed_at fs f d
      ("failed to execute seed file " +:+ f +:+ ": " +:+ err)
      [(content, [])].

(** What the loop prints for a change-set that the snapshot holds. *)
Definition skipped_line (filename : string) : string :=
  "Migration " +:+ filename +:+ " already executed, skipping" +:+ LF.

(** The lines of the rollback stub. *)
Definition rollback_lines : list string :=
  ["⚠️  Rollback functionality not implemented yet." +:+ LF;
   "This would rollback the last migration." +:+ LF;
   "For now, you can manually rollback by:" +:+ LF;
   "1. Connecting to your database" +:+ LF;
   "2. Running the reverse SQL commands" +:+ LF;
   "3. Removing the entry from the migrations table" +:+ LF].

(** The world after force mode has asked for confirmation and read the
    answer. *)
Definition answered (w : World) : World :=
  {| DB := DB w; environ := environ w; stdin := tl (stdin w);
     filesystem := filesystem w; database := database w;
     trace := trace w ++
       [EvStdout ("Running migrations..." +:+ LF);
        EvStdout ("⚠️  FORCE MODE: This will run all migrations regardless of history!" +:+ LF);
        EvStdout ("Are you sure? This could cause data loss. (y/N): " +:+ LF);
        EvScanln (hd "" (stdin w))] |}.

(** The change-set scripts leave the tracker table alone. *)
Definition tracker_safe : Prop :=
  ∀ sql d d', sql_script sql d = inr d' → migrations d' = migrations d.

End Program.

(** ** More vocabulary *)

(** The lines of [showHelp]. *)
Definition help_lines : list string :=
  ["Database Migration Tool" +:+ LF;
   "Usage: go run cmd/migrate/main.go [OPTIONS]" +:+ LF;
   "" +:+ LF;
   "Options:" +:+ LF;
   "  -up     Run all pending migrations" +:+ LF;
   "  -down   Rollback the last migration (not implemented yet)" +:+ LF;
   "  -force  Force run all migrations (dangerous!)" +:+ LF;
   "  -help   Show this help message" +:+ LF;
   "" +:+ LF;
   "Examples:" +:+ LF;
   "  go run cmd/migrate/main.go -up" +:+ LF;
   "  go run cmd/migrate/main.go -down" +:+ LF;
   "  go run cmd/migrate/main.go -help" +:+ LF;
   "" +:+ LF;
   "Environment Variables:" +:+ LF;
   "  DATABASE_URL - PostgreSQL connection string" +:+ LF].

(** The world after some more events, the database as it is. *)
Definition emitted {Schema : Type} (w : @World Schema) (events : list Event)
    : @World Schema :=
  after w (database w) events.

(** ** pkg/env: the reader of the [.env] file *)

Module env.

(** The ASCII white space of [strings.TrimSpace]: tab, line feed,
    vertical tab, form feed, carriage return and space. *)
Definition is_ascii_space (c : Ascii.ascii) : bool :=
  let n := Ascii.nat_of_ascii c in
  ((9 <=? n) && (n <=? 13) || (n =? 32))%nat.

(** [unicode.IsSpace] on the runes that UTF-8 writes in two bytes:
    U+0085 and U+00A0. *)
Definition is_space2 (c1 c2 : Ascii.ascii) : bool :=
  let a := Ascii.nat_of_ascii c1 in
  let b := Ascii.nat_of_ascii c2 in
  ((a =? 194) && ((b =? 133) || (b =? 160)))%nat.

(** And on those of three bytes: U+1680, U+2000 to U+200A, U+2028,
    U+2029, U+202F, U+205F and U+3000. *)
Definition is_space3 (c1 c2 c3 : Ascii.ascii) : bool :=
  let a := Ascii.nat_of_ascii c1 in
  let b := Ascii.nat_of_ascii c2 in
  let c := Ascii.nat_of_ascii c3 in
  ((a =? 225) && (b =? 154) && (c =? 128)
   || (a =? 226) && (b =? 128)
      && ((128 <=? c) && (c <=? 138) || (c =? 168) || (c =? 169) || (c =? 175))
   || (a =? 226) && (b =? 129) && (c =? 159)
   || (a =? 227) && (b =? 128) && (c =? 128))%nat.

(** The white space runes at the start of a string taken off. *)
Fixpoint trim_left (s : string) : string :=
  match s with
  | EmptyString => EmptyString
  | String c1 s1 =>
      if is_ascii_space c1 then trim_left s1
      else
        match s1 with
        | String c2 s2 =>
            if is_space2 c1 c2 then trim_left s2
            else
              match s2 with
              | String c3 s3 => if is_space3 c1 c2 c3 then trim_left s3 else s
              | EmptyString => s
              end
        | EmptyString => s
        end
  end.

(** The same on the reversed string, for the runes at the end. *)
Fixpoint trim_reversed (r : string) : string :=
  match r with
  | EmptyString => EmptyString
  | String c1 r1 =>
      if is_ascii_space c1 then trim_reversed r1
      else
        match r1 with
        | String c2 r2 =>
            if is_space2 c2 c1 then trim_reversed r2
            else
              match r2 with
              | String c3 r3 =>
                  if is_space3 c3 c2 c1 then trim_reversed r3 else r
              | EmptyString => r
              end
        | EmptyString => r
        end
  end.

(** [strings.TrimSpace]: the string without the white space runes
    ([unicode.IsSpace]) at its start and at its end. *)
Definition TrimSpace (s : string) : string :=
  String.rev (trim_reversed (String.rev (trim_left s))).

(** [strings.HasPrefix]:
    [len(s) >= len(prefix) && s[:len(prefix)] == prefix]. *)
Definition HasPrefix (s prefix : string) : bool :=
  (String.length prefix <=? String.length s)%nat &&
  String.eqb (String.substring 0 (String.length prefix) s) prefix.

(** The text before the first separator and the text after it. *)
Fixpoint cut (sep : Ascii.ascii) (s : string) : option (string * string) :=
  match s with
  | EmptyString => None
  | String c s' =>
      if decide (c = sep) then Some (EmptyString, s')
      else
        match cut sep s' with
        | Some (before, rest) => Some (String c before, rest)
        | None => None
        end
  end.

(** [strings.SplitN(s, sep, 2)] for a separator of one byte. *)
Definition SplitN2 (s : string) (sep : Ascii.ascii) : list string :=
  match cut sep s with
  | Some (before, rest) => [before; rest]
  | None => [s]
  end.

Definition char (n : nat) : string := String (Ascii.ascii_of_nat n) EmptyString.

(** The double and the single quote. *)
Definition DQUOTE : string := char 34.
Definition SQUOTE : string := char 39.

(** The quotes around a value taken off: the block
    [if len(value) >= 2 { ... value = value[1 : len(value)-1] }]. *)
Definition unquote (value : string) : string :=
  if (2 <=? String.length value)%nat
     && (HasPrefix value DQUOTE && HasSuffix value DQUOTE
         || HasPrefix value SQUOTE && HasSuffix value SQUOTE)
  then String.substring 1 (String.length value - 2) value
  else value.

(** Whether the byte occurs in the string. *)
Fixpoint has_byte (c : Ascii.ascii) (s : string) : bool :=
  match s with
  | EmptyString => false
  | String c' s' => bool_decide (c' = c) || has_byte c s'
  end.

(** What [syscall.Setenv] accepts: a key that is not empty and holds
    neither [=] nor a NUL, a value without NUL. *)
Definition setenv_accepts (key value : string) : bool :=
  negb (String.eqb key "")
  && negb (has_byte (Ascii.ascii_of_nat 61) key)
  && negb (has_byte (Ascii.ascii_of_nat 0) key)
  && negb (has_byte (Ascii.ascii_of_nat 0) value).

(** The lines that [bufio.ScanLines] cuts the data into, before the
    carriage return at their end is dropped: the text between line
    feeds, and the text after the last one when it is not empty. *)
Fixpoint raw_lines (data : string) (current : string) : list string :=
  match data with
  | EmptyString => if String.eqb current "" then [] else [current]
  | String c rest =>
      if decide (c = Ascii.ascii_of_nat 10) then current :: raw_lines rest ""
      else raw_lines rest (current +:+ String c EmptyString)
  end.

(** [dropCR]: one carriage return at the end of the line is dropped. *)
Definition dropCR (line : string) : string :=
  if HasSuffix line (char 13)
  then String.substring 0 (String.length line - 1) line
  else line.

(** [bufio.MaxScanTokenSize]. *)
Definition MaxScanTokenSize : N := 65536.

Definition ErrTooLong : string := "bufio.Scanner: token too long".

(** The tokens of a [bufio.Scanner] with the default buffer, and the
    value of [scanner.Err()] after the loop: the scanner stops with
    [ErrTooLong] at the first line that fills the buffer of
    [MaxScanTokenSize] bytes before its line feed is seen. *)
Fixpoint scan (lines : list string) : list string * error :=
  match lines with
  | [] => ([], None)
  | line :: rest =>
      if (MaxScanTokenSize <=? N.of_nat (String.length line))%N
      then ([], Some ErrTooLong)
      else let '(tokens, err) := scan rest in (dropCR line :: tokens, err)
  end.

Section LoadEnv.

Context {Schema : Type}.

Notation "x <- m ;; k" := (bind (Schema := Schema) m (λ x, k))
  (at level 100, m at next level, right associativity).
Notation "m ;;; k" := (bind (Schema := Schema) m (λ _, k))
  (at level 100, right associativity).

(** [os.Setenv]; the environment is as before when the call fails. *)
Definition os_Setenv (key value : string) : IO (Schema := Schema) error :=
  λ w,
    if setenv_accepts key value
    then (None,
          {| DB := DB w; environ := <[key := value]> (environ w);
             stdin := stdin w; filesystem := filesystem w;
             database := database w; trace := trace w |})
    else (Some "setenv: invalid argument", w).

(** The body of the loop over the lines. *)
Definition load_line (text : string) : IO (Schema := Schema) unit :=
  let line := TrimSpace text in
  if (String.length line =? 0)%nat || HasPrefix line "#" then ret tt
  else
    match SplitN2 line (Ascii.ascii_of_nat 61) with
    | [part0; part1] =>
        let key := TrimSpace part0 in
        let value := unquote (TrimSpace part1) in
        current <- os_Getenv key ;;
        if decide (current = "") then os_Setenv key value ;;; ret tt
        else ret tt
    | _ => ret tt
    end.

Fixpoint load_lines (tokens : list string) : IO (Schema := Schema) unit :=
  match tokens with
  | [] => ret tt
  | text :: rest => load_line text ;;; load_lines rest
  end.

(** [LoadEnv]: a file that cannot be opened is no error; the open and the
    reads of the scanner are recorded as one read of the file.  A
    directory can be opened, but the first read of the scanner fails, so
    that no line is scanned and [scanner.Err] is that failure. *)
Definition LoadEnv (filename : string) : IO (Schema := Schema) error :=
  emit (EvReadFile filename) ;;;
  fs <- (λ w, (filesystem w, w)) ;;
  match files fs !! filename with
  | Some data =>
      let '(tokens, err) := scan (raw_lines data "") in
      load_lines tokens ;;; ret err
  | None =>
      match dirs fs !! filename with
      | Some _ => ret (Some (eisdir filename))
      | None => ret None
      end
  end.

(** The world with another environment. *)
Definition with_environ (w : @World Schema) (e : gmap string string)
    : @World Schema :=
  {| DB := DB w; environ := e; stdin := stdin w; filesystem := filesystem w;
     database := database w; trace := trace w |}.

End LoadEnv.

(** What every step of [LoadEnv] keeps of the environment: the variables
    with a value that is not empty, and the presence of every variable. *)
Definition keeps (e e' : gmap string string) : Prop :=
  (∀ key v, e !! key = Some v → v ≠ "" → e' !! key = Some v)
  ∧ (∀ key, is_Some (e !! key) → is_Some (e' !! key)).

(** The printable bytes of ASCII other than the space. *)
Definition printable (c : Ascii.ascii) : Prop :=
  (33 ≤ Ascii.nat_of_ascii c ≤ 126)%nat.

(** The bytes of a key as one writes it: printable ASCII without the
    space and without [=]. *)
Definition key_byte (c : Ascii.ascii) : bool :=
  let n := Ascii.nat_of_ascii c in
  ((33 <=? n) && (n <=? 126) && negb (n =? 61))%nat.

Fixpoint all_bytes (p : Ascii.ascii → bool) (s : string) : bool :=
  match s with
  | EmptyString => true
  | String c s' => p c && all_bytes p s'
  end.

(** A key of that kind: not empty, not beginning with [#]. *)
Definition plain_key (key : string) : bool :=
  match key with
  | EmptyString => false
  | String c _ =>
      negb (Ascii.nat_of_ascii c =? 35)%nat && all_bytes key_byte key
  end.

(** A value that fits on a line and that [os.Setenv] accepts: no line
    feed, no NUL. *)
Definition line_value (value : string) : bool :=
  negb (has_byte (Ascii.ascii_of_nat 10) value)
  && negb (has_byte (Ascii.ascii_of_nat 0) value).

(** The line [key="value"], with the quote given. *)
Definition assignment (quote : string) (kv : string * string) : string :=
  kv.1 +:+ "=" +:+ quote +:+ kv.2 +:+ quote.

(** Lines written out as a file, each ended by a line feed. *)
Fixpoint unlines (lines : list string) : string :=
  match lines with
  | [] => EmptyString
  | line :: rest => line +:+ LF +:+ unlines rest
  end.

(** A line that the scanner can hold. *)
Definition fits (line : string) : Prop :=
  (N.of_nat (String.length line) < MaxScanTokenSize)%N.

(** A line that [LoadEnv] passes over: blank, a comment, or without [=]. *)
Definition passed_over (text : string) : Prop :=
  TrimSpace text = ""
  ∨ HasPrefix (TrimSpace text) "#" = true
  ∨ has_byte (Ascii.ascii_of_nat 61) (TrimSpace text) = false.

End env.

(** ** internal/user: the handlers and the repository *)

Module user.

(** Requests carry the three fields that the tags below validate; a
    response is a row of the table [users]. *)
Record CreateUserRequest := {
  Username : string;
  Email : string;
  Age : Z
}.

Record UserResponse := {
  ID : string;
  user_Username : string;
  user_Email : string;
  user_Age : Z
}.

(** *** [utf8.RuneCountInString] *)

(** The table [first] with the accept ranges: for a leading byte, the
    size of its sequence and the bounds of the second byte. *)
Definition first (c : Ascii.ascii) : option (nat * nat * nat) :=
  let b := Ascii.nat_of_ascii c in
  (if b <? 194 then None
   else if b <=? 223 then Some (2, 128, 191)
   else if b =? 224 then Some (3, 160, 191)
   else if b <=? 236 then Some (3, 128, 191)
   else if b =? 237 then Some (3, 128, 159)
   else if b <=? 239 then Some (3, 128, 191)
   else if b =? 240 then Some (4, 144, 191)
   else if b <=? 243 then Some (4, 128, 191)
   else if b =? 244 then Some (4, 128, 143)
   else None)%nat.

Definition between (lo hi : nat) (c : Ascii.ascii) : bool :=
  ((lo <=? Ascii.nat_of_ascii c) && (Ascii.nat_of_ascii c <=? hi))%nat.

(** Every byte that does not start a well-formed sequence counts as one
    rune, and the count goes on at the byte after it. *)
Fixpoint RuneCountInString (s : string) : nat :=
  match s with
  | EmptyString => 0%nat
  | String c rest =>
      S (if (Ascii.nat_of_ascii c <? 128)%nat then RuneCountInString rest
         else
           match first c with
           | None => RuneCountInString rest
           | Some (size, lo, hi) =>
               match rest with
               | String c1 r1 =>
                   if negb (between lo hi c1) then RuneCountInString rest
                   else if (size =? 2)%nat then RuneCountInString r1
                   else
                     match r1 with
                     | String c2 r2 =>
                         if negb (between 128 191 c2)
                         then RuneCountInString rest
                         else if (size =? 3)%nat then RuneCountInString r2
                         else
                           match r2 with
                           | String c3 r3 =>
                               if negb (between 128 191 c3)
                               then RuneCountInString rest
                               else RuneCountInString r3
                           | EmptyString => RuneCountInString rest
                           end
                     | EmptyString => RuneCountInString rest
                     end
               | EmptyString => RuneCountInString rest
               end
           end)
  end.

(** *** The validator, as far as the tags of [CreateUserRequest] use it *)

Inductive Tag := required | min (p : Z) | max (p : Z) | email.

Inductive FieldValue := StringField (s : string) | IntField (n : Z).

Definition tag_name (t : Tag) : string :=
  match t with
  | required => "required"
  | min _ => "min"
  | max _ => "max"
  | email => "email"
  end.

(** [fieldErrMsg] and the namespace of a field of the request. *)
Definition fieldErrMsg (ns field tag : string) : string :=
  "Key: '" +:+ ns +:+ "' Error:Field validation for '" +:+ field
  +:+ "' failed on the '" +:+ tag +:+ "' tag".

Definition field_error (failure : string * Tag) : string :=
  fieldErrMsg ("CreateUserRequest." +:+ failure.1) failure.1
    (tag_name failure.2).

(** [ValidationErrors.Error]: every message followed by a line feed, the
    whole trimmed. *)
Definition ValidationErrors_Error (failures : list (string * Tag)) : string :=
  env.TrimSpace (env.unlines (field_error <$> failures)).

(** *** The statements of the repository *)

Inductive Value := Text (s : string) | Int (n : Z).

Record Statement := { sql : string; args : list Value }.

Definition TAB : string := String (Ascii.ascii_of_nat 9) EmptyString.

Definition create_sql : string :=
  LF +:+ TAB +:+ TAB +:+ "INSERT INTO users (id, username, email, age) " +:+ LF
  +:+ TAB +:+ TAB +:+ "VALUES ($1, $2, $3, $4) " +:+ LF
  +:+ TAB +:+ TAB +:+ "RETURNING id, username, email, age, created_at" +:+ LF
  +:+ TAB.

Definition get_by_id_sql : string :=
  "SELECT id, username, email, age FROM users WHERE id = $1".

Definition get_by_email_sql : string :=
  "SELECT id, username, email, age FROM users WHERE email = $1".

Definition get_all_sql : string :=
  "SELECT id, username, email, age FROM users ORDER BY created_at DESC".

Definition update_sql : string :=
  LF +:+ TAB +:+ TAB +:+ "UPDATE users " +:+ LF
  +:+ TAB +:+ TAB
  +:+ "SET username = $2, email = $3, age = $4, updated_at = NOW()" +:+ LF
  +:+ TAB +:+ TAB +:+ "WHERE id = $1 " +:+ LF
  +:+ TAB +:+ TAB +:+ "RETURNING id, username, email, age" +:+ LF
  +:+ TAB.

Definition delete_sql : string := "DELETE FROM users WHERE id = $1".

(** *** What the package calls and does not define

    The JSON decoder with [DisallowUnknownFields], the regular expression
    of the validator's [email] tag, and the pool: [QueryRow] together
    with the [Scan] of its row into the fields of a user (an error of
    either, "no rows in result set" among them, or the user), [Query]
    (an error, or the rows that [rows.Next] steps through, each with what
    [rows.Scan] makes of it) and [Exec] (an error, or the number of rows
    affected), each on the state of the server. *)
Class Library (Store : Type) := {
  json_Decode : string → string + CreateUserRequest;
  emailRegex_MatchString : string → bool;
  QueryRow_Scan : Statement → Store → (string + UserResponse) * Store;
  Query_rows :
    Statement → Store → (string + list (string + UserResponse)) * Store;
  Exec : Statement → Store → (string + Z) * Store
}.

(** The server that the handlers run in: the database behind the pool,
    the statements sent to it so far, and the source of
    [uuid.NewString], of which [drawn] values have been used. *)
Record Server (Store : Type) := {
  store : Store;
  issued : list Statement;
  uuids : nat → string;
  drawn : nat
}.

Arguments store {Store} _.
Arguments issued {Store} _.
Arguments uuids {Store} _.
Arguments drawn {Store} _.

(** A request as the handlers see it: [c.Param("id")] and the body. *)
Record Request := { param_id : string; Body : string }.

(** What a handler passes to [c.JSON]. *)
Inductive Payload :=
| Message (text : string)
| User (u : UserResponse)
| Users (us : list UserResponse)
| Nothing.

Record Reply := { code : Z; payload : Payload }.

Definition StatusOK : Z := 200.
Definition StatusCreated : Z := 201.
Definition StatusNoContent : Z := 204.
Definition StatusBadRequest : Z := 400.
Definition StatusNotFound : Z := 404.
Definition StatusInternalServerError : Z := 500.

Section Package.

Context {Store : Type} `{!Library Store}.

(** **** The validator *)

Definition holds (t : Tag) (v : FieldValue) : bool :=
  match t, v with
  | required, StringField s => negb (String.eqb s "")
  | required, IntField n => negb (n =? 0)
  | min p, StringField s => p <=? Z.of_nat (RuneCountInString s)
  | min p, IntField n => p <=? n
  | max p, StringField s => Z.of_nat (RuneCountInString s) <=? p
  | max p, IntField n => n <=? p
  | email, StringField s => emailRegex_MatchString s
  | email, IntField _ => false
  end.

(** The tags of a field are tried in order, and the first that fails is
    the failure of the field. *)
Fixpoint first_failure (tags : list Tag) (v : FieldValue) : option Tag :=
  match tags with
  | [] => None
  | t :: rest => if holds t v then first_failure rest v else Some t
  end.

(** The struct tags of [CreateUserRequest]. *)
Definition fields (req : CreateUserRequest)
    : list (string * list Tag * FieldValue) :=
  [("Username", [required; min 3; max 32], StringField (Username req));
   ("Email", [required; email], StringField (Email req));
   ("Age", [required; min 0; max 120], IntField (Age req))].

Definition failures (req : CreateUserRequest) : list (string * Tag) :=
  omap (λ field, (λ t, (field.1.1, t)) <$> first_failure field.1.2 field.2)
       (fields req).

(** [validate.Struct(req)]. *)
Definition validate_Struct (req : CreateUserRequest) : error :=
  match failures req with
  | [] => None
  | failed => Some (ValidationErrors_Error failed)
  end.

(** **** The repository *)

Definition M (A : Type) : Type := Server Store → A * Server Store.

Definition send {A} (run : Statement → Store → A * Store) (q : Statement)
    : M A :=
  λ s, let '(r, st) := run q (store s) in
       (r, {| store := st; issued := issued s ++ [q];
              uuids := uuids s; drawn := drawn s |}).

Definition uuid_NewString : M string :=
  λ s, (uuids s (drawn s),
        {| store := store s; issued := issued s;
           uuids := uuids s; drawn := S (drawn s) |}).

Definition Create (user : CreateUserRequest) : M (string + UserResponse) :=
  λ s,
    let '(id, s1) := uuid_NewString s in
    let '(r, s2) :=
      send QueryRow_Scan
        {| sql := create_sql;
           args := [Text id; Text (Username user); Text (Email user);
                    Int (Age user)] |} s1 in
    match r with
    | inl err => (inl ("failed to create user: " +:+ err), s2)
    | inr response => (inr response, s2)
    end.

Definition GetByID (id : string) : M (string + UserResponse) :=
  λ s,
    let '(r, s1) :=
      send QueryRow_Scan {| sql := get_by_id_sql; args := [Text id] |} s in
    match r with
    | inl err => (inl ("failed to get user by ID: " +:+ err), s1)
    | inr user => (inr user, s1)
    end.

Definition GetByEmail (mail : string) : M (string + UserResponse) :=
  λ s,
    let '(r, s1) :=
      send QueryRow_Scan
        {| sql := get_by_email_sql; args := [Text mail] |} s in
    match r with
    | inl err => (inl ("failed to get user by email: " +:+ err), s1)
    | inr user => (inr user, s1)
    end.

(** The loop of [GetAll] over the rows; the empty list is the nil
    slice. *)
Fixpoint scan_rows (rows : list (string + UserResponse))
    (users : list UserResponse) : string + list UserResponse :=
  match rows with
  | [] => inr users
  | inl err :: _ => inl ("failed to scan user: " +:+ err)
  | inr user :: rest => scan_rows rest (users ++ [user])
  end.

Definition GetAll : M (string + list UserResponse) :=
  λ s,
    let '(r, s1) :=
      send Query_rows {| sql := get_all_sql; args := [] |} s in
    match r with
    | inl err => (inl ("failed to get users: " +:+ err), s1)
    | inr rows => (scan_rows rows [], s1)
    end.

Definition Update (id : string) (user : CreateUserRequest)
    : M (string + UserResponse) :=
  λ s,
    let '(r, s1) :=
      send QueryRow_Scan
        {| sql := update_sql;
           args := [Text id; Text (Username user); Text (Email user);
                    Int (Age user)] |} s in
    match r with
    | inl err => (inl ("failed to update user: " +:+ err), s1)
    | inr response => (inr response, s1)
    end.

Definition Delete (id : string) : M error :=
  λ s,
    let '(r, s1) :=
      send Exec {| sql := delete_sql; args := [Text id] |} s in
    match r with
    | inl err => (Some ("failed to delete user: " +:+ err), s1)
    | inr rowsAffected =>
        if rowsAffected =? 0 then (Some "user not found", s1)
        else (None, s1)
    end.

(** **** The handlers *)

Definition JSON (status : Z) (body : Payload) : Reply :=
  {| code := status; payload := body |}.

Definition decodeStrictJSON (c : Request) : string + CreateUserRequest :=
  json_Decode (Body c).

Definition CreateUser (c : Request) : M Reply :=
  λ s,
    match decodeStrictJSON c with
    | inl _ => (JSON StatusBadRequest (Message "Invalid request body"), s)
    | inr req =>
        match validate_Struct req with
        | Some err => (JSON StatusBadRequest (Message err), s)
        | None =>
            let '(r, s1) := Create req s in
            match r with
            | inl _ =>
                (JSON StatusInternalServerError
                      (Message "Failed to create user"), s1)
            | inr user => (JSON StatusCreated (User user), s1)
            end
        end
    end.

Definition GetUser (c : Request) : M Reply :=
  λ s,
    let id := param_id c in
    if decide (id = "")
    then (JSON StatusBadRequest (Message "User ID is required"), s)
    else
      let '(r, s1) := GetByID id s in
      match r with
      | inl _ => (JSON StatusNotFound (Message "User not found"), s1)
      | inr user => (JSON StatusOK (User user), s1)
      end.

Definition GetUsers (c : Request) : M Reply :=
  λ s,
    let '(r, s1) := GetAll s in
    match r with
    | inl _ =>
        (JSON StatusInternalServerError (Message "Failed to get users"), s1)
    | inr users => (JSON StatusOK (Users users), s1)
    end.

Definition UpdateUser (c : Request) : M Reply :=
  λ s,
    let id := param_id c in
    if decide (id = "")
    then (JSON StatusBadRequest (Message "User ID is required"), s)
    else
      match decodeStrictJSON c with
      | inl _ => (JSON StatusBadRequest (Message "Invalid request body"), s)
      | inr req =>
          match validate_Struct req with
          | Some err => (JSON StatusBadRequest (Message err), s)
          | None =>
              let '(r, s1) := Update id req s in
              match r with
              | inl _ =>
                  (JSON StatusInternalServerError
                        (Message "Failed to update user"), s1)
              | inr user => (JSON StatusOK (User user), s1)
              end
          end
      end.

Definition DeleteUser (c : Request) : M Reply :=
  λ s,
    let id := param_id c in
    if decide (id = "")
    then (JSON StatusBadRequest (Message "User ID is required"), s)
    else
      let '(e, s1) := Delete id s in
      match e with
      | Some _ =>
          (JSON StatusInternalServerError
                (Message "Failed to delete user"), s1)
      | None => (JSON StatusNoContent Nothing, s1)
      end.

(** **** Vocabulary *)

(** The handlers by name, as [RegisterRoutes] mounts them. *)
Inductive Handler := hCreateUser | hGetUsers | hGetUser | hUpdateUser
                   | hDeleteUser.

Definition serve (h : Handler) : Request → M Reply :=
  match h with
  | hCreateUser => CreateUser
  | hGetUsers => GetUsers
  | hGetUser => GetUser
  | hUpdateUser => UpdateUser
  | hDeleteUser => DeleteUser
  end.

(** The unwrapped rows, when every one of them was scanned. *)
Definition scanned (rows : list (string + UserResponse))
    : option (list UserResponse) :=
  mapM (λ row, match row with inl _ => None | inr user => Some user end) rows.

End Package.

End user.

(** * Concrete scenarios *)

Module Scenario.

(** A server whose schema is the list of the scripts applied so far.  The
    text [CREATE TABLE;] is a syntax error; every other script applies. *)
Definition plain_script (sql : string) (d : @Database (list string))
    : string + @Database (list string) :=
  if decide (sql = "CREATE TABLE;") then inl "syntax error at or near ;"
  else inr {| migrations := migrations d; schema := schema d ++ [sql] |}.


(** A server and a connection on which nothing goes wrong. *)
Definition no_faults : @Faults (list string) :=
  {| refuses := λ _ _, None; interrupted := λ _, None;
     unscannable := λ _, None |}.


(** A server on which the statement that creates the tracker table is
    not permitted. *)
Definition no_create : @Faults (list string) :=
  {| refuses := λ e _,
       if decide (e = EvExec createMigrationsTable [])
       then Some "permission denied for schema public" else None;
     interrupted := λ _, None;
     unscannable := λ _, None |}.

(** A server that also understands the script that empties the tracker
    table. *)
Definition deleting_script (sql : string) (d : @Database (list string))
    : string + @Database (list string) :=
  if decide (sql = "DELETE FROM migrations;")
  then inr {| migrations := (λ _, []) <$> migrations d;
              schema := schema d ++ [sql] |}
  else plain_script sql d.

(** A server that also understands a script that writes a row of the
    tracker table itself. *)
Definition recording_script (sql : string) (d : @Database (list string))
    : string + @Database (list string) :=
  if decide (sql = "INSERT INTO migrations (filename) VALUES ('C.sql');")
  then inr {| migrations := (λ rows, rows ++ ["C.sql"]) <$> migrations d;
              schema := schema d ++ [sql] |}
  else plain_script sql d.

(** A parser that accepts the URLs of the postgres scheme. *)
Definition url_parser (connString : string) : option string :=
  if String.prefix "postgres://" connString then None
  else Some "cannot parse connection string".

(** A pool constructor that accepts the URLs of the postgres scheme. *)
Definition url_pool (timeout_seconds : Z) (dsn : string) : string + Pool :=
  if String.prefix "postgres://" dsn then inr {| pool_dsn := dsn |}
  else inl "cannot parse connection string".

(** No [.env] file: [LoadEnv] returns nil and changes nothing. *)
Definition no_env_file (filename : string) : IO (Schema := list string) error :=
  λ w, (None, w).

Definition the_pool : Pool := {| pool_dsn := "postgres://localhost/userdb" |}.

Definition entry (name : string) : DirEntry := {| Name := name; IsDir := false |}.

(** Three change-sets [A], [B], [C], listed out of order; [B] is invalid. *)
Definition abc_fs : FileSystem := {|
  dirs := {[ "migrations" := [entry "C.sql"; entry "A.sql"; entry "B.sql"] ]};
  files := {[ "migrations/A.sql" := "CREATE TABLE a();";
              "migrations/B.sql" := "CREATE TABLE;";
              "migrations/C.sql" := "CREATE TABLE c();" ]}
|}.

(** Two valid change-sets [A] and [B], a directory and a note. *)
Definition ab_fs : FileSystem := {|
  dirs := {[ "migrations" := [entry "B.sql"; entry "README.md";
                              {| Name := "old.sql"; IsDir := true |};
                              entry "A.sql"];
             "seeds" := [] ]};
  files := {[ "migrations/A.sql" := "CREATE TABLE a();";
              "migrations/B.sql" := "CREATE TABLE b();" ]}
|}.

(** A migrations directory without a single file. *)
Definition empty_fs : FileSystem := {|
  dirs := {[ "migrations" := [] ]};
  files := ∅
|}.


(** Two change-sets, the second of which empties the tracker table. *)
Definition delete_fs : FileSystem := {|
  dirs := {[ "migrations" := [entry "001_a.sql"; entry "002_del.sql"] ]};
  files := {[ "migrations/001_a.sql" := "INSERT INTO notes DEFAULT VALUES;";
              "migrations/002_del.sql" := "DELETE FROM migrations;" ]}
|}.

(** [A] records [C] itself, [B] is invalid. *)
Definition meddling_fs : FileSystem := {|
  dirs := {[ "migrations" := [entry "A.sql"; entry "B.sql"; entry "C.sql"] ]};
  files := {[ "migrations/A.sql"
                := "INSERT INTO migrations (filename) VALUES ('C.sql');";
              "migrations/B.sql" := "CREATE TABLE;";
              "migrations/C.sql" := "CREATE TABLE c();" ]}
|}.

(** Two seed files, the first of them invalid. *)
Definition seed_fs : FileSystem := {|
  dirs := {[ "migrations" := []; "seeds" := [entry "a.sql"; entry "b.sql"] ]};
  files := {[ "seeds/a.sql" := "CREATE TABLE;";
              "seeds/b.sql" := "INSERT INTO users DEFAULT VALUES;" ]}
|}.

(** A database without tracker table and with an empty schema. *)
Definition fresh_db : @Database (list string) :=
  {| migrations := None; schema := [] |}.

(** The database after [A] and [B] of [ab_fs] have been applied. *)
Definition ab_applied_db : @Database (list string) :=
  {| migrations := Some ["A.sql"; "B.sql"];
     schema := ["CREATE TABLE a();"; "CREATE TABLE b();"] |}.

(** A world with the pool initialised. *)
Definition connected (fs : FileSystem) (d : @Database (list string))
    (input : list string) : @World (list string) :=
  {| DB := Some the_pool;
     environ := {[ "DATABASE_URL" := "postgres://localhost/userdb" ]};
     stdin := input; filesystem := fs; database := d; trace := [] |}.

(** A world at process start: [DB] is nil. *)
Definition at_start (env : gmap string string) (fs : FileSystem)
    (d : @Database (list string)) (input : list string)
    : @World (list string) :=
  {| DB := None; environ := env; stdin := input; filesystem := fs;
     database := d; trace := [] |}.

End Scenario.

(** ** A server of users in memory *)

Module Example.

(** The table [users], in the order of insertion. *)
Definition Table : Type := list user.UserResponse.

Definition ann : user.UserResponse :=
  {| user.ID := "1"; user.user_Username := "ann_lee";
     user.user_Email := "ann@example.com"; user.user_Age := 30 |}.

(** A decoder that knows three bodies. *)
Definition decode (body : string) : string + user.CreateUserRequest :=
  if decide (body = "ann")
  then inr {| user.Username := "ann_lee"; user.Email := "ann@example.com";
              user.Age := 30 |}
  else if decide (body = "baby")
  then inr {| user.Username := "baby_joe"; user.Email := "joe@example.com";
              user.Age := 0 |}
  else if decide (body = "al")
  then inr {| user.Username := "al"; user.Email := "al@example.com";
              user.Age := 44 |}
  else inl "invalid character".

Definition has_id (id : string) (row : user.UserResponse) : bool :=
  String.eqb (user.ID row) id.

Definition query_row (q : user.Statement) (table : Table)
    : (string + user.UserResponse) * Table :=
  match user.args q with
  | [user.Text id] =>
      (match List.find (has_id id) table with
       | Some row => inr row
       | None => inl "no rows in result set"
       end, table)
  | [user.Text id; user.Text name; user.Text mail; user.Int age] =>
      let row := {| user.ID := id; user.user_Username := name;
                    user.user_Email := mail; user.user_Age := age |} in
      if String.eqb (user.sql q) user.create_sql
      then (inr row, table ++ [row])
      else if existsb (has_id id) table
      then (inr row,
            (λ old, if has_id id old then row else old) <$> table)
      else (inl "no rows in result set", table)
  | _ => (inl "cannot run the statement", table)
  end.

Definition query (q : user.Statement) (table : Table)
    : (string + list (string + user.UserResponse)) * Table :=
  (inr (inr <$> rev table), table).

Definition exec (q : user.Statement) (table : Table)
    : (string + Z) * Table :=
  match user.args q with
  | [user.Text id] =>
      (inr (Z.of_nat (length (List.filter (has_id id) table))),
       List.filter (λ row, negb (has_id id row)) table)
  | _ => (inl "cannot run the statement", table)
  end.

#[global] Instance library : user.Library Table := {|
  user.json_Decode := decode;
  user.emailRegex_MatchString := env.has_byte (Ascii.ascii_of_nat 64);
  user.QueryRow_Scan := query_row;
  user.Query_rows := query;
  user.Exec := exec
|}.

(** A server with one user. *)
Definition server : user.Server Table :=
  {| user.store := [ann]; user.issued := [];
     user.uuids := λ n, "id-" +:+ String.concat "" (replicate n "i");
     user.drawn := 0 |}.

(** A line that the scanner's buffer does not hold. *)
Definition long_line : string :=
  "LONG=" +:+ String.concat "" (replicate (Nat.pow 2 16) "x").

(** The same file system with the change-set [B] repaired. *)
Definition repaired (fs : FileSystem) : FileSystem :=
  {| dirs := dirs fs;
     files := <["migrations/B.sql" := "CREATE TABLE b();"]> (files fs) |}.

(** A file system with the file [.env] only. *)
Definition env_fs (content : string) : FileSystem :=
  {| dirs := ∅; files := {[ ".env" := content ]} |}.

End Example.

(** * Properties *)

(** ** The order on file names *)

Lemma ascii_compare_Eq a b : Ascii.compare a b = Eq ↔ a = b.
Proof.
  split; [apply Ascii.compare_eq_iff|].
  intros ->. unfold Ascii.compare. apply N.compare_refl.
Qed.

Lemma string_compare_refl s : String.compare s s = Eq.
Proof.
  induction s as [|c s IH]; [done|]. simpl.
  by rewrite (proj2 (ascii_compare_Eq c c) eq_refl).
Qed.

Lemma string_compare_Lt_trans a b c :
  String.compare a b = Lt → String.compare b c = Lt → String.compare a c = Lt.
Proof.
  revert b c. induction a as [|x a IH]; intros [|y b] [|z c]; simpl; try done.
  unfold Ascii.compare.
  destruct (N.compare_spec (Ascii.N_of_ascii x) (Ascii.N_of_ascii y)) as [Hxy|Hxy|Hxy];
    destruct (N.compare_spec (Ascii.N_of_ascii y) (Ascii.N_of_ascii z)) as [Hyz|Hyz|Hyz];
    try done; intros H1 H2.
  - rewrite Hxy, Hyz, N.compare_refl. eauto.
  - rewrite Hxy. by apply N.compare_lt_iff in Hyz as ->.
  - rewrite <- Hyz. by apply N.compare_lt_iff in Hxy as ->.
  - assert (Ascii.N_of_ascii x < Ascii.N_of_ascii z)%N as Hxz by lia.
    by apply N.compare_lt_iff in Hxz as ->.
Qed.

Lemma str_le_lt_eq a b : str_le a b ↔ str_lt a b ∨ a = b.
Proof.
  unfold str_le, str_lt, String.leb. split.
  - destruct (String.compare a b) eqn:E; try done; [|by left].
    right. by apply String.compare_eq_iff.
  - intros [->| ->]; [done|]. by rewrite string_compare_refl.
Qed.

Lemma str_lt_irrefl a : ¬ str_lt a a.
Proof. unfold str_lt. by rewrite string_compare_refl. Qed.

#[global] Instance str_lt_trans : Transitive str_lt.
Proof. intros a b c. apply string_compare_Lt_trans. Qed.

#[global] Instance str_le_trans : Transitive str_le.
Proof.
  intros a b c. rewrite !str_le_lt_eq.
  intros [H1| ->] [H2| ->]; eauto. left. by etrans.
Qed.

#[global] Instance str_le_total : Total str_le.
Proof. intros a b. apply String.leb_total. Qed.

#[global] Instance str_le_antisym : AntiSymm (=) str_le.
Proof. intros a b. apply String.leb_antisym. Qed.

(** [sort.Strings] returns the sorted rearrangement of its argument. *)
Lemma sort_Strings_sorted l : StronglySorted str_le (sort_Strings l).
Proof. apply StronglySorted_merge_sort; apply _. Qed.

Lemma sort_Strings_perm l : sort_Strings l ≡ₚ l.
Proof. apply merge_sort_Permutation. Qed.

Lemma sort_Strings_unique l1 l2 : l1 ≡ₚ l2 → sort_Strings l1 = sort_Strings l2.
Proof.
  intros H. apply (StronglySorted_unique str_le); try apply sort_Strings_sorted.
  by rewrite !sort_Strings_perm.
Qed.

(** Without repeated names the sorted list is strictly increasing. *)
Lemma StronglySorted_le_lt l :
  NoDup l → StronglySorted str_le l → StronglySorted str_lt l.
Proof.
  induction 2 as [|x l Hl IH Hx]; constructor.
  - apply IH. by eapply NoDup_cons_1_2.
  - apply NoDup_cons in H as [Hnx _].
    apply Forall_forall. intros y Hy.
    rewrite Forall_forall in Hx. by destruct (proj1 (str_le_lt_eq x y) (Hx y Hy)) as [?| ->].
Qed.

(** ** The snapshot of the tracker *)

Lemma unexecuted_cons m f rest :
  unexecuted m (f :: rest) =
  if executed m f then unexecuted m rest else f :: unexecuted m rest.
Proof.
  unfold unexecuted. rewrite filter_cons.
  destruct (executed m f); by case_decide.
Qed.

Lemma executed_foldl rows m f :
  executed (foldl (λ m filename, <[filename := true]> m) m rows) f = true
  ↔ f ∈ rows ∨ executed m f = true.
Proof.
  revert m. induction rows as [|g rows IH]; intros m; simpl.
  - rewrite elem_of_nil. tauto.
  - rewrite IH, elem_of_cons. unfold executed.
    destruct (decide (g = f)) as [->|Hne].
    + rewrite lookup_insert_eq. simpl. tauto.
    + rewrite lookup_insert_ne by done. intuition congruence.
Qed.

Lemma executed_load rows f :
  executed (load_executed rows) f = true ↔ f ∈ rows.
Proof.
  unfold load_executed. rewrite executed_foldl. unfold executed.
  rewrite lookup_empty. simpl. intuition congruence.
Qed.

Lemma unexecuted_load rows sqlFiles :
  unexecuted (load_executed rows) sqlFiles = filter (λ f, f ∉ rows) sqlFiles.
Proof.
  unfold unexecuted. apply list_filter_iff. intros f.
  rewrite <- executed_load. by destruct (executed _ f).
Qed.

(** ** The migration loop *)

Section Properties.

#[local] Set Default Proof Using "Type".

Context {Schema : Type}.
Variable sql_script : string → @Database Schema → string + @Database Schema.
Variable faults : @Faults Schema.
Variable pgxpool_New : Z → string → string + Pool.
Variable LoadEnv : string → @World Schema → error * @World Schema.

Implicit Types (w : @World Schema) (d : @Database Schema).
Implicit Types (fs : FileSystem) (f : string) (res : error).

(** Closes a goal that says which world the program has reached. *)
Ltac frame := unfold after; simpl; rewrite <- ?app_assoc; reflexivity.

(** Unfolds the primitive operations of the monad in a hypothesis. *)
Ltac run_in H :=
  unfold Pool_Exec, Pool_Query, os_ReadFile, os_ReadDir, os_Getenv,
    log_Fatalf, log_Printf, log_Println, println, fmt_Printf, fmt_Println,
    fmt_Scanln, get_DB, set_DB, set_database, emit, bind, ret in H;
  simpl in H.

(** The same in the goal. *)
Ltac run :=
  unfold Pool_Exec, Pool_Query, os_ReadFile, os_ReadDir, os_Getenv,
    log_Fatalf, log_Printf, log_Println, println, fmt_Printf, fmt_Println,
    fmt_Scanln, get_DB, set_DB, set_database, emit, bind, ret;
  simpl.

Lemma after_nil w : after w (database w) [] = w.
Proof. destruct w. unfold after; simpl. by rewrite app_nil_r. Qed.

Lemma after_after w d1 d2 (l1 l2 : list Event) :
  after (after w d1 l1) d2 l2 = after w d2 (l1 ++ l2).
Proof. unfold after; simpl. by rewrite <- app_assoc. Qed.

Lemma content_of_Some fs dir f content :
  files fs !! filepath_Join dir f = Some content → content_of fs dir f = content.
Proof. unfold content_of. by intros ->. Qed.

(** One run of the loop: the change-sets [done] are applied as whole
    units; then the loop is through, or it fails on the next one. *)
Lemma migrate_files_run pool m sqlFiles w res w' :
  migrate_files sql_script faults pool m sqlFiles w = (res, w') →
  ∃ done d_done delta,
    w' = after w (database w') delta
    ∧ apply_changesets sql_script faults (filesystem w) (database w) done
      = inr d_done
    ∧ match res with
      | None =>
          unexecuted m sqlFiles = done
          ∧ database w' = d_done
          ∧ read_paths delta = filepath_Join migrationDir <$> done
          ∧ exec_log delta = done ≫= changeset_execs (filesystem w)
      | Some err =>
          ∃ f rest execs,
            unexecuted m sqlFiles = done ++ f :: rest
            ∧ failed_at sql_script faults (filesystem w) f d_done err
                (database w') execs
            ∧ read_paths delta = filepath_Join migrationDir <$> (done ++ [f])
            ∧ exec_log delta = (done ≫= changeset_execs (filesystem w)) ++ execs
      end.
Proof.
  revert w res w'. induction sqlFiles as [|f rest IH]; intros w res w' Hrun.
  { inversion Hrun; subst. exists [], (database w'), [].
    by rewrite after_nil. }
  simpl in Hrun. rewrite unexecuted_cons.
  destruct (executed m f) eqn:Hex; run_in Hrun.
  { apply IH in Hrun as (done & d_done & delta & Hw & Happ & Hres). simpl in *.
    eexists done, d_done, (_ :: delta).
    split; [rewrite Hw at 1; frame|].
    exact (conj Happ Hres). }
  destruct (files (filesystem w) !! filepath_Join migrationDir f)
    as [content|] eqn:Hfile; simpl in Hrun.
  2: { inversion Hrun; subst; simpl. eexists [], (database w), [_; _].
       split; [frame|]. split; [done|].
       exists f, (unexecuted m rest), [].
       split_and!; try done. by constructor. }
  destruct (pg_exec sql_script faults content [] (database w))
    as [err|d1] eqn:Hexec; simpl in Hrun.
  { inversion Hrun; subst; simpl. eexists [], (database w), [_; _; _].
    split; [frame|]. split; [done|].
    exists f, (unexecuted m rest), [(content, [])].
    split_and!; try done. by econstructor. }
  destruct (pg_exec sql_script faults insertMigration [f] d1)
    as [err|d2] eqn:Hins; simpl in Hrun.
  { inversion Hrun; subst; simpl. eexists [], (database w), [_; _; _; _].
    split; [frame|]. split; [done|].
    exists f, (unexecuted m rest), [(content, []); (insertMigration, [f])].
    split_and!; try done. by econstructor. }
  apply IH in Hrun as (done & d_done & delta & Hw & Happ & Hres). simpl in *.
  eexists (f :: done), d_done, ([_; _; _; _; _] ++ delta).
  split; [rewrite Hw at 1; frame|].
  split; [simpl; unfold apply_changeset; by rewrite Hfile, Hexec, Hins|].
  destruct res as [err|].
  - destruct Hres as (g & rest' & execs & Hun & Hfail & Hread & Hlog).
    exists g, rest', execs. rewrite Hun.
    split_and!; try done.
    + simpl. by rewrite Hread.
    + simpl. rewrite Hlog. unfold changeset_execs at 2.
      by rewrite (content_of_Some _ _ _ _ Hfile).
  - destruct Hres as (Hun & Hd & Hread & Hlog).
    rewrite Hun. split_and!; try done.
    + simpl. by rewrite Hread.
    + simpl. rewrite Hlog. unfold changeset_execs at 2.
      by rewrite (content_of_Some _ _ _ _ Hfile).
Qed.

Lemma apply_changesets_app fs d l1 l2 :
  apply_changesets sql_script faults fs d (l1 ++ l2) =
  match apply_changesets sql_script faults fs d l1 with
  | inl err => inl err
  | inr d1 => apply_changesets sql_script faults fs d1 l2
  end.
Proof.
  revert d. induction l1 as [|f l1 IH]; intros d; simpl; [done|].
  by destruct (apply_changeset sql_script faults fs d f).
Qed.

(** Where the executor fails, the unit of work does not apply. *)
Lemma failed_at_not_applied fs f d err d' execs :
  failed_at sql_script faults fs f d err d' execs →
  ∃ e, apply_changeset sql_script faults fs d f = inl e.
Proof.
  intros [Hfile|content e Hfile Hexec|content d1 e Hfile Hexec Hins];
    unfold apply_changeset; rewrite Hfile; [by eexists| |].
  - rewrite Hexec. by eexists.
  - rewrite Hexec, Hins. by eexists.
Qed.

(** The loop over change-sets that all apply: it goes through all of
    them and returns nil. *)
Lemma migrate_files_applies pool m sqlFiles w d' :
  apply_changesets sql_script faults (filesystem w) (database w)
    (unexecuted m sqlFiles) = inr d' →
  ∃ delta,
    migrate_files sql_script faults pool m sqlFiles w
    = (None, after w d' delta)
    ∧ read_paths delta = filepath_Join migrationDir <$> unexecuted m sqlFiles
    ∧ exec_log delta = unexecuted m sqlFiles ≫= changeset_execs (filesystem w).
Proof.
  intros Hall.
  destruct (migrate_files sql_script faults pool m sqlFiles w)
    as [res w'] eqn:Hrun.
  destruct (migrate_files_run _ _ _ _ _ _ Hrun)
    as (done & d_done & delta & Hw & Happ & Hres).
  destruct res as [err|].
  - destruct Hres as (f & rest & execs & Hplan & Hfail & _).
    apply failed_at_not_applied in Hfail as [e He].
    rewrite Hplan, apply_changesets_app, Happ in Hall. simpl in Hall.
    by rewrite He in Hall.
  - destruct Hres as (Hplan & Hd & Hread & Hlog). subst done.
    rewrite Hall in Happ. injection Happ as ->.
    exists delta. split_and!; try done. rewrite <- Hd. by rewrite <- Hw.
Qed.

(** The loop over change-sets of which [f] is the first that fails: it
    applies those before [f], fails on [f] as [failed_at] says, and
    touches none of the rest. *)
Lemma migrate_files_fails pool m sqlFiles w done f rest d_done err d' execs :
  unexecuted m sqlFiles = done ++ f :: rest →
  apply_changesets sql_script faults (filesystem w) (database w) done
  = inr d_done →
  failed_at sql_script faults (filesystem w) f d_done err d' execs →
  ∃ delta,
    migrate_files sql_script faults pool m sqlFiles w
    = (Some err, after w d' delta)
    ∧ read_paths delta = filepath_Join migrationDir <$> (done ++ [f])
    ∧ exec_log delta = (done ≫= changeset_execs (filesystem w)) ++ execs.
Proof.
  revert w done. induction sqlFiles as [|g others IH]; intros w done.
  { intros Hun. by destruct done. }
  rewrite unexecuted_cons. simpl.
  destruct (executed m g) eqn:Hex.
  { intros Hun Happ Hfail.
    destruct (IH (after w (database w) [EvStdout (skipped_line g)]) done)
      as (delta & Hrun & Hread & Hlog); try done.
    run. unfold skipped_line, after in Hrun. simpl in Hrun. rewrite Hrun.
    eexists (_ :: delta). split; [f_equal; frame|]. done. }
  destruct done as [|g' done]; simpl; intros [= <- Hrest] Happ Hfail.
  - injection Happ as <-. run.
    destruct Hfail as [Hfile|content e Hfile Hexec|content d1 e Hfile Hexec Hins];
      rewrite Hfile; simpl.
    + eexists [_; _]. split; [f_equal; frame|]. done.
    + rewrite Hexec. simpl. eexists [_; _; _]. split; [f_equal; frame|]. done.
    + rewrite Hexec. simpl. rewrite Hins. simpl.
      eexists [_; _; _; _]. split; [f_equal; frame|]. done.
  - destruct (apply_changeset sql_script faults (filesystem w) (database w) g)
      as [|d2] eqn:Hone; [done|].
    unfold apply_changeset in Hone.
    destruct (files (filesystem w) !! filepath_Join migrationDir g)
      as [content|] eqn:Hfile; [|done].
    destruct (pg_exec sql_script faults content [] (database w))
      as [|d1] eqn:Hexec; [done|].
    set (w2 := after w d2
                 [EvStdout ("Executing migration " +:+ g +:+ LF);
                  EvReadFile (filepath_Join migrationDir g);
                  EvExec content []; EvExec insertMigration [g];
                  EvStdout ("Migration " +:+ g
                            +:+ " executed successfully" +:+ LF)]).
    destruct (IH w2 done) as (delta & Hrun & Hread & Hlog); try done.
    run. rewrite Hfile. simpl. rewrite Hexec. simpl. rewrite Hone. simpl.
    unfold w2, after in Hrun. simpl in Hrun.
    rewrite <- !app_assoc. simpl. rewrite <- !app_assoc in Hrun. simpl in Hrun.
    rewrite Hrun.
    eexists ([_; _; _; _; _] ++ delta). split; [f_equal; frame|].
    simpl. split.
    + by rewrite Hread.
    + rewrite Hlog. unfold changeset_execs at 2.
      by rewrite (content_of_Some _ _ _ _ Hfile).
Qed.

(** *** The statements of the tracker *)

Lemma pg_exec_refused sql args d err :
  refuses faults (EvExec sql args) d = Some err →
  pg_exec sql_script faults sql args d = inl err.
Proof. unfold pg_exec. by intros ->. Qed.

Lemma pg_exec_create d :
  refuses faults (EvExec createMigrationsTable []) d = None →
  pg_exec sql_script faults createMigrationsTable [] d = inr (with_tracker d).
Proof.
  unfold pg_exec, with_tracker. intros ->. rewrite decide_True by done.
  destruct d as [[rows|] sch]; done.
Qed.

Lemma pg_query_rows d rows :
  pg_query faults selectMigrations d = inr rows →
  ∃ all, migrations d = Some all ∧ (rows `prefix_of` all).
Proof.
  unfold pg_query. destruct (refuses faults _ d); [done|].
  rewrite decide_True by done.
  destruct (migrations d) as [all|]; [|done]. intros [= <-].
  exists all. split; [done|].
  destruct (interrupted faults d) as [n|]; [|done].
  exists (drop n all). by rewrite take_drop.
Qed.

(** The answer to the query when nothing goes wrong. *)
Lemma pg_query_all d all :
  refuses faults (EvQuery selectMigrations) d = None →
  interrupted faults d = None →
  migrations d = Some all →
  pg_query faults selectMigrations d = inr all.
Proof.
  unfold pg_query. intros -> -> ->. by rewrite decide_True by done.
Qed.

Lemma insert_is_not_create : insertMigration ≠ createMigrationsTable.
Proof. done. Qed.

Lemma pg_exec_insert_inr f d d' :
  pg_exec sql_script faults insertMigration [f] d = inr d' →
  ∃ rows,
    migrations d = Some rows ∧ (f ∉ rows)
    ∧ d' = {| migrations := Some (rows ++ [f]); schema := schema d |}.
Proof.
  unfold pg_exec. destruct (refuses faults _ d); [done|].
  rewrite decide_False by apply insert_is_not_create.
  rewrite decide_True by done.
  destruct (migrations d) as [rows|]; [|done].
  case_decide; [done|]. intros [= <-]. by exists rows.
Qed.

(** A script that succeeds keeps the rows of the tracker, when scripts
    leave the tracker table alone. *)
Lemma pg_exec_script_tracker content d d1 rows :
  tracker_safe sql_script →
  pg_exec sql_script faults content [] d = inr d1 →
  migrations d = Some rows → migrations d1 = Some rows.
Proof.
  intros Hsafe Hexec Hrows. unfold pg_exec in Hexec.
  destruct (refuses faults _ d); [done|].
  repeat case_decide.
  - rewrite Hrows in Hexec. by inversion Hexec; subst.
  - by destruct (migrations d).
  - by rewrite (Hsafe _ _ _ Hexec).
Qed.

Lemma apply_changesets_tracker fs done d d' rows :
  tracker_safe sql_script →
  apply_changesets sql_script faults fs d done = inr d' →
  migrations d = Some rows → migrations d' = Some (rows ++ done).
Proof.
  intros Hsafe. revert d rows.
  induction done as [|f done IH]; intros d rows Happ Hrows; simpl in *.
  - inversion Happ; subst. by rewrite app_nil_r.
  - destruct (apply_changeset sql_script faults fs d f) as [|d2] eqn:Hone;
      [done|].
    unfold apply_changeset in Hone.
    destruct (files fs !! _) as [content|]; [|done].
    destruct (pg_exec sql_script faults content [] d) as [|d1] eqn:Hexec;
      [done|].
    pose proof (pg_exec_script_tracker _ _ _ _ Hsafe Hexec Hrows) as Hrows1.
    apply pg_exec_insert_inr in Hone as (rows' & Hrows' & _ & ->).
    rewrite Hrows1 in Hrows'. injection Hrows' as <-.
    rewrite (IH _ (rows ++ [f]) Happ eq_refl). by rewrite <- app_assoc.
Qed.

(** *** The rows of the snapshot *)

Lemma scan_filenames_all rows m :
  Forall (λ row, unscannable faults row = None) rows →
  scan_filenames faults rows m
  = inr (foldl (λ m filename, <[filename := true]> m) m rows).
Proof.
  intros Hrows. revert m. induction Hrows as [|row rows Hrow _ IH]; intros m.
  - done.
  - simpl. by rewrite Hrow, IH.
Qed.

Lemma scan_filenames_inr rows m m' :
  scan_filenames faults rows m = inr m' →
  Forall (λ row, unscannable faults row = None) rows.
Proof.
  revert m. induction rows as [|row rows IH]; intros m; simpl.
  - by constructor.
  - destruct (unscannable faults row) eqn:Hrow; [done|].
    intros Hscan. constructor; [done|]. by eapply IH.
Qed.

Lemma scan_filenames_inl rows m err :
  scan_filenames faults rows m = inl err →
  ∃ row, row ∈ rows ∧ unscannable faults row = Some err.
Proof.
  revert m. induction rows as [|row rows IH]; intros m; simpl; [done|].
  destruct (unscannable faults row) as [e|] eqn:Hrow.
  - intros [= <-]. exists row. split; [by left|done].
  - intros (row' & Hin & Herr)%IH. exists row'. split; [by right|done].
Qed.

(** *** A run of [RunMigrations] *)

(** With the pool initialised, the directory listed and the snapshot
    taken, a run is the loop, entered after the three operations of the
    prologue. *)
Lemma RunMigrations_loop w pool entries rows :
  DB w = Some pool →
  dirs (filesystem w) !! migrationDir = Some entries →
  snapshot faults w rows →
  RunMigrations sql_script faults w
  = migrate_files sql_script faults pool (load_executed rows)
      (sort_Strings (collect_sql entries))
      (after w (with_tracker (database w)) run_prologue).
Proof.
  intros HDB Hdir (Hcreate & Hquery & Hscan). unfold RunMigrations.
  unfold Pool_Exec, Pool_Query, os_ReadDir, get_DB, set_database, emit, bind, ret.
  rewrite HDB. cbn [database]. rewrite (pg_exec_create _ Hcreate). simpl.
  rewrite Hdir. cbn [database].
  rewrite Hquery, (scan_filenames_all _ _ Hscan). fold (load_executed rows).
  f_equal. frame.
Qed.

(** How a run with the pool ends before its loop; otherwise it has a
    listing and a snapshot, and gets there. *)
Lemma RunMigrations_prologue w pool :
  DB w = Some pool →
  (∃ err,
     refuses faults (EvExec createMigrationsTable []) (database w) = Some err
     ∧ RunMigrations sql_script faults w
       = (Some ("failed to create migrations table: " +:+ err),
          after w (database w) [EvExec createMigrationsTable []]))
  ∨ (refuses faults (EvExec createMigrationsTable []) (database w) = None
     ∧ dirs (filesystem w) !! migrationDir = None
     ∧ RunMigrations sql_script faults w
       = (Some ("failed to read migrations directory: "
                +:+ ReadDir_error (filesystem w) migrationDir),
          after w (with_tracker (database w))
            [EvExec createMigrationsTable []; EvReadDir migrationDir]))
  ∨ (∃ entries err,
       refuses faults (EvExec createMigrationsTable []) (database w) = None
       ∧ dirs (filesystem w) !! migrationDir = Some entries
       ∧ pg_query faults selectMigrations (with_tracker (database w)) = inl err
       ∧ RunMigrations sql_script faults w
         = (Some ("failed to query executed migrations: " +:+ err),
            after w (with_tracker (database w)) run_prologue))
  ∨ (∃ entries rows row err,
       refuses faults (EvExec createMigrationsTable []) (database w) = None
       ∧ dirs (filesystem w) !! migrationDir = Some entries
       ∧ pg_query faults selectMigrations (with_tracker (database w)) = inr rows
       ∧ row ∈ rows ∧ unscannable faults row = Some err
       ∧ RunMigrations sql_script faults w
         = (Some ("failed to scan migration filename: " +:+ err),
            after w (with_tracker (database w)) run_prologue))
  ∨ (∃ entries rows,
       dirs (filesystem w) !! migrationDir = Some entries
       ∧ snapshot faults w rows).
Proof.
  intros HDB. unfold RunMigrations.
  unfold Pool_Exec, Pool_Query, os_ReadDir, get_DB, set_database, emit, bind, ret.
  rewrite HDB. cbn [database].
  destruct (refuses faults (EvExec createMigrationsTable []) (database w))
    as [err|] eqn:Hcreate.
  { left. exists err. split; [done|].
    by rewrite (pg_exec_refused _ _ _ _ Hcreate). }
  right. rewrite (pg_exec_create _ Hcreate). simpl.
  destruct (dirs (filesystem w) !! migrationDir) as [entries|] eqn:Hdir.
  2: { left. split; [done|]. split; [done|]. f_equal. frame. }
  right. cbn [database].
  destruct (pg_query faults selectMigrations (with_tracker (database w)))
    as [err|rows] eqn:Hquery.
  { left. exists entries, err. split_and!; try done. f_equal. frame. }
  right.
  destruct (scan_filenames faults rows ∅) as [err|m] eqn:Hscan.
  - left. apply scan_filenames_inl in Hscan as (row & Hin & Herr).
    exists entries, rows, row, err. split_and!; try done. f_equal. frame.
  - right. exists entries, rows. split; [done|].
    split_and!; try done. by eapply scan_filenames_inr.
Qed.

Lemma RunMigrations_run w pool entries rows res w' :
  DB w = Some pool →
  dirs (filesystem w) !! migrationDir = Some entries →
  snapshot faults w rows →
  RunMigrations sql_script faults w = (res, w') →
  ∃ done d_done delta,
    w' = after w (database w') (run_prologue ++ delta)
    ∧ apply_changesets sql_script faults (filesystem w)
        (with_tracker (database w)) done = inr d_done
    ∧ match res with
      | None =>
          pending rows entries = done
          ∧ database w' = d_done
          ∧ read_paths delta = filepath_Join migrationDir <$> done
          ∧ exec_log delta = done ≫= changeset_execs (filesystem w)
      | Some err =>
          ∃ f rest execs,
            pending rows entries = done ++ f :: rest
            ∧ failed_at sql_script faults (filesystem w) f d_done err
                (database w') execs
            ∧ read_paths delta = filepath_Join migrationDir <$> (done ++ [f])
            ∧ exec_log delta = (done ≫= changeset_execs (filesystem w)) ++ execs
      end.
Proof.
  intros HDB Hdir Hsnap Hrun.
  rewrite (RunMigrations_loop _ _ _ _ HDB Hdir Hsnap) in Hrun.
  apply migrate_files_run in Hrun as (done & d_done & delta & Hw & Happ & Hres).
  simpl in *. rewrite unexecuted_load in Hres.
  exists done, d_done, delta. split; [rewrite Hw at 1; frame|]. done.
Qed.

(** A run in which every pending change-set can be applied goes through
    all of them, in the order of the plan, and returns nil. *)
Lemma RunMigrations_applies w pool entries rows d' :
  DB w = Some pool →
  dirs (filesystem w) !! migrationDir = Some entries →
  snapshot faults w rows →
  apply_changesets sql_script faults (filesystem w)
    (with_tracker (database w)) (pending rows entries) = inr d' →
  ∃ delta,
    RunMigrations sql_script faults w
    = (None, after w d' (run_prologue ++ delta))
    ∧ read_paths delta = filepath_Join migrationDir <$> pending rows entries
    ∧ exec_log delta = pending rows entries ≫= changeset_execs (filesystem w).
Proof.
  intros HDB Hdir Hsnap Hall.
  rewrite (RunMigrations_loop _ _ _ _ HDB Hdir Hsnap).
  destruct (migrate_files_applies pool (load_executed rows)
              (sort_Strings (collect_sql entries))
              (after w (with_tracker (database w)) run_prologue) d')
    as (delta & Hrun & Hread & Hlog).
  { by rewrite unexecuted_load. }
  rewrite unexecuted_load in Hread, Hlog.
  exists delta. split; [|done]. rewrite Hrun. by rewrite after_after.
Qed.

(** A run in which [f] is the first pending change-set that fails: those
    before it are applied, [f] fails as [failed_at] says, and the run
    returns that error without touching the rest. *)
Lemma RunMigrations_fails w pool entries rows done f rest d_done err d' execs :
  DB w = Some pool →
  dirs (filesystem w) !! migrationDir = Some entries →
  snapshot faults w rows →
  pending rows entries = done ++ f :: rest →
  apply_changesets sql_script faults (filesystem w)
    (with_tracker (database w)) done = inr d_done →
  failed_at sql_script faults (filesystem w) f d_done err d' execs →
  ∃ delta,
    RunMigrations sql_script faults w
    = (Some err, after w d' (run_prologue ++ delta))
    ∧ read_paths delta = filepath_Join migrationDir <$> (done ++ [f])
    ∧ exec_log delta = (done ≫= changeset_execs (filesystem w)) ++ execs.
Proof.
  intros HDB Hdir Hsnap Hplan Happ Hfail.
  rewrite (RunMigrations_loop _ _ _ _ HDB Hdir Hsnap).
  destruct (migrate_files_fails pool (load_executed rows)
              (sort_Strings (collect_sql entries))
              (after w (with_tracker (database w)) run_prologue)
              done f rest d_done err d' execs)
    as (delta & Hrun & Hread & Hlog); try done.
  { by rewrite unexecuted_load. }
  exists delta. split; [|done]. rewrite Hrun. by rewrite after_after.
Qed.
(** ** Calls before the pool is initialised *)

(** C10: while the package variable [DB] is nil, [RunMigrations] and
    [SeedDatabase] return the error "database not initialized" at once:
    the world they leave is the world they found, so no directory was
    listed, no file read, no statement sent and nothing printed. *)
Theorem uninitialized_pool_is_rejected w :
  DB w = None →
  RunMigrations sql_script faults w = (Some "database not initialized", w)
  ∧ SeedDatabase sql_script faults w = (Some "database not initialized", w).
Proof.
  intros Hnil. unfold RunMigrations, SeedDatabase, bind, get_DB.
  by rewrite Hnil.
Qed.

(** ** Connecting *)

Lemma InitPostgres_run w e w1 :
  InitPostgres pgxpool_New w = (e, w1) →
  database w1 = database w ∧ filesystem w1 = filesystem w
  ∧ environ w1 = environ w ∧ stdin w1 = stdin w
  ∧ ∃ delta, trace w1 = trace w ++ delta ∧ filter is_statement delta = [].
Proof.
  unfold InitPostgres. intros Hrun. run_in Hrun.
  case_decide.
  - inversion Hrun; subst; simpl. split_and!; try done.
    eexists [_]. split; reflexivity.
  - destruct (pgxpool_New 10 _); simpl in Hrun; inversion Hrun; subst; simpl;
      (split_and!; try done); eexists [_; _];
      (split; [by rewrite <- app_assoc|reflexivity]).
Qed.

(** With the pool constructor of pgx v5 the context and the server have
    no say: a connection string that the parser accepts gives a pool. *)
Lemma InitPostgres_v5 ParseConfig w dsn :
  environ w !! "DATABASE_URL" = Some dsn → dsn ≠ "" →
  InitPostgres (pgxpool_v5_New ParseConfig) w
  = match ParseConfig dsn with
    | Some err =>
        (Some ("failed to connect to PostgreSQL: " +:+ err),
         after w (database w)
           [EvStderr ("Connecting to PostgreSQL with DSN: " +:+ dsn +:+ LF);
            EvPoolNew 10 dsn])
    | None =>
        (None,
         {| DB := Some {| pool_dsn := dsn |}; environ := environ w;
            stdin := stdin w; filesystem := filesystem w;
            database := database w;
            trace := trace w ++
              [EvStderr ("Connecting to PostgreSQL with DSN: " +:+ dsn
                         +:+ LF);
               EvPoolNew 10 dsn] |})
    end.
Proof.
  intros Hdsn Hne.
  unfold InitPostgres, os_Getenv, println, emit, set_DB, bind, ret.
  rewrite Hdsn. simpl. rewrite decide_False by done.
  unfold pgxpool_v5_New.
  destruct (ParseConfig dsn); unfold after; simpl; by rewrite <- app_assoc.
Qed.

(** C9: [InitPostgres] fails when [DATABASE_URL] is empty or not set,
    before any pool is constructed: it only prints its line on standard
    error, and [DB] stays as it was.  With a value that is not empty it
    fails when the connection string is malformed, that is when the
    parser of [pgxpool.New] rejects it, and again [DB] stays as it was.
    And that is all: with a connection string that the parser accepts,
    [InitPostgres] returns nil at once and stores the pool, whatever the
    server does, since [pgxpool.New] of pgx v5 opens no connection; the
    context with its ten seconds is handed over and decides nothing, so
    that there is no failure by an elapsed timeout. *)
Theorem InitPostgres_connection_errors ParseConfig w :
  (default "" (environ w !! "DATABASE_URL") = "" →
   InitPostgres pgxpool_New w
   = (Some "DATABASE_URL environment variable is not set",
      after w (database w)
        [EvStderr ("Connecting to PostgreSQL with DSN: " +:+ LF)]))
  ∧ (∀ dsn err,
       environ w !! "DATABASE_URL" = Some dsn → dsn ≠ "" →
       ParseConfig dsn = Some err →
       InitPostgres (pgxpool_v5_New ParseConfig) w
       = (Some ("failed to connect to PostgreSQL: " +:+ err),
          after w (database w)
            [EvStderr ("Connecting to PostgreSQL with DSN: " +:+ dsn +:+ LF);
             EvPoolNew 10 dsn]))
  ∧ (∀ dsn,
       environ w !! "DATABASE_URL" = Some dsn → dsn ≠ "" →
       ParseConfig dsn = None →
       InitPostgres (pgxpool_v5_New ParseConfig) w
       = (None,
          {| DB := Some {| pool_dsn := dsn |}; environ := environ w;
             stdin := stdin w; filesystem := filesystem w;
             database := database w;
             trace := trace w ++
               [EvStderr ("Connecting to PostgreSQL with DSN: " +:+ dsn
                          +:+ LF);
                EvPoolNew 10 dsn] |})).
Proof.
  split_and!.
  - intros Hdsn. unfold InitPostgres, os_Getenv, println, emit, bind, ret.
    rewrite Hdsn. by rewrite decide_True by done.
  - intros dsn err Hdsn Hne Hparse.
    by rewrite (InitPostgres_v5 _ _ _ Hdsn Hne), Hparse.
  - intros dsn Hdsn Hne Hparse.
    by rewrite (InitPostgres_v5 _ _ _ Hdsn Hne), Hparse.
Qed.

(** ** The rollback stub *)

Lemma runMigrationsDown_run w :
  runMigrationsDown w
  = (tt, after w (database w) (EvStdout <$> rollback_lines)).
Proof.
  unfold runMigrationsDown, fmt_Println, emit, bind, after, rollback_lines.
  simpl. by rewrite <- !app_assoc.
Qed.

Lemma filter_is_statement_stdout (lines : list string) :
  filter is_statement (EvStdout <$> lines) = [].
Proof.
  induction lines as [|l lines IH]; [done|].
  rewrite fmap_cons, filter_cons_False; [done|]. by intros [].
Qed.

(** C8: the rollback operation prints its six lines, the first of which
    says that rollback is not implemented, and does nothing else: the
    database, tracker table and schema, is as before.  When the tool is
    started with [-down] (and neither [-help] nor [-up]) and the pool
    could be initialised, the whole run sends no statement and no query
    to the server, leaves the database as it was and ends after these
    lines. *)
Theorem rollback_is_not_implemented flags w w1 :
  runMigrationsDown w
  = (tt, after w (database w) (EvStdout <$> rollback_lines))
  ∧ contains (hd "" rollback_lines) "not implemented"
  ∧ (help flags = false → up flags = false → down flags = true →
     InitPostgres pgxpool_New w = (None, w1) →
     migrate_main sql_script faults pgxpool_New flags w
     = (Returned, after w1 (database w) (EvStdout <$> rollback_lines))
     ∧ filter is_statement (trace w1 ++ (EvStdout <$> rollback_lines))
       = filter is_statement (trace w)).
Proof.
  split; [apply runMigrationsDown_run|]. split.
  { exists "⚠️  Rollback functionality ", (" yet." +:+ LF). done. }
  intros Hhelp Hup Hdown Hinit.
  destruct (InitPostgres_run _ _ _ Hinit) as (Hd & _ & _ & _ & delta & Htr & Hst).
  split.
  - unfold migrate_main. rewrite Hhelp. unfold bind at 1. rewrite Hinit.
    rewrite Hup, Hdown. unfold bind, ret. rewrite runMigrationsDown_run.
    by rewrite Hd.
  - rewrite Htr, !filter_app, Hst, filter_is_statement_stdout.
    by rewrite !app_nil_r.
Qed.

(** ** Discovery and the order of execution *)

Lemma collect_sql_filter entries :
  collect_sql entries
  = Name <$> filter (λ e, negb (IsDir e) && HasSuffix (Name e) ".sql") entries.
Proof.
  induction entries as [|e entries IH]; [done|]. simpl. rewrite filter_cons.
  destruct (negb (IsDir e) && HasSuffix (Name e) ".sql"); simpl;
    by rewrite IH.
Qed.

Lemma collect_sql_perm entries entries' :
  entries' ≡ₚ entries → collect_sql entries' ≡ₚ collect_sql entries.
Proof. intros H. rewrite !collect_sql_filter. by rewrite H. Qed.

Lemma collect_sql_NoDup entries :
  NoDup (Name <$> entries) → NoDup (collect_sql entries).
Proof.
  intros H. rewrite collect_sql_filter.
  eapply sublist_NoDup; [exact H|]. apply fmap_sublist, sublist_filter.
Qed.

Lemma StronglySorted_filter {A} (R : relation A) (P : A → Prop)
    `{∀ x, Decision (P x)} (l : list A) :
  StronglySorted R l → StronglySorted R (filter P l).
Proof.
  induction 1 as [|x l Hl IH Hx]; [constructor|].
  rewrite filter_cons. case_decide; [|done]. constructor; [done|].
  apply Forall_forall. intros y [_ Hy]%list_elem_of_filter.
  rewrite Forall_forall in Hx. auto.
Qed.

(** The order of execution does not depend on the order of the listing. *)
Lemma pending_perm rows entries entries' :
  entries' ≡ₚ entries → pending rows entries' = pending rows entries.
Proof.
  intros H. unfold pending. f_equal.
  by apply sort_Strings_unique, collect_sql_perm.
Qed.

Lemma pending_NoDup rows entries :
  NoDup (Name <$> entries) → NoDup (pending rows entries).
Proof.
  intros H. unfold pending. apply NoDup_filter.
  rewrite sort_Strings_perm. by apply collect_sql_NoDup.
Qed.

Lemma pending_sorted rows entries :
  StronglySorted str_le (pending rows entries).
Proof. unfold pending. apply StronglySorted_filter, sort_Strings_sorted. Qed.

(** It is strictly increasing when the names of the listing are distinct. *)
Lemma pending_increasing rows entries :
  NoDup (Name <$> entries) → StronglySorted str_lt (pending rows entries).
Proof.
  intros H. apply StronglySorted_le_lt; [by apply pending_NoDup|].
  apply pending_sorted.
Qed.

Lemma failed_at_execs fs f d err d' execs :
  failed_at sql_script faults fs f d err d' execs →
  execs `prefix_of` changeset_execs fs f.
Proof.
  intros [Hfile|content e Hfile Hexec|content d1 e Hfile Hexec Hins];
    unfold changeset_execs.
  - apply prefix_nil.
  - rewrite (content_of_Some _ _ _ _ Hfile). by apply prefix_cons, prefix_nil.
  - by rewrite (content_of_Some _ _ _ _ Hfile).
Qed.

Lemma failed_at_names fs f d err d' execs :
  failed_at sql_script faults fs f d err d' execs → contains err f.
Proof.
  intros [Hfile|content e Hfile Hexec|content d1 e Hfile Hexec Hins].
  - by exists "failed to read migration file ",
      (": " +:+ ReadFile_error fs (filepath_Join migrationDir f)).
  - by exists "failed to execute migration ", (": " +:+ e).
  - by exists "failed to record migration ", (": " +:+ e).
Qed.

(** The three kinds of error of a change-set carry its name in front. *)
Lemma failed_at_message fs f d err d' execs :
  failed_at sql_script faults fs f d err d' execs →
  ∃ reason,
    err = "failed to read migration file " +:+ f +:+ ": " +:+ reason
    ∨ err = "failed to execute migration " +:+ f +:+ ": " +:+ reason
    ∨ err = "failed to record migration " +:+ f +:+ ": " +:+ reason.
Proof.
  intros [Hfile|content e Hfile Hexec|content d1 e Hfile Hexec Hins];
    eexists; eauto.
Qed.

(** C3: whatever the order of the directory listing, a run executes the
    change-sets that its snapshot of the tracker does not hold in the
    increasing order of their file names, one after the other.  The plan
    of the run is sorted, strictly as the names of a listing are
    distinct, and it is the same for every rearrangement of the listing.
    When every change-set of the plan can be applied, the run returns
    nil and has read the files of the plan and sent, for each of them in
    that order, its text and then its record, and nothing else.  When
    [f] is the first of the plan that fails, the run has done so for the
    change-sets before [f], has sent what [failed_at] says for [f], and
    nothing for those after it. *)
Theorem changesets_run_in_filename_order w pool entries rows :
  DB w = Some pool →
  dirs (filesystem w) !! migrationDir = Some entries →
  snapshot faults w rows →
  let plan := pending rows entries in
  let fs := filesystem w in
  let d0 := with_tracker (database w) in
  StronglySorted str_le plan
  ∧ (NoDup (Name <$> entries) → StronglySorted str_lt plan)
  ∧ (∀ entries', entries' ≡ₚ entries → pending rows entries' = plan)
  ∧ (∀ d',
       apply_changesets sql_script faults fs d0 plan = inr d' →
       ∃ delta,
         RunMigrations sql_script faults w
         = (None, after w d' (run_prologue ++ delta))
         ∧ read_paths delta = filepath_Join migrationDir <$> plan
         ∧ exec_log delta = plan ≫= changeset_execs fs)
  ∧ (∀ done f rest d_done err d' execs,
       plan = done ++ f :: rest →
       apply_changesets sql_script faults fs d0 done = inr d_done →
       failed_at sql_script faults fs f d_done err d' execs →
       ∃ delta,
         RunMigrations sql_script faults w
         = (Some err, after w d' (run_prologue ++ delta))
         ∧ read_paths delta = filepath_Join migrationDir <$> (done ++ [f])
         ∧ exec_log delta = (done ≫= changeset_execs fs) ++ execs).
Proof.
  intros HDB Hdir Hsnap plan fs d0.
  split; [apply pending_sorted|].
  split; [apply pending_increasing|].
  split; [intros entries' Hperm; by apply pending_perm|].
  split.
  - intros d' Hall. by apply (RunMigrations_applies w pool entries rows).
  - intros done f rest d_done err d' execs Hplan Happ Hfail.
    by apply (RunMigrations_fails w pool entries rows done f rest d_done).
Qed.
(** ** Failing and succeeding runs *)

(** The first operation of every run is the statement that creates the
    tracker table if it is not there. *)
Lemma RunMigrations_creates_first w pool res w' :
  DB w = Some pool →
  RunMigrations sql_script faults w = (res, w') →
  ∃ delta, trace w' = trace w ++ EvExec createMigrationsTable [] :: delta.
Proof.
  intros HDB Hrun.
  destruct (RunMigrations_prologue w pool HDB)
    as [(err & _ & Heq)|[(_ & _ & Heq)|[(entries & err & _ & _ & _ & Heq)
       |[(entries & rows & row & err & _ & _ & _ & _ & _ & Heq)
        |(entries & rows & Hdir & Hsnap)]]]].
  1-4: rewrite Heq in Hrun; injection Hrun as <- <-; simpl; by eexists.
  destruct (RunMigrations_run _ _ _ _ _ _ HDB Hdir Hsnap Hrun)
    as (done & d_done & delta & Hw & _).
  rewrite Hw. simpl. by eexists.
Qed.

(** The snapshot of a database without tracker table is empty. *)
Lemma snapshot_fresh w rows :
  snapshot faults w rows → migrations (database w) = None → rows = [].
Proof.
  intros (_ & Hquery & _) Hfresh.
  apply pg_query_rows in Hquery as (all & Hall & Hpre).
  unfold with_tracker in Hall. rewrite Hfresh in Hall. simpl in Hall.
  injection Hall as <-. by apply prefix_nil_inv.
Qed.

(** C7: with the pool initialised, every run begins with the statement
    that creates the tracker table if it is absent, before the
    directory is listed or a change-set is read.  When the server does
    not refuse that statement and answers the query for the snapshot:
    over a directory without matching files the run returns nil, reads
    and executes no change-set, and leaves the database with the tracker
    table and otherwise as it was; on a fresh database (no tracker
    table) the change-sets are applied to the database with the empty
    tracker table, and the run returns nil when each of them can be
    applied.  When the server refuses the statement, the run returns
    that error and has done nothing else. *)
Theorem empty_directory_and_fresh_database w pool entries :
  DB w = Some pool →
  dirs (filesystem w) !! migrationDir = Some entries →
  (∀ res w', RunMigrations sql_script faults w = (res, w') →
     ∃ delta, trace w' = trace w ++ EvExec createMigrationsTable [] :: delta)
  ∧ (∀ rows,
       snapshot faults w rows →
       collect_sql entries = [] →
       RunMigrations sql_script faults w
       = (None, after w (with_tracker (database w)) run_prologue)
       ∧ is_Some (migrations (with_tracker (database w))))
  ∧ (∀ rows d',
       snapshot faults w rows →
       migrations (database w) = None →
       apply_changesets sql_script faults (filesystem w)
         {| migrations := Some []; schema := schema (database w) |}
         (pending [] entries) = inr d' →
       ∃ delta,
         RunMigrations sql_script faults w
         = (None, after w d' (run_prologue ++ delta))
         ∧ read_paths delta = filepath_Join migrationDir <$> pending [] entries
         ∧ exec_log delta
           = pending [] entries ≫= changeset_execs (filesystem w))
  ∧ (∀ err,
       refuses faults (EvExec createMigrationsTable []) (database w)
       = Some err →
       RunMigrations sql_script faults w
       = (Some ("failed to create migrations table: " +:+ err),
          after w (database w) [EvExec createMigrationsTable []])).
Proof.
  intros HDB Hdir. split_and!.
  - intros res w'. by apply (RunMigrations_creates_first w pool).
  - intros rows Hsnap Hempty. split; [|by eexists].
    by rewrite (RunMigrations_loop _ _ _ _ HDB Hdir Hsnap), Hempty.
  - intros rows d' Hsnap Hfresh Hall.
    pose proof (snapshot_fresh _ _ Hsnap Hfresh) as ->.
    apply (RunMigrations_applies w pool entries [] d' HDB Hdir Hsnap).
    unfold with_tracker. by rewrite Hfresh.
  - intros err Hrefused.
    destruct (RunMigrations_prologue w pool HDB)
      as [(err' & Herr & Heq)|[(Hnone & _)|[(? & ? & Hnone & _)
         |[(? & ? & ? & ? & Hnone & _)|(? & ? & _ & Hnone & _)]]]];
      rewrite Hrefused in *; try done.
    by injection Herr as <-.
Qed.

(** The rest of the pending list is in the snapshot neither before the
    run nor through the change-sets done. *)
Lemma pending_rest_unrecorded rows entries done rest :
  NoDup (Name <$> entries) →
  pending rows entries = done ++ rest →
  ∀ g, g ∈ rest → g ∉ rows ++ done.
Proof.
  intros Hnodup Hplan g Hg.
  pose proof (pending_NoDup rows entries Hnodup) as Hnd.
  rewrite Hplan in Hnd. apply NoDup_app in Hnd as (_ & Hsep & _).
  intros [Hin|Hin]%elem_of_app; [|by apply (Hsep g Hin)].
  assert (g ∈ pending rows entries) as Hpen.
  { rewrite Hplan, elem_of_app. by right. }
  unfold pending in Hpen. by apply list_elem_of_filter in Hpen as [? _].
Qed.

(** When scripts leave the tracker table alone, the tracker holds after
    a failure its old rows and the change-sets done: the failing one has
    no row. *)
Lemma failed_at_tracker fs done f d0 d_done err d' execs all :
  tracker_safe sql_script →
  migrations d0 = Some all →
  apply_changesets sql_script faults fs d0 done = inr d_done →
  failed_at sql_script faults fs f d_done err d' execs →
  migrations d' = Some (all ++ done).
Proof.
  intros Hsafe Hall Happ Hfail.
  pose proof (apply_changesets_tracker _ _ _ _ _ Hsafe Happ Hall) as Hdone.
  destruct Hfail as [Hfile|content e Hfile Hexec|content d1 e Hfile Hexec Hins];
    [done|done|].
  by apply (pg_exec_script_tracker _ _ _ _ Hsafe Hexec).
Qed.

(** C5: a run stops at the first change-set that fails.  When the pending
    list splits into change-sets that apply, the change-set [f] that
    fails (its file cannot be read, or the server rejects its statements
    or its record) and the rest, the run returns the error of [f], which
    carries the name of [f]; the files read and the statements sent are
    those of the change-sets before [f] and of [f] itself as far as it
    got, so that nothing of the rest is read, executed or recorded.
    When scripts leave the tracker table alone, the tracker holds after
    the run its old rows and the change-sets before [f]; neither [f] nor
    one of the rest is among them, when the snapshot was the whole
    tracker and the names of the listing are distinct. *)
Theorem failing_changeset_aborts_the_run
    w pool entries rows done f rest d_done err d' execs :
  DB w = Some pool →
  dirs (filesystem w) !! migrationDir = Some entries →
  snapshot faults w rows →
  pending rows entries = done ++ f :: rest →
  apply_changesets sql_script faults (filesystem w)
    (with_tracker (database w)) done = inr d_done →
  failed_at sql_script faults (filesystem w) f d_done err d' execs →
  let all := default [] (migrations (database w)) in
  (∃ reason,
     err = "failed to read migration file " +:+ f +:+ ": " +:+ reason
     ∨ err = "failed to execute migration " +:+ f +:+ ": " +:+ reason
     ∨ err = "failed to record migration " +:+ f +:+ ": " +:+ reason)
  ∧ contains err f
  ∧ (∃ delta,
       RunMigrations sql_script faults w
       = (Some err, after w d' (run_prologue ++ delta))
       ∧ read_paths delta = filepath_Join migrationDir <$> (done ++ [f])
       ∧ exec_log delta = (done ≫= changeset_execs (filesystem w)) ++ execs
       ∧ execs `prefix_of` changeset_execs (filesystem w) f)
  ∧ (tracker_safe sql_script →
     migrations d' = Some (all ++ done)
     ∧ (rows = all → NoDup (Name <$> entries) →
        ∀ g, g ∈ f :: rest → g ∉ all ++ done)).
Proof.
  intros HDB Hdir Hsnap Hplan Happ Hfail all.
  split; [by eapply failed_at_message|].
  split; [by eapply failed_at_names|].
  split.
  - destruct (RunMigrations_fails w pool entries rows done f rest d_done
                err d' execs) as (delta & Hrun & Hread & Hlog); try done.
    exists delta. split_and!; try done. by eapply failed_at_execs.
  - intros Hsafe. split.
    + by apply (failed_at_tracker (filesystem w) done f
                  (with_tracker (database w)) d_done err d' execs all).
    + intros -> Hnodup. by apply (pending_rest_unrecorded _ entries).
Qed.
(** ** Running twice *)

Lemma with_tracker_id d rows :
  migrations d = Some rows → with_tracker d = d.
Proof. destruct d as [m sch]. simpl. intros ->. done. Qed.

(** Over files that the snapshot holds, the loop only prints. *)
Lemma migrate_files_all_executed pool m sqlFiles w :
  Forall (λ f, executed m f = true) sqlFiles →
  migrate_files sql_script faults pool m sqlFiles w
  = (None, after w (database w) (EvStdout ∘ skipped_line <$> sqlFiles)).
Proof.
  intros Hall. revert w. induction Hall as [|f rest Hf Hrest IH]; intros w.
  - simpl. by rewrite after_nil.
  - simpl. rewrite Hf. unfold fmt_Printf, emit, bind. rewrite IH. f_equal.
    frame.
Qed.

(** The rows of a snapshot are rows of the tracker. *)
Lemma snapshot_rows w rows :
  snapshot faults w rows →
  rows `prefix_of` default [] (migrations (database w)).
Proof.
  intros (_ & Hquery & _).
  apply pg_query_rows in Hquery as (all & Hall & Hpre).
  unfold with_tracker in Hall. simpl in Hall. by injection Hall as <-.
Qed.

(** A run that returns nil has had its listing and its snapshot. *)
Lemma RunMigrations_nil w pool w1 :
  DB w = Some pool →
  RunMigrations sql_script faults w = (None, w1) →
  ∃ entries rows,
    dirs (filesystem w) !! migrationDir = Some entries
    ∧ snapshot faults w rows.
Proof.
  intros HDB Hrun.
  destruct (RunMigrations_prologue w pool HDB)
    as [(err & _ & Heq)|[(_ & _ & Heq)|[(entries & err & _ & _ & _ & Heq)
       |[(entries & rows & row & err & _ & _ & _ & _ & _ & Heq)
        |(entries & rows & Hdir & Hsnap)]]]].
  1-4: by rewrite Heq in Hrun.
  by exists entries, rows.
Qed.

(** C4: after a run that returned nil, a second run over the same
    directory, when no failure intervenes (the server accepts its
    statements and hands over all the rows of the tracker), returns nil,
    leaves the database as the first run left it, reads no change-set
    and sends no statement but the one that creates the tracker table if
    absent: after the prologue it only prints, for each discovered
    change-set, that it is already executed.  The first run has read and
    executed the change-sets that were pending, each of them once, and
    the tracker holds them after it.  Scripts are taken to leave the
    tracker table alone. *)
Theorem second_run_applies_nothing w pool w1 :
  DB w = Some pool →
  tracker_safe sql_script →
  RunMigrations sql_script faults w = (None, w1) →
  snapshot faults w1 (default [] (migrations (database w1))) →
  ∃ entries rows delta1,
    let all := default [] (migrations (database w)) in
    dirs (filesystem w) !! migrationDir = Some entries
    ∧ snapshot faults w rows
    ∧ trace w1 = trace w ++ run_prologue ++ delta1
    ∧ read_paths delta1 = filepath_Join migrationDir <$> pending rows entries
    ∧ exec_log delta1 = pending rows entries ≫= changeset_execs (filesystem w)
    ∧ migrations (database w1) = Some (all ++ pending rows entries)
    ∧ RunMigrations sql_script faults w1
      = (None,
         after w1 (database w1)
           (run_prologue
            ++ (EvStdout ∘ skipped_line <$> sort_Strings (collect_sql entries)))).
Proof.
  intros HDB Hsafe Hrun Hsnap1.
  destruct (RunMigrations_nil _ _ _ HDB Hrun) as (entries & rows & Hdir & Hsnap).
  destruct (RunMigrations_run _ _ _ _ _ _ HDB Hdir Hsnap Hrun)
    as (done & d_done & delta & Hw & Happ & Hplan & Hd & Hread & Hlog).
  subst done d_done.
  pose proof (apply_changesets_tracker _ _ _ _ _ Hsafe Happ eq_refl) as Hrows.
  exists entries, rows, delta. simpl. split; [done|]. split; [done|].
  split; [by rewrite Hw|]. split; [done|]. split; [done|]. split; [done|].
  assert (DB w1 = Some pool) as HDB1 by (by rewrite Hw).
  assert (dirs (filesystem w1) !! migrationDir = Some entries) as Hdir1
    by (by rewrite Hw).
  rewrite (RunMigrations_loop _ _ _ _ HDB1 Hdir1 Hsnap1).
  rewrite (with_tracker_id _ _ Hrows), migrate_files_all_executed.
  - f_equal. frame.
  - apply Forall_forall. intros f Hf. apply executed_load.
    rewrite Hrows. simpl. rewrite elem_of_app.
    destruct (decide (f ∈ rows)) as [Hin|Hout].
    + left. eapply elem_of_prefix; [exact Hin|]. by apply snapshot_rows.
    + right. unfold pending. by apply list_elem_of_filter.
Qed.

(** ** Execution and recording *)


(** ** Seeding and the start of the server *)

(** One run of the seed loop: it executes the files in order and stops at
    the first one that cannot be read or executed. *)
Lemma seed_files_run pool sqlFiles w res w' :
  seed_files sql_script faults pool sqlFiles w = (res, w') →
  ∃ delta,
    w' = after w (database w') delta
    ∧ match res with
      | None => read_paths delta = filepath_Join seedDir <$> sqlFiles
      | Some err =>
          ∃ done f rest,
            sqlFiles = done ++ f :: rest
            ∧ contains err f
            ∧ read_paths delta = filepath_Join seedDir <$> (done ++ [f])
      end.
Proof.
  revert w res w'. induction sqlFiles as [|f rest IH]; intros w res w' Hrun.
  { inversion Hrun; subst. exists []. by rewrite after_nil. }
  simpl in Hrun. run_in Hrun.
  destruct (files (filesystem w) !! filepath_Join seedDir f)
    as [content|] eqn:Hfile; simpl in Hrun.
  2: { inversion Hrun; subst; simpl. eexists [_; _]. split; [frame|].
       exists [], f, rest. split_and!; try done.
       by exists "failed to read seed file ",
         (": " +:+ ReadFile_error (filesystem w) (filepath_Join seedDir f)). }
  destruct (pg_exec sql_script faults content [] (database w)) as [err|d1] eqn:Hexec;
    simpl in Hrun.
  { inversion Hrun; subst; simpl. eexists [_; _; _]. split; [frame|].
    exists [], f, rest. split_and!; try done.
    by exists "failed to execute seed file ", (": " +:+ err). }
  apply IH in Hrun as (delta & Hw & Hres). simpl in *.
  eexists ([_; _; _; _] ++ delta). split; [rewrite Hw at 1; frame|].
  destruct res as [err|].
  - destruct Hres as (done & g & rest' & -> & Hname & Hread).
    exists (f :: done), g, rest'. split_and!; try done.
    simpl. by rewrite Hread.
  - simpl. by rewrite Hres.
Qed.

Lemma seed_and_serve_warns w err w' :
  SeedDatabase sql_script faults w = (Some err, w') →
  seed_and_serve sql_script faults w
  = (Serving ":8080",
     after w' (database w')
       [EvStderr ("Warning: Failed to seed database: " +:+ err +:+ LF)]).
Proof. intros Hseed. unfold seed_and_serve, bind at 1 2. by rewrite Hseed. Qed.

Lemma seed_failed_at_names fs f d err execs :
  seed_failed_at sql_script faults fs f d err execs → contains err f.
Proof.
  intros [Hfile|content e Hfile Hexec].
  - by exists "failed to read seed file ",
      (": " +:+ ReadFile_error fs (filepath_Join seedDir f)).
  - by exists "failed to execute seed file ", (": " +:+ e).
Qed.

(** The seed loop over files of which [f] is the first that fails: those
    before [f] are executed, and none of the rest is touched. *)
Lemma seed_files_fails pool sqlFiles w done f rest d_done err execs :
  sqlFiles = done ++ f :: rest →
  apply_seeds sql_script faults (filesystem w) (database w) done = inr d_done →
  seed_failed_at sql_script faults (filesystem w) f d_done err execs →
  ∃ delta,
    seed_files sql_script faults pool sqlFiles w
    = (Some err, after w d_done delta)
    ∧ read_paths delta = filepath_Join seedDir <$> (done ++ [f])
    ∧ exec_log delta
      = ((λ g, (content_of (filesystem w) seedDir g, [])) <$> done) ++ execs.
Proof.
  intros ->. revert w. induction done as [|g done IH]; intros w; simpl.
  - intros [= <-] Hfail. run.
    destruct Hfail as [Hfile|content e Hfile Hexec]; rewrite Hfile; simpl.
    + eexists [_; _]. split; [f_equal; frame|]. done.
    + rewrite Hexec. simpl. eexists [_; _; _]. split; [f_equal; frame|]. done.
  - destruct (apply_seed sql_script faults (filesystem w) (database w) g)
      as [|d1] eqn:Hone; [done|].
    unfold apply_seed in Hone.
    destruct (files (filesystem w) !! filepath_Join seedDir g)
      as [content|] eqn:Hfile; [|done].
    intros Happ Hfail.
    set (w2 := after w d1
                 [EvStdout ("Executing seed file " +:+ g +:+ LF);
                  EvReadFile (filepath_Join seedDir g);
                  EvExec content [];
                  EvStdout ("Seed file " +:+ g
                            +:+ " executed successfully" +:+ LF)]).
    destruct (IH w2) as (delta & Hrun & Hread & Hlog); try done.
    run. rewrite Hfile. simpl. rewrite Hone. simpl.
    unfold w2, after in Hrun. simpl in Hrun.
    rewrite <- !app_assoc. simpl. rewrite <- !app_assoc in Hrun. simpl in Hrun.
    rewrite Hrun.
    eexists ([_; _; _; _] ++ delta). split; [f_equal; frame|].
    simpl. split.
    + by rewrite Hread.
    + rewrite Hlog. by rewrite (content_of_Some _ _ _ _ Hfile).
Qed.

(** C6: the seed executor stops at the first seed file that fails: when
    the sorted list of the seed files splits into files that the server
    executes, the file [f] that cannot be read or that the server
    rejects, and the rest, [SeedDatabase] returns the error of [f],
    which carries its name, having read and executed the files before
    [f] and nothing of the rest.  [main] only logs that error as a
    warning and goes on to start the server, both when auto-migration is
    off and after a migration run that returned nil.  An error of
    [RunMigrations] instead ends the process through [log.Fatalf] with
    exit status 1, before any seeding. *)
Theorem seeding_fails_soft_migration_fails_hard w w2 :
  let autoMigrate := ToLower (default "" (environ w2 !! "AUTO_MIGRATE")) in
  let enabled :=
    after w2 (database w2)
      [EvStderr ("Auto-migration enabled, running migrations..." +:+ LF)] in
  let disabled :=
    after w2 (database w2)
      [EvStderr ("Auto-migration disabled. Use 'go run cmd/migrate/main.go -up' to run migrations manually." +:+ LF)] in
  (∀ w3 pool entries done f rest d_done err execs,
     DB w3 = Some pool →
     dirs (filesystem w3) !! seedDir = Some entries →
     sort_Strings (collect_sql entries) = done ++ f :: rest →
     apply_seeds sql_script faults (filesystem w3) (database w3) done
     = inr d_done →
     seed_failed_at sql_script faults (filesystem w3) f d_done err execs →
     contains err f
     ∧ ∃ delta,
         SeedDatabase sql_script faults w3
         = (Some err, after w3 d_done (EvReadDir seedDir :: delta))
         ∧ read_paths delta = filepath_Join seedDir <$> (done ++ [f])
         ∧ exec_log delta
           = ((λ g, (content_of (filesystem w3) seedDir g, [])) <$> done)
             ++ execs)
  ∧ (load_and_connect pgxpool_New LoadEnv w = (None, w2) →
     (∀ err w3,
        auto_migrate_enabled autoMigrate = true →
        RunMigrations sql_script faults enabled = (Some err, w3) →
        main sql_script faults pgxpool_New LoadEnv w
        = (Exited 1,
           after w3 (database w3)
             [EvStderr ("Failed to run migrations: " +:+ err +:+ LF)]))
     ∧ (∀ w3 err w4,
          auto_migrate_enabled autoMigrate = true →
          RunMigrations sql_script faults enabled = (None, w3) →
          SeedDatabase sql_script faults w3 = (Some err, w4) →
          main sql_script faults pgxpool_New LoadEnv w
          = (Serving ":8080",
             after w4 (database w4)
               [EvStderr ("Warning: Failed to seed database: " +:+ err +:+ LF)]))
     ∧ (∀ err w4,
          auto_migrate_enabled autoMigrate = false →
          SeedDatabase sql_script faults disabled = (Some err, w4) →
          main sql_script faults pgxpool_New LoadEnv w
          = (Serving ":8080",
             after w4 (database w4)
               [EvStderr ("Warning: Failed to seed database: " +:+ err +:+ LF)]))).
Proof.
  intros autoMigrate enabled disabled. split.
  { intros w3 pool entries done f rest d_done err execs
      HDB Hdir Hsorted Happ Hfail.
    split; [by eapply seed_failed_at_names|].
    set (w3' := after w3 (database w3) [EvReadDir seedDir]).
    destruct (seed_files_fails pool (sort_Strings (collect_sql entries)) w3'
                done f rest d_done err execs) as (delta & Hrun & Hread & Hlog);
      try done.
    exists delta. split; [|done].
    unfold SeedDatabase, os_ReadDir, get_DB, emit, bind, ret.
    rewrite HDB. simpl. rewrite Hdir.
    unfold w3', after in Hrun. simpl in Hrun. rewrite Hrun.
    f_equal. frame. }
  intros Hinit. split_and!.
  - intros err w3 Hon Hrun. unfold main, bind at 1. rewrite Hinit.
    unfold os_Getenv, bind at 1. fold autoMigrate. rewrite Hon.
    unfold log_Println, emit, bind at 1 2.
    unfold enabled, after in Hrun. by rewrite Hrun.
  - intros w3 err w4 Hon Hrun Hseed. unfold main, bind at 1. rewrite Hinit.
    unfold os_Getenv, bind at 1. fold autoMigrate. rewrite Hon.
    unfold log_Println, emit, bind at 1 2.
    unfold enabled, after in Hrun. rewrite Hrun.
    by apply seed_and_serve_warns.
  - intros err w4 Hoff Hseed. unfold main, bind at 1. rewrite Hinit.
    unfold os_Getenv, bind at 1. fold autoMigrate. rewrite Hoff.
    unfold log_Println, emit, bind at 1.
    by apply seed_and_serve_warns.
Qed.

(** ** Force mode *)

(** When the operator does not answer [y] or [Y], force mode prints that
    the migration is cancelled and returns: no statement is sent and the
    database, tracker table included, is as before. *)
Lemma force_denied_runs_nothing w :
  hd "" (stdin w) ≠ "y" → hd "" (stdin w) ≠ "Y" →
  runMigrationsUp sql_script faults true w
  = (Returned,
     after (answered w) (database w) [EvStdout ("Migration cancelled." +:+ LF)]).
Proof.
  intros Hy HY. unfold runMigrationsUp, fmt_Println, fmt_Scanln, emit, bind, ret.
  simpl. rewrite !bool_decide_true by done. simpl.
  unfold after, answered. simpl. by rewrite <- !app_assoc.
Qed.

(** When the operator answers [y] or [Y], force mode goes on with the
    regular [RunMigrations]: what follows the question does not depend on
    the flag. *)
Lemma force_confirmed_is_a_plain_run w :
  hd "" (stdin w) = "y" ∨ hd "" (stdin w) = "Y" →
  runMigrationsUp sql_script faults true w = run_and_report sql_script faults (answered w).
Proof.
  intros Hyes. unfold runMigrationsUp, fmt_Println, fmt_Scanln, emit, bind, ret.
  simpl.
  replace (bool_decide (hd "" (stdin w) ≠ "y") && bool_decide (hd "" (stdin w) ≠ "Y"))
    with false.
  - unfold answered. by rewrite <- !app_assoc.
  - destruct Hyes as [-> | ->]; done.
Qed.

End Properties.

(** C1 on a concrete run, with a server on which nothing goes wrong: [A]
    and [B] are both recorded, the operator starts the tool in force mode
    and answers [y].  The run reads no change-set and sends no statement
    but the one that creates the tracker table if absent; it prints for
    [A] and for [B] that the migration is already executed and leaves the
    database as it was. *)
Theorem force_mode_skips_recorded_changesets :
  let w := Scenario.connected Scenario.ab_fs Scenario.ab_applied_db ["y"] in
  let run := runMigrationsUp Scenario.plain_script Scenario.no_faults true w in
  fst run = Returned
  ∧ database (snd run) = database w
  ∧ read_paths (trace (snd run)) = []
  ∧ exec_log (trace (snd run)) = [(createMigrationsTable, [])]
  ∧ trace (snd run)
    = [EvStdout ("Running migrations..." +:+ LF);
       EvStdout ("⚠️  FORCE MODE: This will run all migrations regardless of history!" +:+ LF);
       EvStdout ("Are you sure? This could cause data loss. (y/N): " +:+ LF);
       EvScanln "y";
       EvExec createMigrationsTable [];
       EvReadDir migrationDir;
       EvQuery selectMigrations;
       EvStdout (skipped_line "A.sql");
       EvStdout (skipped_line "B.sql");
       EvStdout ("✅ Migrations completed successfully!" +:+ LF)].
Proof. vm_compute. done. Qed.
(** * The theorems at work on the scenarios *)

Section Witnesses.

Import Scenario.

Lemma plain_script_is_tracker_safe : tracker_safe plain_script.
Proof.
  intros sql d d' H. unfold plain_script in H.
  case_decide; [done|]. by inversion H.
Qed.

Lemma abc_names_distinct :
  NoDup (Name <$> [entry "C.sql"; entry "A.sql"; entry "B.sql"]).
Proof. apply (bool_decide_unpack _). vm_compute. exact I. Qed.

(** Where nothing goes wrong, the snapshot is the tracker. *)
Lemma no_faults_snapshot (w : @World (list string)) :
  snapshot no_faults w (default [] (migrations (database w))).
Proof. split_and!; [done|done|]. apply Forall_forall. done. Qed.

Lemma uninitialized_pool_is_rejected_witness :
  RunMigrations plain_script no_faults (at_start ∅ ab_fs fresh_db [])
  = (Some "database not initialized", at_start ∅ ab_fs fresh_db [])
  ∧ SeedDatabase plain_script no_faults (at_start ∅ ab_fs fresh_db [])
    = (Some "database not initialized", at_start ∅ ab_fs fresh_db []).
Proof.
  apply (uninitialized_pool_is_rejected plain_script no_faults
           (at_start ∅ ab_fs fresh_db [])).
  reflexivity.
Defined.

(** The three ways of [InitPostgres]: no connection string, one that the
    parser rejects, and one that it accepts, to a host where no server
    listens. *)
Lemma InitPostgres_connection_errors_witness :
  let unset := at_start ∅ ab_fs fresh_db [] in
  let malformed :=
    at_start {[ "DATABASE_URL" := "mysql://localhost" ]} ab_fs fresh_db [] in
  let dsn := "postgres://app@10.255.255.1:5432/users" in
  let unreachable := at_start {[ "DATABASE_URL" := dsn ]} ab_fs fresh_db [] in
  InitPostgres url_pool unset
  = (Some "DATABASE_URL environment variable is not set",
     after unset fresh_db
       [EvStderr ("Connecting to PostgreSQL with DSN: " +:+ LF)])
  ∧ InitPostgres (pgxpool_v5_New url_parser) malformed
    = (Some "failed to connect to PostgreSQL: cannot parse connection string",
       after malformed fresh_db
         [EvStderr ("Connecting to PostgreSQL with DSN: mysql://localhost"
                    +:+ LF);
          EvPoolNew 10 "mysql://localhost"])
  ∧ InitPostgres (pgxpool_v5_New url_parser) unreachable
    = (None,
       {| DB := Some {| pool_dsn := dsn |};
          environ := {[ "DATABASE_URL" := dsn ]};
          stdin := []; filesystem := ab_fs; database := fresh_db;
          trace := [EvStderr ("Connecting to PostgreSQL with DSN: " +:+ dsn
                              +:+ LF);
                    EvPoolNew 10 dsn] |}).
Proof.
  intros unset malformed dsn unreachable. split_and!.
  - apply (proj1 (InitPostgres_connection_errors url_pool url_parser unset)).
    reflexivity.
  - apply (proj1 (proj2 (InitPostgres_connection_errors url_pool url_parser
                           malformed))
             "mysql://localhost" "cannot parse connection string").
    + reflexivity.
    + discriminate.
    + reflexivity.
  - apply (proj2 (proj2 (InitPostgres_connection_errors url_pool url_parser
                           unreachable)) dsn).
    + reflexivity.
    + discriminate.
    + reflexivity.
Defined.

Lemma rollback_is_not_implemented_witness :
  let flags := {| up := false; down := true; force := false; help := false |} in
  let w := at_start {[ "DATABASE_URL" := "postgres://localhost/userdb" ]}
             ab_fs ab_applied_db [] in
  let w1 := snd (InitPostgres url_pool w) in
  migrate_main plain_script no_faults url_pool flags w
  = (Returned, after w1 ab_applied_db (EvStdout <$> rollback_lines))
  ∧ filter is_statement (trace w1 ++ (EvStdout <$> rollback_lines)) = [].
Proof.
  intros flags w w1.
  apply (proj2 (proj2 (rollback_is_not_implemented
                         plain_script no_faults url_pool flags w w1)));
    reflexivity.
Defined.

(** The listing of [ab_fs], and its plan on a fresh database. *)
Lemma changesets_run_in_filename_order_witness :
  let listing := [entry "B.sql"; entry "README.md";
                  {| Name := "old.sql"; IsDir := true |}; entry "A.sql"] in
  let w := connected ab_fs fresh_db [] in
  pending [] listing = ["A.sql"; "B.sql"]
  ∧ StronglySorted str_lt (pending [] listing)
  ∧ ∃ delta,
      RunMigrations plain_script no_faults w
      = (None, after w ab_applied_db (run_prologue ++ delta))
      ∧ read_paths delta = ["migrations/A.sql"; "migrations/B.sql"]
      ∧ exec_log delta
        = [("CREATE TABLE a();", []); (insertMigration, ["A.sql"]);
           ("CREATE TABLE b();", []); (insertMigration, ["B.sql"])].
Proof.
  intros listing w.
  destruct (changesets_run_in_filename_order plain_script no_faults w the_pool
              listing [] eq_refl eq_refl (no_faults_snapshot w))
    as (_ & Hstrict & _ & Hall & _).
  split; [by vm_compute|]. split.
  - apply Hstrict. apply (bool_decide_unpack _). vm_compute. exact I.
  - destruct (Hall ab_applied_db) as (delta & Hrun & Hread & Hlog);
      [by vm_compute|].
    exists delta. split_and!; [exact Hrun|exact Hread|exact Hlog].
Defined.

Lemma empty_directory_and_fresh_database_witness :
  let w := connected empty_fs fresh_db [] in
  let w_ab := connected ab_fs fresh_db [] in
  (RunMigrations plain_script no_faults w
   = (None, after w {| migrations := Some []; schema := [] |} run_prologue)
   ∧ is_Some (migrations (with_tracker (database w))))
  ∧ (∃ delta,
       RunMigrations plain_script no_faults w_ab
       = (None, after w_ab ab_applied_db (run_prologue ++ delta))
       ∧ read_paths delta = ["migrations/A.sql"; "migrations/B.sql"]
       ∧ exec_log delta
         = [("CREATE TABLE a();", []); (insertMigration, ["A.sql"]);
            ("CREATE TABLE b();", []); (insertMigration, ["B.sql"])])
  ∧ RunMigrations plain_script no_create w
    = (Some "failed to create migrations table: permission denied for schema public",
       after w fresh_db [EvExec createMigrationsTable []]).
Proof.
  intros w w_ab. split; [|split].
  - apply (proj1 (proj2 (empty_directory_and_fresh_database plain_script
                           no_faults w the_pool []
                           (eq_refl : DB w = Some the_pool) eq_refl)) []).
    + exact (no_faults_snapshot w).
    + reflexivity.
  - destruct (proj1 (proj2 (proj2 (empty_directory_and_fresh_database
                                     plain_script no_faults w_ab the_pool
                                     [entry "B.sql"; entry "README.md";
                                      {| Name := "old.sql"; IsDir := true |};
                                      entry "A.sql"]
                                     (eq_refl : DB w_ab = Some the_pool)
                                     eq_refl))) [] ab_applied_db)
      as (delta & Hrun & Hread & Hlog).
    + exact (no_faults_snapshot w_ab).
    + reflexivity.
    + vm_compute. reflexivity.
    + exists delta. split_and!; [exact Hrun|exact Hread|exact Hlog].
  - apply (proj2 (proj2 (proj2 (empty_directory_and_fresh_database plain_script
                                  no_create w the_pool []
                                  (eq_refl : DB w = Some the_pool) eq_refl)))).
    reflexivity.
Defined.

(** C5, the claim as it stands, fails on a change-set that writes a row
    of the tracker itself: [B] is invalid and the run stops there with
    the error that names [B], but [C], which was never executed, is
    recorded. *)
Lemma failing_run_counterexample :
  let w := connected meddling_fs fresh_db [] in
  let run := RunMigrations recording_script no_faults w in
  fst run
  = Some "failed to execute migration B.sql: syntax error at or near ;"
  ∧ migrations (database (snd run)) = Some ["C.sql"; "A.sql"]
  ∧ read_paths (trace (snd run)) = ["migrations/A.sql"; "migrations/B.sql"]
  ∧ ¬ (∀ g, g ∈ ["B.sql"; "C.sql"] →
         g ∉ default [] (migrations (database (snd run)))).
Proof.
  intros w run. split_and!; try reflexivity.
  intros Hnone. apply (Hnone "C.sql"); [set_solver|].
  vm_compute. set_solver.
Qed.

Lemma failing_changeset_aborts_the_run_witness :
  let w := connected abc_fs fresh_db [] in
  let err := "failed to execute migration B.sql: syntax error at or near ;" in
  let d_done := {| migrations := Some ["A.sql"];
                   schema := ["CREATE TABLE a();"] |} in
  (∃ reason,
     err = "failed to read migration file " +:+ "B.sql" +:+ ": " +:+ reason
     ∨ err = "failed to execute migration " +:+ "B.sql" +:+ ": " +:+ reason
     ∨ err = "failed to record migration " +:+ "B.sql" +:+ ": " +:+ reason)
  ∧ contains err "B.sql"
  ∧ (∃ delta,
       RunMigrations plain_script no_faults w
       = (Some err, after w d_done (run_prologue ++ delta))
       ∧ read_paths delta
         = filepath_Join migrationDir <$> (["A.sql"] ++ ["B.sql"])
       ∧ exec_log delta
         = (["A.sql"] ≫= changeset_execs abc_fs) ++ [("CREATE TABLE;", [])]
       ∧ [("CREATE TABLE;", [])] `prefix_of` changeset_execs abc_fs "B.sql")
  ∧ migrations d_done = Some ([] ++ ["A.sql"])
  ∧ ∀ g, g ∈ ["B.sql"; "C.sql"] → g ∉ [] ++ ["A.sql"].
Proof.
  intros w err d_done.
  destruct (failing_changeset_aborts_the_run plain_script no_faults w the_pool
              [entry "C.sql"; entry "A.sql"; entry "B.sql"] []
              ["A.sql"] "B.sql" ["C.sql"] d_done err d_done
              [("CREATE TABLE;", [])])
    as (Hmessage & Hname & Hrun & Htracker).
  - reflexivity.
  - reflexivity.
  - exact (no_faults_snapshot w).
  - vm_compute. reflexivity.
  - vm_compute. reflexivity.
  - apply (failed_execute plain_script no_faults abc_fs "B.sql" d_done
             "CREATE TABLE;" "syntax error at or near ;"); reflexivity.
  - destruct (Htracker plain_script_is_tracker_safe) as [Hrows Hrest].
    split_and!; [exact Hmessage|exact Hname|exact Hrun|exact Hrows|].
    exact (Hrest eq_refl abc_names_distinct).
Defined.

(** C4, the claim as it stands, fails on a change-set that empties the
    tracker table: both runs return nil, and the second run executes the
    first change-set once more. *)
Lemma second_run_counterexample :
  let w := connected delete_fs fresh_db [] in
  let first := RunMigrations deleting_script no_faults w in
  let second := RunMigrations deleting_script no_faults (snd first) in
  fst first = None
  ∧ fst second = None
  ∧ exec_log (trace (snd first))
    = [(createMigrationsTable, []);
       ("INSERT INTO notes DEFAULT VALUES;", []);
       (insertMigration, ["001_a.sql"]);
       ("DELETE FROM migrations;", []);
       (insertMigration, ["002_del.sql"])]
  ∧ exec_log (drop (length (trace (snd first))) (trace (snd second)))
    = [(createMigrationsTable, []);
       ("INSERT INTO notes DEFAULT VALUES;", []);
       (insertMigration, ["001_a.sql"])]
  ∧ schema (database (snd second))
    = ["INSERT INTO notes DEFAULT VALUES;"; "DELETE FROM migrations;";
       "INSERT INTO notes DEFAULT VALUES;"].
Proof. vm_compute. done. Qed.

Lemma second_run_applies_nothing_witness :
  let w := connected ab_fs fresh_db [] in
  let w1 := snd (RunMigrations plain_script no_faults w) in
  ∃ entries rows delta1,
    dirs ab_fs !! migrationDir = Some entries
    ∧ snapshot no_faults w rows
    ∧ trace w1 = trace w ++ run_prologue ++ delta1
    ∧ read_paths delta1 = filepath_Join migrationDir <$> pending rows entries
    ∧ exec_log delta1 = pending rows entries ≫= changeset_execs ab_fs
    ∧ migrations (database w1) = Some ([] ++ pending rows entries)
    ∧ RunMigrations plain_script no_faults w1
      = (None,
         after w1 (database w1)
           (run_prologue
            ++ (EvStdout ∘ skipped_line <$> sort_Strings (collect_sql entries)))).
Proof.
  intros w w1.
  apply (second_run_applies_nothing plain_script no_faults w the_pool w1).
  - reflexivity.
  - exact plain_script_is_tracker_safe.
  - vm_compute. reflexivity.
  - exact (no_faults_snapshot w1).
Defined.




Lemma seeding_fails_soft_migration_fails_hard_witness :
  let w := at_start {[ "DATABASE_URL" := "postgres://localhost/userdb";
                       "AUTO_MIGRATE" := "TRUE" ]} seed_fs fresh_db [] in
  let w2 := snd (load_and_connect url_pool no_env_file w) in
  let enabled :=
    after w2 (database w2)
      [EvStderr ("Auto-migration enabled, running migrations..." +:+ LF)] in
  let w3 := snd (RunMigrations plain_script no_faults enabled) in
  let w4 := snd (SeedDatabase plain_script no_faults w3) in
  let err := "failed to execute seed file a.sql: syntax error at or near ;" in
  (contains err "a.sql"
   ∧ ∃ delta,
       SeedDatabase plain_script no_faults w3
       = (Some err, after w3 (database w3) (EvReadDir seedDir :: delta))
       ∧ read_paths delta = filepath_Join seedDir <$> ([] ++ ["a.sql"])
       ∧ exec_log delta = [] ++ [("CREATE TABLE;", [])])
  ∧ main plain_script no_faults url_pool no_env_file w
    = (Serving ":8080",
       after w4 (database w4)
         [EvStderr ("Warning: Failed to seed database: " +:+ err +:+ LF)]).
Proof.
  intros w w2 enabled w3 w4 err. split.
  - apply (proj1 (seeding_fails_soft_migration_fails_hard
                    plain_script no_faults url_pool no_env_file w w2)
             w3 the_pool [entry "a.sql"; entry "b.sql"]
             [] "a.sql" ["b.sql"] (database w3) err [("CREATE TABLE;", [])]).
    + reflexivity.
    + reflexivity.
    + vm_compute. reflexivity.
    + reflexivity.
    + apply (seed_failed_execute plain_script no_faults seed_fs "a.sql"
               (database w3) "CREATE TABLE;" "syntax error at or near ;");
        reflexivity.
  - apply (proj1 (proj2 (proj2 (seeding_fails_soft_migration_fails_hard
                                  plain_script no_faults url_pool no_env_file
                                  w w2)
                           eq_refl))
             w3 err w4);
      reflexivity.
Defined.

End Witnesses.

(** * Further properties of the code *)

(** ** Strings *)

Lemma app_nil_string (s : string) : "" +:+ s = s.
Proof. reflexivity. Qed.

Lemma app_cons_string c (s t : string) : String c s +:+ t = String c (s +:+ t).
Proof. reflexivity. Qed.

Lemma app_string_nil (s : string) : s +:+ "" = s.
Proof. induction s as [|c s IH]; [done|]. by rewrite app_cons_string, IH. Qed.

Lemma app_string_assoc (a b c : string) : (a +:+ b) +:+ c = a +:+ (b +:+ c).
Proof.
  induction a as [|x a IH]; [done|]. by rewrite !app_cons_string, IH.
Qed.

Lemma length_app_string (a b : string) :
  String.length (a +:+ b) = (String.length a + String.length b)%nat.
Proof.
  induction a as [|x a IH]; [done|]. rewrite app_cons_string. simpl.
  by rewrite IH.
Qed.

Lemma substring_all (s : string) : String.substring 0 (String.length s) s = s.
Proof. induction s as [|c s IH]; [done|]. simpl. by rewrite IH. Qed.

Lemma substring_skip_app (a b : string) m :
  String.substring (String.length a) m (a +:+ b) = String.substring 0 m b.
Proof. induction a as [|x a IH]; [done|]. by rewrite app_cons_string. Qed.

Lemma substring_split n (s : string) :
  (n ≤ String.length s)%nat →
  s = String.substring 0 n s
      +:+ String.substring n (String.length s - n) s.
Proof.
  revert s. induction n as [|n IH]; intros s Hn.
  - rewrite Nat.sub_0_r, substring_all. by destruct s.
  - destruct s as [|c s]; simpl in *; [lia|].
    rewrite app_cons_string. f_equal. apply IH. lia.
Qed.

(** [strings.HasSuffix] holds of the strings that end in the suffix. *)
Lemma HasSuffix_spec (s suffix : string) :
  HasSuffix s suffix = true ↔ ∃ stem, s = stem +:+ suffix.
Proof.
  unfold HasSuffix. rewrite andb_true_iff, Nat.leb_le, String.eqb_eq. split.
  - intros [Hlen Hsub].
    exists (String.substring 0 (String.length s - String.length suffix) s).
    pose proof (substring_split (String.length s - String.length suffix) s)
      as Hsplit.
    replace (String.length s - (String.length s - String.length suffix))%nat
      with (String.length suffix) in Hsplit by lia.
    rewrite Hsub in Hsplit. apply Hsplit. lia.
  - intros [stem ->]. rewrite length_app_string. split; [lia|].
    replace (String.length stem + String.length suffix - String.length suffix)%nat
      with (String.length stem) by lia.
    by rewrite substring_skip_app, substring_all.
Qed.

(** ** File discovery *)

(** X6: the files that [RunMigrations] and [SeedDatabase] discover in a
    listing are the entries that are no directories and whose name ends
    in [.sql], and nothing else; they come in the increasing order of
    their names.  A directory called [x.sql] is left out, a file called
    [.sql] is kept. *)
Theorem discovery_keeps_the_sql_files (entries : list DirEntry) :
  StronglySorted str_le (sort_Strings (collect_sql entries))
  ∧ ∀ f, f ∈ sort_Strings (collect_sql entries)
         ↔ ∃ e stem, e ∈ entries ∧ Name e = f ∧ IsDir e = false
                     ∧ f = stem +:+ ".sql".
Proof.
  split; [apply sort_Strings_sorted|]. intros f.
  rewrite sort_Strings_perm, collect_sql_filter, list_elem_of_fmap. split.
  - intros (e & -> & [Hkeep He]%list_elem_of_filter).
    apply Is_true_true, andb_true_iff in Hkeep as [Hdir Hsuffix].
    apply HasSuffix_spec in Hsuffix as [stem Hstem].
    exists e, stem. split_and!; try done. by destruct (IsDir e).
  - intros (e & stem & He & <- & Hdir & Hstem). exists e. split; [done|].
    apply list_elem_of_filter. split; [|done].
    apply Is_true_true, andb_true_iff. split; [by rewrite Hdir|].
    apply HasSuffix_spec. by exists stem.
Qed.

(** ** Strings, for the reader of the [.env] file *)

Lemma rev_app_string (s acc : string) :
  String.rev_app s acc = String.rev s +:+ acc.
Proof.
  unfold String.rev. revert acc.
  induction s as [|c s IH]; intros acc; [done|]. simpl.
  rewrite (IH (String c acc)), (IH (String c "")).
  by rewrite app_string_assoc.
Qed.

Lemma rev_cons_string c (s : string) :
  String.rev (String c s) = String.rev s +:+ String c "".
Proof. unfold String.rev at 1. simpl. apply rev_app_string. Qed.

Lemma rev_snoc_string (s : string) c :
  String.rev (s +:+ String c "") = String c (String.rev s).
Proof.
  induction s as [|x s IH]; [done|].
  rewrite app_cons_string, !rev_cons_string, IH. done.
Qed.

Lemma rev_rev_string (s : string) : String.rev (String.rev s) = s.
Proof.
  induction s as [|c s IH]; [done|].
  by rewrite rev_cons_string, rev_snoc_string, IH.
Qed.

(** A string that is not empty has a last byte. *)
Lemma string_last (s : string) :
  s ≠ "" → ∃ t c, s = t +:+ String c "".
Proof.
  induction s as [|x s IH]; [done|]. intros _.
  destruct s as [|y s].
  - by exists "", x.
  - destruct IH as (t & c & Ht); [done|]. exists (String x t), c.
    by rewrite app_cons_string, <- Ht.
Qed.

Lemma app_snoc_inj (x y : string) a b :
  x +:+ String a "" = y +:+ String b "" → x = y ∧ a = b.
Proof.
  revert y. induction x as [|c x IH]; intros [|d y] Heq.
  - by inversion Heq.
  - rewrite app_cons_string in Heq. simpl in Heq. inversion Heq as [[Hc Hy]].
    by destruct y.
  - rewrite app_cons_string in Heq. simpl in Heq. inversion Heq as [[Hc Hx]].
    by destruct x.
  - rewrite !app_cons_string in Heq. inversion Heq as [[Hc Hxy]].
    destruct (IH _ Hxy) as [-> ->]. done.
Qed.

Lemma trim_left_printable c (s : string) :
  env.printable c → env.trim_left (String c s) = String c s.
Proof.
  unfold env.printable. intros Hc. simpl.
  assert (env.is_ascii_space c = false) as ->.
  { unfold env.is_ascii_space.
    destruct (Nat.leb_spec 9 (Ascii.nat_of_ascii c));
      destruct (Nat.leb_spec (Ascii.nat_of_ascii c) 13);
      destruct (Nat.eqb_spec (Ascii.nat_of_ascii c) 32); simpl; try done; lia. }
  destruct s as [|c2 s2]; [done|].
  assert (env.is_space2 c c2 = false) as ->.
  { unfold env.is_space2.
    destruct (Nat.eqb_spec (Ascii.nat_of_ascii c) 194); [lia|done]. }
  destruct s2 as [|c3 s3]; [done|].
  assert (env.is_space3 c c2 c3 = false) as ->; [|done].
  unfold env.is_space3.
  destruct (Nat.eqb_spec (Ascii.nat_of_ascii c) 225); [lia|].
  destruct (Nat.eqb_spec (Ascii.nat_of_ascii c) 226); [lia|].
  destruct (Nat.eqb_spec (Ascii.nat_of_ascii c) 227); [lia|]. done.
Qed.

Lemma trim_reversed_printable c (r : string) :
  env.printable c → env.trim_reversed (String c r) = String c r.
Proof.
  unfold env.printable. intros Hc. simpl.
  assert (env.is_ascii_space c = false) as ->.
  { unfold env.is_ascii_space.
    destruct (Nat.leb_spec 9 (Ascii.nat_of_ascii c));
      destruct (Nat.leb_spec (Ascii.nat_of_ascii c) 13);
      destruct (Nat.eqb_spec (Ascii.nat_of_ascii c) 32); simpl; try done; lia. }
  destruct r as [|c2 r2]; [done|].
  assert (env.is_space2 c2 c = false) as ->.
  { unfold env.is_space2.
    destruct (Nat.eqb_spec (Ascii.nat_of_ascii c) 133); [lia|].
    destruct (Nat.eqb_spec (Ascii.nat_of_ascii c) 160); [lia|].
    simpl. apply andb_false_r. }
  destruct r2 as [|c3 r3]; [done|].
  assert (env.is_space3 c3 c2 c = false) as ->; [|done].
  unfold env.is_space3.
  destruct (Nat.eqb_spec (Ascii.nat_of_ascii c) 128); [lia|].
  destruct (Nat.eqb_spec (Ascii.nat_of_ascii c) 159); [lia|].
  destruct (Nat.eqb_spec (Ascii.nat_of_ascii c) 168); [lia|].
  destruct (Nat.eqb_spec (Ascii.nat_of_ascii c) 169); [lia|].
  destruct (Nat.eqb_spec (Ascii.nat_of_ascii c) 175); [lia|].
  destruct (Nat.leb_spec 128 (Ascii.nat_of_ascii c)); [lia|].
  simpl. rewrite !andb_false_r. done.
Qed.

(** [strings.TrimSpace] leaves a string as it is when its first and its
    last byte are printable. *)
Lemma TrimSpace_printable c1 (s1 t : string) c2 :
  String c1 s1 = t +:+ String c2 "" →
  env.printable c1 → env.printable c2 →
  env.TrimSpace (String c1 s1) = String c1 s1.
Proof.
  intros Hlast H1 H2. unfold env.TrimSpace.
  rewrite trim_left_printable by done.
  rewrite Hlast, rev_snoc_string, trim_reversed_printable by done.
  by rewrite <- rev_snoc_string, rev_rev_string.
Qed.

Lemma has_byte_app c (a b : string) :
  env.has_byte c (a +:+ b) = env.has_byte c a || env.has_byte c b.
Proof.
  induction a as [|x a IH]; [done|]. rewrite ?app_cons_string. simpl.
  by rewrite IH, orb_assoc.
Qed.

Lemma all_bytes_has_byte (p : Ascii.ascii → bool) c (s : string) :
  env.all_bytes p s = true → p c = false → env.has_byte c s = false.
Proof.
  intros Hall Hc. induction s as [|x s IH]; [done|]. simpl in *.
  apply andb_true_iff in Hall as [Hx Hs]. rewrite (IH Hs), orb_false_r.
  apply bool_decide_eq_false. intros ->. congruence.
Qed.

Lemma all_bytes_last (p : Ascii.ascii → bool) (t : string) c :
  env.all_bytes p (t +:+ String c "") = true → p c = true.
Proof.
  induction t as [|x t IH]; simpl.
  - by intros [? _]%andb_true_iff.
  - rewrite ?app_cons_string. simpl. intros [_ ?]%andb_true_iff. auto.
Qed.

Lemma key_byte_printable c : env.key_byte c = true → env.printable c.
Proof.
  unfold env.key_byte, env.printable.
  intros [[H1 H2]%andb_true_iff _]%andb_true_iff.
  apply Nat.leb_le in H1, H2. lia.
Qed.

(** The text before the first separator. *)
Lemma cut_first sep (key rest : string) :
  env.has_byte sep key = false →
  env.cut sep (key +:+ String sep rest) = Some (key, rest).
Proof.
  induction key as [|c key IH]; simpl.
  - intros _. rewrite ?app_nil_string. simpl. by rewrite decide_True.
  - intros [Hc Hkey]%orb_false_iff. rewrite ?app_cons_string. simpl.
    apply bool_decide_eq_false in Hc. rewrite decide_False by done.
    by rewrite (IH Hkey).
Qed.

Lemma cut_first_app sep (key rest : string) :
  env.has_byte sep key = false →
  env.cut sep (key +:+ String sep "" +:+ rest) = Some (key, rest).
Proof. apply cut_first. Qed.

Lemma cut_none sep (s : string) :
  env.has_byte sep s = false → env.cut sep s = None.
Proof.
  induction s as [|c s IH]; [done|]. simpl.
  intros [Hc Hs]%orb_false_iff. apply bool_decide_eq_false in Hc.
  rewrite decide_False by done. by rewrite (IH Hs).
Qed.

Lemma substring_prefix (a b : string) :
  String.substring 0 (String.length a) (a +:+ b) = a.
Proof.
  induction a as [|x a IH]; simpl.
  - by destruct b.
  - rewrite ?app_cons_string. by rewrite IH.
Qed.

Lemma HasPrefix_app (p s : string) : env.HasPrefix (p +:+ s) p = true.
Proof.
  unfold env.HasPrefix. rewrite length_app_string, substring_prefix.
  rewrite String.eqb_refl, andb_true_r. apply Nat.leb_le. lia.
Qed.

Lemma HasSuffix_app (s suffix : string) : HasSuffix (s +:+ suffix) suffix = true.
Proof. apply HasSuffix_spec. by exists s. Qed.

Lemma HasPrefix_first c (s : string) d :
  c ≠ d → env.HasPrefix (String c s) (String d "") = false.
Proof.
  intros Hne. unfold env.HasPrefix. simpl.
  destruct s; simpl; apply Ascii.eqb_neq in Hne; by rewrite Hne.
Qed.

(** The quotes around a value are taken off, whatever is between them. *)
Lemma unquote_quoted (quote value : string) :
  quote = env.DQUOTE ∨ quote = env.SQUOTE →
  env.unquote (quote +:+ value +:+ quote) = value.
Proof.
  intros Hq. unfold env.unquote.
  assert (String.length (quote +:+ value +:+ quote)
          = S (S (String.length value))) as Hlen.
  { rewrite !length_app_string. destruct Hq as [-> | ->]; simpl; lia. }
  assert (env.HasPrefix (quote +:+ value +:+ quote) quote = true) as Hpre
    by apply HasPrefix_app.
  assert (HasSuffix (quote +:+ value +:+ quote) quote = true) as Hsuf.
  { rewrite <- app_string_assoc. apply HasSuffix_app. }
  assert (String.substring 1 (String.length value) (quote +:+ value +:+ quote)
          = value) as Hsub.
  { destruct Hq as [-> | ->]; apply substring_prefix. }
  rewrite Hlen. simpl. rewrite Nat.sub_0_r, Hsub.
  destruct Hq as [-> | ->]; rewrite Hpre, Hsuf; simpl;
    by rewrite ?orb_true_r.
Qed.

(** [dropCR] keeps a line that does not end in a carriage return. *)
Lemma dropCR_other (t : string) c :
  c ≠ Ascii.ascii_of_nat 13 →
  env.dropCR (t +:+ String c "") = t +:+ String c "".
Proof.
  intros Hc. unfold env.dropCR.
  destruct (HasSuffix (t +:+ String c "") (env.char 13)) eqn:Hsuffix; [|done].
  apply HasSuffix_spec in Hsuffix as [stem Hstem].
  apply app_snoc_inj in Hstem as [_ ->]. done.
Qed.

(** The scanner cuts a line off at its line feed. *)
Lemma raw_lines_line (line rest current : string) :
  env.has_byte (Ascii.ascii_of_nat 10) line = false →
  env.raw_lines (line +:+ LF +:+ rest) current
  = (current +:+ line) :: env.raw_lines rest "".
Proof.
  revert current. induction line as [|c line IH]; intros current; simpl.
  - intros _. rewrite ?app_nil_string. simpl. by rewrite app_string_nil.
  - intros [Hc Hline]%orb_false_iff. apply bool_decide_eq_false in Hc.
    rewrite ?app_cons_string. simpl. rewrite decide_False by done.
    rewrite (IH _ Hline). f_equal.
    by rewrite app_string_assoc.
Qed.

Lemma raw_lines_unlines (lines : list string) (rest : string) :
  Forall (λ line, env.has_byte (Ascii.ascii_of_nat 10) line = false) lines →
  env.raw_lines (env.unlines lines +:+ rest) ""
  = lines ++ env.raw_lines rest "".
Proof.
  induction 1 as [|line lines Hline Hlines IH]; [done|]. simpl.
  rewrite !app_string_assoc, raw_lines_line by done.
  by rewrite IH.
Qed.

(** The tokens of the lines that the buffer holds. *)
Lemma scan_fits (lines : list string) :
  Forall env.fits lines → env.scan lines = (env.dropCR <$> lines, None).
Proof.
  induction 1 as [|line lines Hline Hlines IH]; [done|]. simpl.
  unfold env.fits in Hline. apply N.leb_gt in Hline.
  by rewrite Hline, IH.
Qed.

(** The scanner stops at the first line that the buffer does not hold. *)
Lemma scan_too_long (lines : list string) (long : string) (rest : list string) :
  Forall env.fits lines → ¬ env.fits long →
  env.scan (lines ++ long :: rest)
  = (env.dropCR <$> lines, Some env.ErrTooLong).
Proof.
  intros Hlines Hlong.
  induction Hlines as [|line lines Hline Hlines IH]; simpl.
  - unfold env.fits in Hlong. apply N.nlt_ge, N.leb_le in Hlong.
    by rewrite Hlong.
  - unfold env.fits in Hline. apply N.leb_gt in Hline.
    by rewrite Hline, IH.
Qed.

Lemma quote_printable (quote : string) :
  quote = env.DQUOTE ∨ quote = env.SQUOTE →
  ∃ q, quote = String q "" ∧ env.printable q
       ∧ q ≠ Ascii.ascii_of_nat 13 ∧ q ≠ Ascii.ascii_of_nat 10.
Proof.
  intros [-> | ->]; eexists; (split; [reflexivity|]);
    (split; [unfold env.printable; vm_compute; lia|split; discriminate]).
Qed.

Lemma plain_key_first (key : string) :
  env.plain_key key = true →
  ∃ c rest, key = String c rest ∧ env.printable c
            ∧ c ≠ Ascii.ascii_of_nat 35
            ∧ env.all_bytes env.key_byte key = true.
Proof.
  destruct key as [|c rest]; [done|]. unfold env.plain_key.
  intros [Hhash Hall]%andb_true_iff. exists c, rest. split_and!; try done.
  - apply key_byte_printable. simpl in Hall.
    by apply andb_true_iff in Hall as [? _].
  - intros ->. by vm_compute in Hhash.
Qed.

(** [strings.TrimSpace] leaves a key of printable bytes as it is. *)
Lemma TrimSpace_key (key : string) :
  env.plain_key key = true → env.TrimSpace key = key.
Proof.
  intros Hkey.
  destruct (plain_key_first _ Hkey) as (c & rest & -> & Hc & _ & Hall).
  destruct (string_last (String c rest)) as (t & c2 & Hlast); [done|].
  eapply TrimSpace_printable; [exact Hlast|done|].
  apply key_byte_printable. rewrite Hlast in Hall.
  by eapply all_bytes_last.
Qed.

(** And a text of which the first byte is printable and the last one a
    quote. *)
Lemma TrimSpace_quoted_end c (s quote : string) :
  quote = env.DQUOTE ∨ quote = env.SQUOTE →
  env.printable c →
  env.TrimSpace (String c s +:+ quote) = String c s +:+ quote.
Proof.
  intros Hq Hc. destruct (quote_printable _ Hq) as (q & -> & Hprint & _).
  rewrite app_cons_string.
  eapply (TrimSpace_printable c (s +:+ String q "") (String c s) q);
    try done.
Qed.

Lemma setenv_accepts_plain (key value : string) :
  env.plain_key key = true → env.line_value value = true →
  env.setenv_accepts key value = true.
Proof.
  intros Hkey Hvalue.
  destruct (plain_key_first _ Hkey) as (c & rest & -> & _ & _ & Hall).
  unfold env.line_value in Hvalue.
  apply andb_true_iff in Hvalue as [_ Hnul].
  unfold env.setenv_accepts.
  rewrite (all_bytes_has_byte _ _ _ Hall) by done.
  rewrite (all_bytes_has_byte _ _ _ Hall) by done.
  by rewrite Hnul.
Qed.

Lemma raw_lines_app (a rest current : string) :
  env.has_byte (Ascii.ascii_of_nat 10) a = false →
  env.raw_lines (a +:+ rest) current = env.raw_lines rest (current +:+ a).
Proof.
  revert current. induction a as [|c a IH]; intros current; simpl.
  - intros _. by rewrite ?app_nil_string, app_string_nil.
  - intros [Hc Ha]%orb_false_iff. apply bool_decide_eq_false in Hc.
    rewrite ?app_cons_string. simpl. rewrite decide_False by done.
    rewrite (IH _ Ha). by rewrite app_string_assoc.
Qed.

(** The line that is being read when more data follows. *)
Lemma raw_lines_first (rest current : string) :
  current ≠ "" →
  ∃ more tail, env.raw_lines rest current = (current +:+ more) :: tail.
Proof.
  revert current. induction rest as [|c rest IH]; intros current Hcur; simpl.
  - exists "", []. apply String.eqb_neq in Hcur. rewrite Hcur.
    by rewrite app_string_nil.
  - case_decide.
    + exists "", (env.raw_lines rest ""). by rewrite app_string_nil.
    + destruct (IH (current +:+ String c "")) as (more & tail & ->).
      { by destruct current. }
      exists (String c more), tail. by rewrite app_string_assoc.
Qed.
Lemma filter_all {A} (P : A → Prop) `{∀ x, Decision (P x)} (l : list A) :
  Forall P l → filter P l = l.
Proof.
  induction 1 as [|x l Hx Hl IH]; [done|].
  by rewrite filter_cons_True, IH.
Qed.

Lemma filter_none {A} (P : A → Prop) `{∀ x, Decision (P x)} (l : list A) :
  Forall (λ x, ¬ P x) l → filter P l = [].
Proof.
  induction 1 as [|x l Hx Hl IH]; [done|].
  by rewrite filter_cons_False.
Qed.

(** Once the change-sets [done] are recorded, the rest of the plan is what
    is pending. *)
Lemma pending_after_done rows entries done rest :
  NoDup (Name <$> entries) →
  pending rows entries = done ++ rest →
  pending (rows ++ done) entries = rest.
Proof.
  intros Hnodup Hplan.
  pose proof (pending_NoDup rows entries Hnodup) as Hnd.
  assert (pending (rows ++ done) entries
          = filter (λ f, f ∉ done) (pending rows entries)) as ->.
  { unfold pending. rewrite list_filter_filter. apply list_filter_iff.
    intros f. rewrite elem_of_app. tauto. }
  rewrite Hplan in *. apply NoDup_app in Hnd as (_ & Hsep & _).
  rewrite filter_app, filter_none, filter_all; [done| |].
  - apply Forall_forall. intros x Hx Hin. by apply (Hsep x Hin).
  - apply Forall_forall. tauto.
Qed.

Lemma filter_statement_cons e (l : list Event) :
  filter is_statement (e :: l)
  = if is_statement e then e :: filter is_statement l
    else filter is_statement l.
Proof.
  rewrite filter_cons. destruct (is_statement e); by case_decide.
Qed.

Section Extras.

#[local] Set Default Proof Using "Type".

Context {Schema : Type}.
Variable sql_script : string → @Database Schema → string + @Database Schema.
Variable faults : @Faults Schema.
Variable pgxpool_New : Z → string → string + Pool.

Implicit Types (w : @World Schema) (d : @Database Schema).
Implicit Types (fs : FileSystem) (f : string) (res : error).

(** Closes a goal that says which world the program has reached. *)
Ltac reach := unfold after; simpl; rewrite <- ?app_assoc; reflexivity.

(** Unfolds the primitive operations of the monad in a hypothesis. *)
Ltac step_in H :=
  unfold Pool_Exec, Pool_Query, os_ReadFile, os_ReadDir, os_Getenv,
    log_Fatalf, log_Printf, log_Println, println, fmt_Printf, fmt_Println,
    fmt_Scanln, get_DB, set_DB, set_database, emit, bind, ret in H;
  simpl in H.

(** The same in the goal. *)
Ltac step :=
  unfold Pool_Exec, Pool_Query, os_ReadFile, os_ReadDir, os_Getenv,
    log_Fatalf, log_Printf, log_Println, println, fmt_Printf, fmt_Println,
    fmt_Scanln, get_DB, set_DB, set_database, emit, bind, ret;
  simpl.

(** ** More on [RunMigrations] *)

(** X1: when there is nothing at the path [migrations], neither a
    directory nor a file, the run returns the error of the listing, no
    such file or directory, but only after the tracker table has been
    created: on a server that does not refuse that statement the
    database is left with the table, and nothing else has happened. *)
Theorem missing_directory_fails_after_creating_tracker w pool :
  DB w = Some pool →
  refuses faults (EvExec createMigrationsTable []) (database w) = None →
  dirs (filesystem w) !! migrationDir = None →
  files (filesystem w) !! migrationDir = None →
  RunMigrations sql_script faults w
  = (Some "failed to read migrations directory: open migrations: no such file or directory",
     after w (with_tracker (database w))
       [EvExec createMigrationsTable []; EvReadDir migrationDir])
  ∧ is_Some (migrations (with_tracker (database w))).
Proof.
  intros HDB Hcreate Hdir Hfile. split; [|by eexists].
  destruct (RunMigrations_prologue sql_script faults w pool HDB)
    as [(err & Herr & _)|[(_ & _ & Heq)|[(? & ? & _ & Hsome & _)
       |[(? & ? & ? & ? & _ & Hsome & _)|(? & ? & Hsome & _)]]]];
    [by rewrite Hcreate in Herr| |by rewrite Hdir in Hsome..].
  rewrite Heq. unfold ReadDir_error. by rewrite Hfile.
Qed.

(** The snapshot of a run is what the server answers: there is one. *)
Lemma snapshot_unique w rows rows' :
  snapshot faults w rows → snapshot faults w rows' → rows = rows'.
Proof. intros (_ & H1 & _) (_ & H2 & _). congruence. Qed.

(** X2: a run that failed on a change-set is resumed by the next run at
    that change-set.  Both runs are taken to get to their loop with the
    whole tracker as their snapshot, and scripts to leave the tracker
    table alone.  The error of the first run carries the name of the
    change-set [f] it failed on; after it the tracker holds the
    change-sets done before [f]; a later run over the same listing, from
    the database the failed run has left (the files may have been
    repaired meanwhile), reads only [f] and the change-sets after it, in
    that order, and when it returns nil the tracker holds the whole
    plan. *)
Theorem rerun_resumes_at_failed_changeset
    w pool entries err w' w2 res2 w2' :
  DB w = Some pool →
  dirs (filesystem w) !! migrationDir = Some entries →
  NoDup (Name <$> entries) →
  tracker_safe sql_script →
  snapshot faults w (default [] (migrations (database w))) →
  RunMigrations sql_script faults w = (Some err, w') →
  DB w2 = Some pool →
  database w2 = database w' →
  dirs (filesystem w2) !! migrationDir = Some entries →
  snapshot faults w2 (default [] (migrations (database w2))) →
  RunMigrations sql_script faults w2 = (res2, w2') →
  let rows := default [] (migrations (database w)) in
  ∃ done f rest ran delta,
    pending rows entries = done ++ f :: rest
    ∧ (∃ reason,
         err = "failed to read migration file " +:+ f +:+ ": " +:+ reason
         ∨ err = "failed to execute migration " +:+ f +:+ ": " +:+ reason
         ∨ err = "failed to record migration " +:+ f +:+ ": " +:+ reason)
    ∧ migrations (database w2) = Some (rows ++ done)
    ∧ trace w2' = trace w2 ++ run_prologue ++ delta
    ∧ ran `prefix_of` f :: rest
    ∧ read_paths delta = filepath_Join migrationDir <$> ran
    ∧ (res2 = None →
       ran = f :: rest
       ∧ migrations (database w2') = Some (rows ++ done ++ f :: rest)).
Proof.
  intros HDB Hdir Hnodup Hsafe Hsnap Hrun HDB2 Hdb2 Hdir2 Hsnap2 Hrun2 rows.
  destruct (RunMigrations_run _ _ _ _ _ _ _ _ HDB Hdir Hsnap Hrun)
    as (done & d_done & delta & Hw & Happ & f & rest & execs
        & Hplan & Hfail & _).
  fold rows in Hplan.
  pose proof (failed_at_tracker _ _ (filesystem w) done f
                (with_tracker (database w)) d_done err (database w') execs
                rows Hsafe eq_refl Happ Hfail) as Hrows.
  rewrite <- Hdb2 in Hrows.
  rewrite Hrows in Hsnap2. simpl in Hsnap2.
  destruct (RunMigrations_run _ _ _ _ _ _ _ _ HDB2 Hdir2 Hsnap2 Hrun2)
    as (done2 & d_done2 & delta2 & Hw2 & Happ2 & Hres2).
  rewrite (pending_after_done rows entries done (f :: rest) Hnodup Hplan)
    in Hres2.
  exists done, f, rest.
  destruct res2 as [err2|].
  - destruct Hres2 as (g & rest2 & execs2 & Hplan2 & _ & Hread2 & _).
    exists (done2 ++ [g]), delta2. split_and!; try done.
    + by eapply failed_at_message.
    + by rewrite Hw2.
    + rewrite Hplan2. apply prefix_app, prefix_cons, prefix_nil.
  - destruct Hres2 as (Hplan2 & Hd2 & Hread2 & _). subst done2.
    exists (f :: rest), delta2. split_and!; try done.
    + by eapply failed_at_message.
    + by rewrite Hw2.
    + intros _. split; [done|]. rewrite Hd2.
      rewrite (apply_changesets_tracker _ _ (filesystem w2) (f :: rest)
                 (with_tracker (database w2)) d_done2 (rows ++ done)
                 Hsafe Happ2); [by rewrite <- app_assoc|].
      unfold with_tracker. by rewrite Hrows.
Qed.

(** X3: a run only appends to the tracker, and what it appends are the
    change-sets it has applied.  Whatever the outcome of a run, and
    whatever goes wrong on the server, the rows of the tracker are
    afterwards the old rows, in their order, followed by new ones; the
    new ones are a first part of the plan of the run, and the whole plan
    when the run returns nil.  Scripts are taken to leave the tracker
    table alone. *)
Theorem a_run_only_appends_to_the_tracker w pool res w' :
  DB w = Some pool →
  tracker_safe sql_script →
  RunMigrations sql_script faults w = (res, w') →
  ∃ added,
    default [] (migrations (database w'))
    = default [] (migrations (database w)) ++ added
    ∧ (∀ entries rows,
         dirs (filesystem w) !! migrationDir = Some entries →
         snapshot faults w rows →
         added `prefix_of` pending rows entries
         ∧ (res = None → added = pending rows entries))
    ∧ (res = None → is_Some (migrations (database w'))).
Proof.
  intros HDB Hsafe Hrun.
  destruct (RunMigrations_prologue sql_script faults w pool HDB)
    as [(err & _ & Heq)|[(_ & _ & Heq)|[(entries' & err & _ & _ & _ & Heq)
       |[(entries' & rows' & row & err & _ & _ & _ & _ & _ & Heq)
        |(entries' & rows' & Hdir' & Hsnap')]]]].
  1-4: rewrite Heq in Hrun; injection Hrun as <- <-; exists [];
    simpl; rewrite app_nil_r; (split; [done|]);
    (split; [|done]); intros ? ? _ _; (split; [apply prefix_nil|done]).
  destruct (RunMigrations_run _ _ _ _ _ _ _ _ HDB Hdir' Hsnap' Hrun)
    as (done & d_done & delta & Hw & Happ & Hres).
  exists done.
  assert (migrations (database w')
          = Some (default [] (migrations (database w)) ++ done)) as Hrows.
  { destruct res as [err|].
    - destruct Hres as (f & rest & execs & _ & Hfail & _).
      by apply (failed_at_tracker _ _ (filesystem w) done f
                  (with_tracker (database w)) d_done err (database w') execs
                  _ Hsafe eq_refl Happ Hfail).
    - destruct Hres as (_ & -> & _).
      by apply (apply_changesets_tracker _ _ (filesystem w) done
                  (with_tracker (database w)) d_done _ Hsafe Happ). }
  rewrite Hrows. simpl. split; [done|]. split; [|by eexists].
  intros entries rows Hdir Hsnap.
  rewrite Hdir in Hdir'. injection Hdir' as <-.
  rewrite (snapshot_unique _ _ _ Hsnap Hsnap').
  destruct res as [err|].
  - destruct Hres as (f & rest & execs & -> & _). split; [|done].
    by apply prefix_app_r.
  - destruct Hres as (-> & _). done.
Qed.

(** ** More on [SeedDatabase] *)

(** One run of the seed loop, with the statements it sends. *)
Lemma seed_files_plan pool sqlFiles w res w' :
  seed_files sql_script faults pool sqlFiles w = (res, w') →
  ∃ ran delta,
    w' = after w (database w') delta
    ∧ ran `prefix_of` sqlFiles
    ∧ read_paths delta = filepath_Join seedDir <$> ran
    ∧ filter is_statement delta
      `prefix_of` ((λ f, EvExec (content_of (filesystem w) seedDir f) [])
                   <$> sqlFiles)
    ∧ (res = None →
       ran = sqlFiles
       ∧ filter is_statement delta
         = (λ f, EvExec (content_of (filesystem w) seedDir f) []) <$> sqlFiles).
Proof.
  revert w res w'. induction sqlFiles as [|f rest IH]; intros w res w' Hrun.
  { inversion Hrun; subst. exists [], []. by rewrite after_nil. }
  simpl in Hrun. step_in Hrun.
  destruct (files (filesystem w) !! filepath_Join seedDir f)
    as [content|] eqn:Hfile; simpl in Hrun.
  2: { inversion Hrun; subst; simpl. eexists [f], [_; _]. split; [reach|].
       split_and!; try done.
       - apply prefix_cons, prefix_nil.
       - apply prefix_nil. }
  destruct (pg_exec sql_script faults content [] (database w)) as [err|d1] eqn:Hexec;
    simpl in Hrun.
  { inversion Hrun; subst; simpl. eexists [f], [_; _; _]. split; [reach|].
    split_and!; try done.
    - apply prefix_cons, prefix_nil.
    - rewrite (content_of_Some _ _ _ _ Hfile). apply prefix_cons, prefix_nil. }
  apply IH in Hrun as (ran & delta & Hw & Hpre & Hread & Hst & Hall).
  simpl in *.
  eexists (f :: ran), ([_; _; _; _] ++ delta).
  split; [rewrite Hw at 1; reach|]. split_and!.
  - by apply prefix_cons.
  - simpl. by rewrite Hread.
  - simpl. rewrite (content_of_Some _ _ _ _ Hfile). by apply prefix_cons.
  - intros Hnil. destruct (Hall Hnil) as [-> Heq]. split; [done|].
    simpl. rewrite (content_of_Some _ _ _ _ Hfile).
    rewrite !filter_statement_cons. simpl. by rewrite Heq.
Qed.

Lemma SeedDatabase_plan w pool entries res w' :
  DB w = Some pool →
  dirs (filesystem w) !! seedDir = Some entries →
  SeedDatabase sql_script faults w = (res, w') →
  ∃ ran delta,
    w' = after w (database w') (EvReadDir seedDir :: delta)
    ∧ ran `prefix_of` sort_Strings (collect_sql entries)
    ∧ read_paths delta = filepath_Join seedDir <$> ran
    ∧ filter is_statement delta
      `prefix_of` ((λ f, EvExec (content_of (filesystem w) seedDir f) [])
                   <$> sort_Strings (collect_sql entries))
    ∧ (res = None →
       ran = sort_Strings (collect_sql entries)
       ∧ filter is_statement delta
         = (λ f, EvExec (content_of (filesystem w) seedDir f) [])
           <$> sort_Strings (collect_sql entries)).
Proof.
  intros HDB Hdir Hrun. unfold SeedDatabase in Hrun. step_in Hrun.
  rewrite HDB, Hdir in Hrun.
  apply seed_files_plan in Hrun as (ran & delta & Hw & Hrest). simpl in *.
  exists ran, delta. split; [rewrite Hw at 1; reach|]. done.
Qed.

(** X4: seeding goes through the seed files in the increasing order of
    their names and knows no tracker.  The files a run reads are a first
    part of the sorted list of the [.sql] files of [seeds]; the only
    statements it sends are the texts of these files, each without
    arguments and in that order (no query, no record); a run without
    error has sent all of them. *)
Theorem seeds_run_in_filename_order w pool entries res w' :
  DB w = Some pool →
  dirs (filesystem w) !! seedDir = Some entries →
  SeedDatabase sql_script faults w = (res, w') →
  let plan := sort_Strings (collect_sql entries) in
  let statements :=
    (λ f, EvExec (content_of (filesystem w) seedDir f) []) <$> plan in
  StronglySorted str_le plan
  ∧ plan ≡ₚ collect_sql entries
  ∧ ∃ ran delta,
      trace w' = trace w ++ EvReadDir seedDir :: delta
      ∧ ran `prefix_of` plan
      ∧ read_paths delta = filepath_Join seedDir <$> ran
      ∧ filter is_statement delta `prefix_of` statements
      ∧ (res = None → ran = plan ∧ filter is_statement delta = statements).
Proof.
  intros HDB Hdir Hrun plan statements.
  split; [apply sort_Strings_sorted|]. split; [apply sort_Strings_perm|].
  destruct (SeedDatabase_plan _ _ _ _ _ HDB Hdir Hrun)
    as (ran & delta & Hw & Hrest).
  exists ran, delta. split; [by rewrite Hw|]. done.
Qed.

(** X5: seeding is repeated by every run.  After a run of [SeedDatabase]
    that returned nil, a second run starts again at the first seed file:
    the statements it sends are a first part of those of the first run,
    and all of them when it returns nil too. *)
Theorem seeding_is_repeated_by_every_run w pool w1 res w2 :
  DB w = Some pool →
  SeedDatabase sql_script faults w = (None, w1) →
  SeedDatabase sql_script faults w1 = (res, w2) →
  ∃ delta1 delta2,
    trace w1 = trace w ++ EvReadDir seedDir :: delta1
    ∧ trace w2 = trace w1 ++ EvReadDir seedDir :: delta2
    ∧ filter is_statement delta2 `prefix_of` filter is_statement delta1
    ∧ read_paths delta2 `prefix_of` read_paths delta1
    ∧ (res = None →
       filter is_statement delta2 = filter is_statement delta1
       ∧ read_paths delta2 = read_paths delta1).
Proof.
  intros HDB Hrun1 Hrun2.
  destruct (dirs (filesystem w) !! seedDir) as [entries|] eqn:Hdir.
  2: { unfold SeedDatabase in Hrun1. step_in Hrun1.
       by rewrite HDB, Hdir in Hrun1. }
  destruct (SeedDatabase_plan _ _ _ _ _ HDB Hdir Hrun1)
    as (ran1 & delta1 & Hw1 & _ & Hread1 & _ & Hall1).
  destruct (Hall1 eq_refl) as [-> Hst1].
  assert (DB w1 = Some pool) as HDB1 by (by rewrite Hw1).
  assert (dirs (filesystem w1) !! seedDir = Some entries) as Hdir1
    by (by rewrite Hw1).
  destruct (SeedDatabase_plan _ _ _ _ _ HDB1 Hdir1 Hrun2)
    as (ran2 & delta2 & Hw2 & Hpre2 & Hread2 & Hst2 & Hall2).
  assert (filesystem w1 = filesystem w) as Hfs by (by rewrite Hw1).
  rewrite Hfs in Hst2, Hall2.
  exists delta1, delta2. split_and!.
  - by rewrite Hw1.
  - by rewrite Hw2.
  - by rewrite Hst1.
  - rewrite Hread1, Hread2. destruct Hpre2 as [k ->].
    rewrite fmap_app. by apply prefix_app_r.
  - intros Hnil. destruct (Hall2 Hnil) as [-> Heq].
    by rewrite Hst1, Heq, Hread1, Hread2.
Qed.

(** X7: [RunMigrations] and [SeedDatabase] leave the package variable
    [DB], the environment, standard input and the file system as they
    found them: whatever they return, the world differs only in the
    database and in the events added to the trace. *)
Theorem executors_keep_the_process_state w res w' :
  RunMigrations sql_script faults w = (res, w')
  ∨ SeedDatabase sql_script faults w = (res, w') →
  ∃ delta, w' = after w (database w') delta.
Proof.
  intros [Hrun|Hrun].
  - destruct (DB w) as [pool|] eqn:HDB.
    2: { unfold RunMigrations, bind, get_DB in Hrun. rewrite HDB in Hrun.
         inversion Hrun; subst. exists []. by rewrite after_nil. }
    destruct (RunMigrations_prologue sql_script faults w pool HDB)
      as [(err & _ & Heq)|[(_ & _ & Heq)|[(entries & err & _ & _ & _ & Heq)
         |[(entries & rows & row & err & _ & _ & _ & _ & _ & Heq)
          |(entries & rows & Hdir & Hsnap)]]]].
    1-4: rewrite Heq in Hrun; injection Hrun as <- <-; by eexists.
    destruct (RunMigrations_run _ _ _ _ _ _ _ _ HDB Hdir Hsnap Hrun)
      as (done & d_done & delta & Hw & _). by eexists.
  - destruct (DB w) as [pool|] eqn:HDB.
    2: { unfold SeedDatabase, bind, get_DB in Hrun. rewrite HDB in Hrun.
         inversion Hrun; subst. exists []. by rewrite after_nil. }
    destruct (dirs (filesystem w) !! seedDir) as [entries|] eqn:Hdir.
    + destruct (SeedDatabase_plan _ _ _ _ _ HDB Hdir Hrun)
        as (ran & delta & Hw & _). by eexists.
    + unfold SeedDatabase in Hrun. step_in Hrun.
      rewrite HDB, Hdir in Hrun. inversion Hrun; subst; simpl.
      eexists [_]. reach.
Qed.

(** ** More on [InitPostgres] *)

Lemma InitPostgres_success w w1 :
  InitPostgres pgxpool_New w = (None, w1) →
  ∃ dsn pool,
    environ w !! "DATABASE_URL" = Some dsn ∧ dsn ≠ ""
    ∧ pgxpool_New 10 dsn = inr pool
    ∧ w1 = {| DB := Some pool; environ := environ w; stdin := stdin w;
              filesystem := filesystem w; database := database w;
              trace := trace w ++
                [EvStderr ("Connecting to PostgreSQL with DSN: " +:+ dsn
                           +:+ LF);
                 EvPoolNew 10 dsn] |}.
Proof.
  unfold InitPostgres. intros Hrun. step_in Hrun.
  case_decide as Hempty; [done|].
  destruct (environ w !! "DATABASE_URL") as [dsn|] eqn:Hdsn; [|done].
  simpl in *.
  destruct (pgxpool_New 10 dsn) as [err|pool] eqn:Hnew; simpl in Hrun; [done|].
  inversion Hrun; subst. exists dsn, pool. split_and!; try done.
  by rewrite <- app_assoc.
Qed.

(** X8: [InitPostgres] returns nil exactly when [DATABASE_URL] is set to
    a non-empty value that [pgxpool.New] accepts under the ten second
    timeout.  It then stores that pool in [DB], has written the whole
    connection string to standard error, and has changed nothing else. *)
Theorem InitPostgres_succeeds_iff w w1 :
  InitPostgres pgxpool_New w = (None, w1)
  ↔ ∃ dsn pool,
      environ w !! "DATABASE_URL" = Some dsn ∧ dsn ≠ ""
      ∧ pgxpool_New 10 dsn = inr pool
      ∧ w1 = {| DB := Some pool; environ := environ w; stdin := stdin w;
                filesystem := filesystem w; database := database w;
                trace := trace w ++
                  [EvStderr ("Connecting to PostgreSQL with DSN: " +:+ dsn
                             +:+ LF);
                   EvPoolNew 10 dsn] |}.
Proof.
  split; [apply InitPostgres_success|].
  intros (dsn & pool & Hdsn & Hne & Hnew & ->).
  unfold InitPostgres. step. rewrite Hdsn. simpl.
  rewrite decide_False by done. rewrite Hnew. simpl.
  by rewrite <- app_assoc.
Qed.

Lemma failed_to_is_not_uninitialized (rest : string) :
  "failed to " +:+ rest ≠ "database not initialized".
Proof. intros Heq. vm_compute in Heq. discriminate. Qed.

(** X9: once [InitPostgres] has returned nil, neither [RunMigrations]
    nor [SeedDatabase] answers "database not initialized": every error
    they return then begins with "failed to". *)
Theorem connected_executors_are_initialized w w1 res w' :
  InitPostgres pgxpool_New w = (None, w1) →
  RunMigrations sql_script faults w1 = (res, w')
  ∨ SeedDatabase sql_script faults w1 = (res, w') →
  res ≠ Some "database not initialized"
  ∧ ∀ err, res = Some err → ∃ rest, err = "failed to " +:+ rest.
Proof.
  intros Hinit Hrun.
  assert (∀ err, res = Some err → ∃ rest, err = "failed to " +:+ rest) as Hshape.
  2: { split; [|done]. intros ->. destruct (Hshape _ eq_refl) as [rest Hrest].
       by eapply failed_to_is_not_uninitialized. }
  apply InitPostgres_success in Hinit as (dsn & pool & _ & _ & _ & Hw1).
  assert (DB w1 = Some pool) as HDB by (by rewrite Hw1).
  intros err ->. destruct Hrun as [Hrun|Hrun].
  - destruct (RunMigrations_prologue sql_script faults w1 pool HDB)
      as [(e & _ & Heq)|[(_ & _ & Heq)|[(entries & e & _ & _ & _ & Heq)
         |[(entries & rows & row & e & _ & _ & _ & _ & _ & Heq)
          |(entries & rows & Hdir & Hsnap)]]]].
    1-4: rewrite Heq in Hrun; injection Hrun as <- _; by eexists.
    destruct (RunMigrations_run _ _ _ _ _ _ _ _ HDB Hdir Hsnap Hrun)
      as (done & d_done & delta & _ & _ & f & rest & execs & _ & Hfail & _).
    remember (database w') as d' eqn:Hd'.
    destruct Hfail; by eexists.
  - unfold SeedDatabase in Hrun. step_in Hrun. rewrite HDB in Hrun.
    destruct (dirs (filesystem w1) !! seedDir) as [entries|] eqn:Hdir;
      simpl in Hrun.
    2: { inversion Hrun. by eexists. }
    remember (sort_Strings (collect_sql entries)) as sqlFiles eqn:Hfiles.
    clear Hfiles Hdir HDB Hw1.
    remember {| DB := DB w1; environ := environ w1; stdin := stdin w1;
                filesystem := filesystem w1; database := database w1;
                trace := trace w1 ++ [EvReadDir seedDir] |} as w2 eqn:Hw2.
    clear Hw2. revert w2 Hrun.
    induction sqlFiles as [|f rest IH]; intros w2 Hrun; [done|].
    simpl in Hrun. step_in Hrun.
    destruct (files (filesystem w2) !! filepath_Join seedDir f)
      as [content|]; simpl in Hrun.
    2: { inversion Hrun. by eexists. }
    destruct (pg_exec sql_script faults content [] (database w2)) as [e|d1];
      simpl in Hrun.
    { inversion Hrun. by eexists. }
    by eapply IH.
Qed.

(** ** The migration tool *)

Lemma Println_then {A} (text : string) (k : IO A) w :
  bind (fmt_Println text) (λ _, k) w = k (emitted w [EvStdout (text +:+ LF)]).
Proof. reflexivity. Qed.

Lemma Println_run (text : string) w :
  fmt_Println text w = (tt, emitted w [EvStdout (text +:+ LF)]).
Proof. reflexivity. Qed.

Lemma emitted_emitted w (e1 e2 : list Event) :
  emitted (emitted w e1) e2 = emitted w (e1 ++ e2).
Proof. unfold emitted, after. simpl. by rewrite app_assoc. Qed.

Lemma showHelp_run w :
  showHelp w = (tt, after w (database w) (EvStdout <$> help_lines)).
Proof.
  unfold showHelp. rewrite !Println_then, Println_run, !emitted_emitted.
  reflexivity.
Qed.

(** X10: with [-help] the tool prints its usage and returns, whatever the
    other flags and the environment are: it does not read
    [DATABASE_URL], constructs no pool and sends nothing to the
    database. *)
Theorem help_never_connects flags w :
  help flags = true →
  migrate_main sql_script faults pgxpool_New flags w
  = (Returned, after w (database w) (EvStdout <$> help_lines)).
Proof.
  intros Hhelp. unfold migrate_main. rewrite Hhelp.
  unfold bind, ret. by rewrite showHelp_run.
Qed.

(** X11: without [-help], every action of the tool first needs the
    connection, the rollback stub and the absence of an action included.
    When [InitPostgres] fails the tool logs "Failed to initialize
    database" with the error and exits with status 1; no statement and
    no query has been sent and the database is as before.  In
    particular this is what happens when [DATABASE_URL] is not set. *)
Theorem tool_exits_when_connection_fails flags w :
  help flags = false →
  (∀ err w1,
     InitPostgres pgxpool_New w = (Some err, w1) →
     migrate_main sql_script faults pgxpool_New flags w
     = (Exited 1,
        after w1 (database w)
          [EvStderr ("Failed to initialize database: " +:+ err +:+ LF)])
     ∧ filter is_statement (trace w1) = filter is_statement (trace w))
  ∧ (default "" (environ w !! "DATABASE_URL") = "" →
     migrate_main sql_script faults pgxpool_New flags w
     = (Exited 1,
        after w (database w)
          [EvStderr ("Connecting to PostgreSQL with DSN: " +:+ LF);
           EvStderr ("Failed to initialize database: DATABASE_URL environment variable is not set" +:+ LF)])).
Proof.
  intros Hhelp. split.
  - intros err w1 Hinit.
    destruct (InitPostgres_run _ _ _ _ Hinit)
      as (Hd & _ & _ & _ & delta & Htr & Hst).
    split.
    + unfold migrate_main. rewrite Hhelp. unfold bind at 1. rewrite Hinit.
      unfold log_Fatalf, log_Printf, emit, bind, ret. by rewrite <- Hd.
    + by rewrite Htr, filter_app, Hst, app_nil_r.
  - intros Hdsn. unfold migrate_main. rewrite Hhelp.
    unfold InitPostgres. step. rewrite Hdsn. simpl.
    unfold after. simpl. by rewrite <- app_assoc.
Qed.

(** X12: [-up] wins over [-down], and [-force] counts only with [-up].
    Once the pool is initialised, the tool with [-up] does what
    [runMigrationsUp] does, whether [-down] is given or not; with
    neither [-up] nor [-down] it prints that no action is specified and
    the usage, reads no answer and sends nothing, even under [-force]. *)
Theorem up_wins_and_force_alone_is_no_action flags w w1 :
  help flags = false →
  InitPostgres pgxpool_New w = (None, w1) →
  (up flags = true →
   migrate_main sql_script faults pgxpool_New flags w
   = runMigrationsUp sql_script faults (force flags) w1)
  ∧ (up flags = false → down flags = false →
     migrate_main sql_script faults pgxpool_New flags w
     = (Returned,
        after w1 (database w1)
          (EvStdout
           <$> ("No action specified. Use -help for usage information."
                +:+ LF) :: help_lines))).
Proof.
  intros Hhelp Hinit. split.
  - intros Hup. unfold migrate_main. rewrite Hhelp. unfold bind at 1.
    by rewrite Hinit, Hup.
  - intros Hup Hdown. unfold migrate_main. rewrite Hhelp. unfold bind at 1.
    rewrite Hinit, Hup, Hdown. unfold fmt_Println, emit, bind, ret.
    rewrite showHelp_run. f_equal. reach.
Qed.

(** X13: the outcome of [-up] without [-force].  When the run returns
    nil the tool prints that the migrations are completed and returns.
    When the run returns an error the tool logs "Failed to run
    migrations" with that error and exits with status 1.  On a world
    where the run gets to its loop and [f] is the first change-set of
    its plan that fails, the line logged is that of [f] and of no other
    change-set: it is "Failed to run migrations: " followed by one of
    the three messages of a change-set with the name [f] in it. *)
Theorem apply_reports_the_failing_changeset w1 pool entries rows :
  DB w1 = Some pool →
  dirs (filesystem w1) !! migrationDir = Some entries →
  snapshot faults w1 rows →
  let started :=
    after w1 (database w1) [EvStdout ("Running migrations..." +:+ LF)] in
  (∀ w2,
     RunMigrations sql_script faults started = (None, w2) →
     runMigrationsUp sql_script faults false w1
     = (Returned,
        after w2 (database w2)
          [EvStdout ("✅ Migrations completed successfully!" +:+ LF)]))
  ∧ (∀ err w2,
       RunMigrations sql_script faults started = (Some err, w2) →
       runMigrationsUp sql_script faults false w1
       = (Exited 1,
          after w2 (database w2)
            [EvStderr ("Failed to run migrations: " +:+ err +:+ LF)]))
  ∧ (∀ done f rest d_done err d' execs,
       pending rows entries = done ++ f :: rest →
       apply_changesets sql_script faults (filesystem w1)
         (with_tracker (database w1)) done = inr d_done →
       failed_at sql_script faults (filesystem w1) f d_done err d' execs →
       ∃ kind reason delta,
         kind ∈ ["failed to read migration file ";
                 "failed to execute migration ";
                 "failed to record migration "]
         ∧ err = kind +:+ f +:+ ": " +:+ reason
         ∧ runMigrationsUp sql_script faults false w1
           = (Exited 1,
              after w1 d'
                (EvStdout ("Running migrations..." +:+ LF)
                 :: run_prologue ++ delta
                 ++ [EvStderr ("Failed to run migrations: " +:+ kind +:+ f
                               +:+ ": " +:+ reason +:+ LF)]))
         ∧ read_paths delta = filepath_Join migrationDir <$> (done ++ [f])).
Proof.
  intros HDB Hdir Hsnap started.
  assert (∀ err w2,
       RunMigrations sql_script faults started = (Some err, w2) →
       runMigrationsUp sql_script faults false w1
       = (Exited 1,
          after w2 (database w2)
            [EvStderr ("Failed to run migrations: " +:+ err +:+ LF)]))
    as Hfailed.
  { intros err w2 Hrun. unfold runMigrationsUp, run_and_report.
    unfold fmt_Println, emit, bind at 1 2.
    unfold started, after in Hrun. by rewrite Hrun. }
  split_and!; [|done|].
  - intros w2 Hrun. unfold runMigrationsUp, run_and_report.
    unfold fmt_Println, emit, bind at 1 2. fold started in Hrun.
    unfold started, after in Hrun. by rewrite Hrun.
  - intros done f rest d_done err d' execs Hplan Happ Hfail.
    destruct (RunMigrations_fails sql_script faults started pool entries rows
                done f rest d_done err d' execs)
      as (delta & Hrun & Hread & _); try done.
    assert (∃ kind reason,
              kind ∈ ["failed to read migration file ";
                      "failed to execute migration ";
                      "failed to record migration "]
              ∧ err = kind +:+ f +:+ ": " +:+ reason)
      as (kind & reason & Hkind & ->).
    { destruct Hfail as [Hfile|content e Hfile Hexec
                        |content d1 e Hfile Hexec Hins];
        eexists _, _; (split; [|reflexivity]); set_solver. }
    exists kind, reason, delta. split_and!; try done.
    rewrite (Hfailed _ _ Hrun). f_equal. unfold started, after. simpl.
    f_equal. rewrite <- !app_assoc. simpl. by rewrite !app_string_assoc.
Qed.

End Extras.

(** ** The reader of the [.env] file *)

Section EnvProperties.

#[local] Set Default Proof Using "Type".

Context {Schema : Type}.

Implicit Types (w : @World Schema) (e : gmap string string).

Lemma keeps_refl e : env.keeps e e.
Proof. by split. Qed.

Lemma keeps_trans e1 e2 e3 : env.keeps e1 e2 → env.keeps e2 e3 → env.keeps e1 e3.
Proof. intros [H1 H2] [H3 H4]. split; eauto. Qed.

Lemma with_environ_same w : env.with_environ w (environ w) = w.
Proof. by destruct w. Qed.

Lemma with_environ_twice w e1 e2 :
  env.with_environ (env.with_environ w e1) e2 = env.with_environ w e2.
Proof. done. Qed.

Lemma load_line_run text w :
  ∃ e', env.load_line text w = (tt, env.with_environ w e')
        ∧ env.keeps (environ w) e'.
Proof.
  unfold env.load_line.
  destruct (_ || _).
  { exists (environ w). by rewrite with_environ_same. }
  destruct (env.SplitN2 _ _) as [|part0 [|part1 [|? ?]]];
    try (exists (environ w); by rewrite with_environ_same).
  unfold bind, os_Getenv, env.os_Setenv, ret.
  case_decide as Hcur; [|exists (environ w); by rewrite with_environ_same].
  destruct (env.setenv_accepts _ _);
    [|exists (environ w); by rewrite with_environ_same].
  eexists. split; [reflexivity|]. split.
  - intros key v Hkey Hv. rewrite lookup_insert_ne; [done|].
    intros <-. rewrite Hkey in Hcur. done.
  - intros key Hkey. rewrite lookup_insert_is_Some'. by right.
Qed.

Lemma load_lines_run tokens w :
  ∃ e', env.load_lines tokens w = (tt, env.with_environ w e')
        ∧ env.keeps (environ w) e'.
Proof.
  revert w. induction tokens as [|text rest IH]; intros w.
  { exists (environ w). by rewrite with_environ_same. }
  simpl. unfold bind.
  destruct (load_line_run text w) as (e1 & -> & Hkeep1).
  destruct (IH (env.with_environ w e1)) as (e2 & -> & Hkeep2).
  exists e2. split; [done|]. by eapply keeps_trans.
Qed.

Lemma scan_error lines :
  (env.scan lines).2 = None ∨ (env.scan lines).2 = Some env.ErrTooLong.
Proof.
  induction lines as [|line rest IH]; simpl; [by left|].
  destruct (_ <=? _)%N; [by right|]. by destruct (env.scan rest).
Qed.

Lemma LoadEnv_run filename w err w' :
  env.LoadEnv filename w = (err, w') →
  ∃ e',
    w' = env.with_environ (emitted w [EvReadFile filename]) e'
    ∧ env.keeps (environ w) e'
    ∧ (err = None ∨ err = Some env.ErrTooLong
       ∨ err = Some (eisdir filename))
    ∧ (files (filesystem w) !! filename = None →
       e' = environ w
       ∧ (err = None ↔ dirs (filesystem w) !! filename = None)).
Proof.
  unfold env.LoadEnv, emit, bind, ret. simpl.
  destruct (files (filesystem w) !! filename) as [data|] eqn:Hfile.
  - destruct (env.scan (env.raw_lines data "")) as [tokens e0] eqn:Hscan.
    match goal with
    | |- context [env.load_lines tokens ?w0] =>
        destruct (load_lines_run tokens w0) as (e' & -> & Hkeep)
    end.
    intros [= <- <-]. exists e'.
    split; [done|]. split; [done|]. split; [|done].
    pose proof (scan_error (env.raw_lines data "")) as Herr.
    rewrite Hscan in Herr. simpl in Herr. tauto.
  - destruct (dirs (filesystem w) !! filename) eqn:Hdir;
      intros [= <- <-]; exists (environ w);
      (split; [done|]); (split; [apply keeps_refl|]).
    + split; [by right; right|]. intros _. split; [done|]. by split.
    + split; [by left|]. intros _. by split.
Qed.

(** X14: the environment takes precedence over the [.env] file.  A
    variable that has a value other than the empty string before
    [LoadEnv] has the same value after it, whatever the file says; and no
    variable is ever removed. *)
Theorem LoadEnv_keeps_set_variables filename w err w' :
  env.LoadEnv filename w = (err, w') →
  (∀ key v, environ w !! key = Some v → v ≠ "" → environ w' !! key = Some v)
  ∧ (∀ key, is_Some (environ w !! key) → is_Some (environ w' !! key)).
Proof.
  intros Hrun. destruct (LoadEnv_run _ _ _ _ Hrun) as (e' & -> & Hkeep & _).
  exact Hkeep.
Qed.

(** X15: [LoadEnv] touches nothing but the environment, and a file that
    is not there is no error.  Besides the one read of the file, the
    world it leaves differs from the one it found in the environment
    only; the errors it can return are those of the scanner: "token too
    long", or the failed read when the path is a directory.  Where there
    is no such file the environment is as it was, and the result is nil
    exactly when there is no directory of that name either. *)
Theorem LoadEnv_changes_only_the_environment filename w err w' :
  env.LoadEnv filename w = (err, w') →
  w' = env.with_environ (emitted w [EvReadFile filename]) (environ w')
  ∧ (err = None ∨ err = Some env.ErrTooLong
     ∨ err = Some (eisdir filename))
  ∧ (files (filesystem w) !! filename = None →
     environ w' = environ w
     ∧ (err = None ↔ dirs (filesystem w) !! filename = None)).
Proof.
  intros Hrun.
  destruct (LoadEnv_run _ _ _ _ Hrun) as (e' & -> & _ & Herr & Hmissing).
  done.
Qed.

(** One line [key="value"]: the variable is set to the value between the
    quotes, unless it has a value already. *)
Lemma load_line_assignment quote key value w :
  quote = env.DQUOTE ∨ quote = env.SQUOTE →
  env.plain_key key = true → env.line_value value = true →
  env.load_line (env.assignment quote (key, value)) w
  = (tt, if decide (default "" (environ w !! key) = "")
         then env.with_environ w (<[key := value]> (environ w))
         else w).
Proof.
  intros Hq Hkey Hvalue. unfold env.assignment. simpl.
  destruct (plain_key_first _ Hkey) as (c & rest & Hk & Hc & Hhash & Hall).
  destruct (quote_printable _ Hq) as (q & Hquote & Hprint & _).
  set (line := key +:+ "=" +:+ quote +:+ value +:+ quote).
  assert (line = String c (rest +:+ "=" +:+ quote +:+ value +:+ quote))
    as Hfirst by (unfold line; by rewrite Hk).
  assert (line = (key +:+ "=" +:+ quote +:+ value) +:+ String q "")
    as Hlast by (unfold line; by rewrite !app_string_assoc, <- Hquote).
  assert (env.TrimSpace line = line) as Htrim.
  { rewrite Hfirst. eapply TrimSpace_printable; [|done|exact Hprint].
    by rewrite <- Hfirst. }
  unfold env.load_line. rewrite Htrim.
  assert (((String.length line =? 0)%nat || env.HasPrefix line "#") = false)
    as ->.
  { rewrite Hfirst. simpl. by apply HasPrefix_first. }
  unfold env.SplitN2, line.
  let c := eval vm_compute in (Ascii.ascii_of_nat 61) in
  change (Ascii.ascii_of_nat 61) with c.
  rewrite (cut_first_app _ key (quote +:+ value +:+ quote))
    by (by apply (all_bytes_has_byte env.key_byte)).
  rewrite (TrimSpace_key _ Hkey).
  assert (env.TrimSpace (quote +:+ value +:+ quote)
          = quote +:+ value +:+ quote) as ->.
  { assert (quote +:+ value +:+ quote = String q (value +:+ quote)) as Hone
      by (by rewrite Hquote).
    assert (String q (value +:+ quote) = (quote +:+ value) +:+ String q "")
      as Htwo by (by rewrite app_string_assoc, Hquote).
    rewrite Hone. by eapply TrimSpace_printable. }
  rewrite (unquote_quoted _ _ Hq).
  unfold bind, os_Getenv, env.os_Setenv, ret.
  case_decide; [|done].
  by rewrite (setenv_accepts_plain _ _ Hkey Hvalue).
Qed.

Lemma load_lines_assignments quote (kvs : list (string * string)) w :
  quote = env.DQUOTE ∨ quote = env.SQUOTE →
  Forall (λ kv, env.plain_key kv.1 = true ∧ env.line_value kv.2 = true) kvs →
  NoDup kvs.*1 →
  (∀ key, key ∈ kvs.*1 → default "" (environ w !! key) = "") →
  ∃ e',
    env.load_lines (env.assignment quote <$> kvs) w
    = (tt, env.with_environ w e')
    ∧ (∀ key value, (key, value) ∈ kvs → e' !! key = Some value)
    ∧ (∀ key, key ∉ kvs.*1 → e' !! key = environ w !! key).
Proof.
  intros Hq Hgood. revert w.
  induction Hgood as [|[key value] kvs [Hkey Hvalue] Hgood IH];
    intros w Hnodup Hfree.
  { exists (environ w). rewrite with_environ_same. split; [done|].
    split; [|done]. intros ?? Hin. by apply elem_of_nil in Hin. }
  rewrite fmap_cons in Hnodup, Hfree. simpl in Hkey, Hvalue, Hnodup, Hfree.
  apply NoDup_cons in Hnodup as [Hnew Hnodup].
  rewrite fmap_cons. cbn [env.load_lines].
  unfold bind. rewrite (load_line_assignment _ _ _ _ Hq Hkey Hvalue).
  rewrite decide_True by (apply Hfree; by left). cbv beta iota zeta.
  destruct (IH (env.with_environ w (<[key := value]> (environ w))) Hnodup)
    as (e' & -> & Hset & Hother).
  { intros k Hk. simpl. rewrite lookup_insert_ne; [apply Hfree; by right|].
    by intros ->. }
  exists e'. split; [done|]. split.
  - intros k v [[= -> ->]|Hin]%elem_of_cons; [|by apply Hset].
    rewrite (Hother _ Hnew). simpl. apply lookup_insert_eq.
  - intros k [Hne Hk]%not_elem_of_cons. rewrite (Hother _ Hk). simpl.
    by rewrite lookup_insert_ne.
Qed.

Lemma assignment_line quote kv :
  quote = env.DQUOTE ∨ quote = env.SQUOTE →
  env.plain_key kv.1 = true → env.line_value kv.2 = true →
  env.has_byte (Ascii.ascii_of_nat 10) (env.assignment quote kv) = false
  ∧ env.dropCR (env.assignment quote kv) = env.assignment quote kv.
Proof.
  intros Hq Hkey Hvalue.
  destruct (plain_key_first _ Hkey) as (c & rest & Hk & _ & _ & Hall).
  destruct (quote_printable _ Hq) as (q & Hquote & _ & Hcr & Hlf).
  unfold env.line_value in Hvalue.
  apply andb_true_iff in Hvalue as [Hnolf _]. apply negb_true_iff in Hnolf.
  unfold env.assignment. split.
  - rewrite !has_byte_app, Hnolf.
    rewrite (all_bytes_has_byte _ _ _ Hall) by done.
    rewrite Hquote. simpl. rewrite bool_decide_eq_false_2 by done. done.
  - rewrite <- !app_string_assoc. rewrite Hquote at 2.
    rewrite (dropCR_other _ q Hcr). by rewrite <- Hquote.
Qed.

Lemma LoadEnv_assignments
    filename quote (kvs : list (string * string)) w :
  quote = env.DQUOTE ∨ quote = env.SQUOTE →
  files (filesystem w) !! filename
  = Some (env.unlines (env.assignment quote <$> kvs)) →
  Forall (λ kv, env.plain_key kv.1 = true ∧ env.line_value kv.2 = true
                ∧ env.fits (env.assignment quote kv)) kvs →
  NoDup kvs.*1 →
  (∀ key, key ∈ kvs.*1 → default "" (environ w !! key) = "") →
  ∃ e',
    env.LoadEnv filename w
    = (None, env.with_environ (emitted w [EvReadFile filename]) e')
    ∧ (∀ key value, (key, value) ∈ kvs → e' !! key = Some value)
    ∧ (∀ key, key ∉ kvs.*1 → e' !! key = environ w !! key).
Proof.
  intros Hq Hfile Hgood Hnodup Hfree.
  assert (Forall (λ kv, env.plain_key kv.1 = true
                        ∧ env.line_value kv.2 = true) kvs) as Hgood'.
  { eapply Forall_impl; [exact Hgood|]. by intros kv (? & ? & ?). }
  assert (env.scan (env.raw_lines
                      (env.unlines (env.assignment quote <$> kvs)) "")
          = (env.assignment quote <$> kvs, None)) as Hscan.
  { rewrite <- (app_string_nil (env.unlines _)), raw_lines_unlines.
    2: { apply Forall_fmap. eapply Forall_impl; [exact Hgood'|].
         intros kv [? ?]. by apply assignment_line. }
    simpl. rewrite app_nil_r, scan_fits.
    2: { apply Forall_fmap. eapply Forall_impl; [exact Hgood|].
         by intros kv (? & ? & ?). }
    f_equal. rewrite <- list_fmap_compose. apply Forall_fmap_ext.
    eapply Forall_impl; [exact Hgood'|].
    intros kv [? ?]. by apply assignment_line. }
  unfold env.LoadEnv, emit, bind, ret. simpl.
  rewrite Hfile, Hscan.
  match goal with
  | |- context [env.load_lines _ ?w0] =>
      destruct (load_lines_assignments quote kvs w0 Hq Hgood' Hnodup Hfree)
        as (e' & -> & Hset & Hother)
  end.
  exists e'. split; [reflexivity|]. done.
Qed.

(** X16: what is written as [key="value"] is read back as it is.  For a
    file of such lines, one per variable, with single or double quotes,
    keys of printable bytes without [=] that do not begin with [#], and
    values of any bytes but line feed and NUL, spaces at their ends
    included: when none of the variables has a value yet, [LoadEnv]
    returns nil, every variable has its value afterwards, byte for byte,
    and every other variable is as before. *)
Theorem LoadEnv_reads_back_quoted_assignments
    filename quote (kvs : list (string * string)) w :
  quote = env.DQUOTE ∨ quote = env.SQUOTE →
  files (filesystem w) !! filename
  = Some (env.unlines (env.assignment quote <$> kvs)) →
  Forall (λ kv, env.plain_key kv.1 = true ∧ env.line_value kv.2 = true
                ∧ env.fits (env.assignment quote kv)) kvs →
  NoDup kvs.*1 →
  (∀ key, key ∈ kvs.*1 → default "" (environ w !! key) = "") →
  ∃ w',
    env.LoadEnv filename w = (None, w')
    ∧ (∀ key value, (key, value) ∈ kvs → environ w' !! key = Some value)
    ∧ (∀ key, key ∉ kvs.*1 → environ w' !! key = environ w !! key).
Proof.
  intros Hq Hfile Hgood Hnodup Hfree.
  destruct (LoadEnv_assignments filename quote kvs w Hq Hfile Hgood Hnodup
              Hfree) as (e' & -> & Hset & Hother).
  eexists. split; [reflexivity|]. done.
Qed.

Lemma load_line_passed_over text w :
  env.passed_over text → env.load_line text w = (tt, w).
Proof.
  unfold env.passed_over, env.load_line.
  destruct (_ || _) eqn:Hskip; [done|].
  apply orb_false_iff in Hskip as [Hlen Hhash].
  intros [Hblank|[Hcomment|Hnoeq]].
  - rewrite Hblank in Hlen. done.
  - congruence.
  - unfold env.SplitN2. by rewrite (cut_none _ _ Hnoeq).
Qed.

Lemma load_lines_passed_over tokens w :
  Forall env.passed_over tokens → env.load_lines tokens w = (tt, w).
Proof.
  induction 1 as [|text rest Htext Hrest IH]; [done|]. simpl.
  unfold bind. by rewrite (load_line_passed_over _ _ Htext).
Qed.

(** X17: blank lines, comments and lines without [=] set nothing.  When
    every line of the file, its carriage return dropped, is white space
    only, begins after its white space with [#] (whatever follows, an
    assignment included), or holds no [=], [LoadEnv] returns nil and the
    environment is as before. *)
Theorem LoadEnv_passes_over_comments filename (lines : list string) w :
  files (filesystem w) !! filename = Some (env.unlines lines) →
  Forall (λ line, env.has_byte (Ascii.ascii_of_nat 10) line = false
                  ∧ env.fits line
                  ∧ env.passed_over (env.dropCR line)) lines →
  env.LoadEnv filename w = (None, emitted w [EvReadFile filename]).
Proof.
  intros Hfile Hlines.
  unfold env.LoadEnv, emit, bind, ret. simpl. rewrite Hfile.
  rewrite <- (app_string_nil (env.unlines _)), raw_lines_unlines.
  2: { eapply Forall_impl; [exact Hlines|]. by intros ? (? & ? & ?). }
  simpl. rewrite app_nil_r, scan_fits.
  2: { eapply Forall_impl; [exact Hlines|]. by intros ? (? & ? & ?). }
  rewrite load_lines_passed_over; [done|].
  apply Forall_fmap. eapply Forall_impl; [exact Hlines|].
  by intros ? (? & ? & ?).
Qed.

(** What a line does to the environment depends on the environment only. *)
Lemma load_line_environ text w w2 :
  environ w = environ w2 →
  ∃ e', env.load_line text w = (tt, env.with_environ w e')
        ∧ env.load_line text w2 = (tt, env.with_environ w2 e').
Proof.
  intros Henv. unfold env.load_line.
  destruct (_ || _).
  { exists (environ w). rewrite with_environ_same, Henv.
    by rewrite with_environ_same. }
  destruct (env.SplitN2 _ _) as [|part0 [|part1 [|? ?]]];
    try (exists (environ w); rewrite with_environ_same, Henv;
         by rewrite with_environ_same).
  unfold bind, os_Getenv, env.os_Setenv, ret. rewrite Henv.
  case_decide as Hcur;
    [|exists (environ w2); rewrite <- Henv at 1; by rewrite !with_environ_same].
  destruct (env.setenv_accepts _ _);
    [|exists (environ w2); rewrite <- Henv at 1; by rewrite !with_environ_same].
  eexists. split; [|reflexivity]. unfold env.with_environ. by rewrite Henv.
Qed.

Lemma load_lines_environ tokens w w2 :
  environ w = environ w2 →
  ∃ e', env.load_lines tokens w = (tt, env.with_environ w e')
        ∧ env.load_lines tokens w2 = (tt, env.with_environ w2 e').
Proof.
  revert w w2. induction tokens as [|text rest IH]; intros w w2 Henv.
  { exists (environ w). rewrite with_environ_same, Henv.
    by rewrite with_environ_same. }
  simpl. unfold bind.
  destruct (load_line_environ text w w2 Henv) as (e1 & -> & ->).
  destruct (IH (env.with_environ w e1) (env.with_environ w2 e1) eq_refl)
    as (e2 & -> & ->).
  by exists e2.
Qed.

(** X18: a line that the scanner's buffer does not hold ends the loading.
    When a line of [MaxScanTokenSize] bytes or more follows some lines
    that fit, [LoadEnv] returns the error "bufio.Scanner: token too
    long"; the lines before it have been applied, and the environment is
    the one that the file cut off before that line gives; nothing after
    it is looked at. *)
Theorem LoadEnv_stops_at_a_line_too_long
    filename (lines : list string) (long rest : string) w w2 :
  files (filesystem w) !! filename
  = Some (env.unlines lines +:+ long +:+ rest) →
  files (filesystem w2) !! filename = Some (env.unlines lines) →
  environ w2 = environ w →
  Forall (λ line, env.has_byte (Ascii.ascii_of_nat 10) line = false
                  ∧ env.fits line) lines →
  env.has_byte (Ascii.ascii_of_nat 10) long = false →
  ¬ env.fits long →
  ∃ w' w2',
    env.LoadEnv filename w = (Some env.ErrTooLong, w')
    ∧ env.LoadEnv filename w2 = (None, w2')
    ∧ environ w' = environ w2'.
Proof.
  intros Hfile Hfile2 Henv Hlines Hnolf Hlong.
  assert (Forall (λ line, env.has_byte (Ascii.ascii_of_nat 10) line = false)
            lines) as Hnolfs.
  { eapply Forall_impl; [exact Hlines|]. by intros ? [? ?]. }
  assert (Forall env.fits lines) as Hfit.
  { eapply Forall_impl; [exact Hlines|]. by intros ? [? ?]. }
  assert (long ≠ "") as Hne.
  { intros ->. apply Hlong. unfold env.fits, env.MaxScanTokenSize. simpl. lia. }
  destruct (raw_lines_first rest long Hne) as (more & tail & Hfirst).
  assert (¬ env.fits (long +:+ more)) as Hlong'.
  { unfold env.fits in *. rewrite length_app_string. lia. }
  unfold env.LoadEnv, emit, bind, ret. simpl.
  rewrite Hfile, Hfile2.
  rewrite raw_lines_unlines, raw_lines_app by done.
  rewrite app_nil_string, Hfirst, (scan_too_long _ _ _ Hfit Hlong').
  rewrite <- (app_string_nil (env.unlines lines)), raw_lines_unlines by done.
  simpl. rewrite app_nil_r, (scan_fits _ Hfit).
  match goal with
  | |- context [(env.load_lines ?t ?wa, env.load_lines ?t ?wb)] => idtac
  | |- ∃ _ _, (let '(_, _) := env.load_lines ?t ?wa in _) = _
              ∧ (let '(_, _) := env.load_lines ?t ?wb in _) = _ ∧ _ =>
      destruct (load_lines_environ t wa wb) as (e' & -> & ->);
        [simpl; by rewrite Henv|]
  end.
  by eexists _, _.
Qed.

Section Connect.

Variable pgxpool_New : Z → string → string + Pool.

(** The connection that [main] makes once [.env] has been loaded. *)
Lemma load_and_connect_with w err e' dsn :
  env.LoadEnv ".env" w
  = (err, env.with_environ (emitted w [EvReadFile ".env"]) e') →
  e' !! "DATABASE_URL" = Some dsn → dsn ≠ "" →
  ∃ w' before,
    load_and_connect pgxpool_New env.LoadEnv w
    = (match pgxpool_New 10 dsn with
       | inl failure => Some ("failed to connect to PostgreSQL: " +:+ failure)
       | inr _ => None
       end, w')
    ∧ trace w' = before ++ [EvPoolNew 10 dsn]
    ∧ DB w' = match pgxpool_New 10 dsn with
              | inl _ => DB w
              | inr pool => Some pool
              end.
Proof.
  intros Hload Hdsn Hne.
  unfold load_and_connect, bind. rewrite Hload.
  destruct err as [failure|]; unfold InitPostgres, log_Printf, println,
    os_Getenv, emit, bind, ret; simpl; rewrite Hdsn; simpl;
    rewrite decide_False by done; simpl;
    destruct (pgxpool_New 10 dsn); simpl.
  all: eexists _, _; split; [reflexivity|]; simpl; split; [|done].
  all: reflexivity.
Qed.

(** X19: a [DATABASE_URL] of the process environment wins over the
    [.env] file.  When the variable has a value other than the empty
    string as [main] starts, the pool is made from that value, under the
    ten second timeout, whatever [.env] holds and whether or not loading
    it failed; the result and [DB] are those of that one call of
    [pgxpool.New], the last thing the start-up does. *)
Theorem environment_url_wins_over_env_file w dsn :
  environ w !! "DATABASE_URL" = Some dsn → dsn ≠ "" →
  ∃ w' before,
    load_and_connect pgxpool_New env.LoadEnv w
    = (match pgxpool_New 10 dsn with
       | inl failure => Some ("failed to connect to PostgreSQL: " +:+ failure)
       | inr _ => None
       end, w')
    ∧ trace w' = before ++ [EvPoolNew 10 dsn]
    ∧ DB w' = match pgxpool_New 10 dsn with
              | inl _ => DB w
              | inr pool => Some pool
              end.
Proof.
  intros Hdsn Hne.
  destruct (env.LoadEnv ".env" w) as [err w0] eqn:Hload.
  destruct (LoadEnv_run _ _ _ _ Hload) as (e' & -> & [Hkeep _] & _).
  eapply load_and_connect_with; [exact Hload| |exact Hne].
  by apply Hkeep.
Qed.

(** X20: the [.env] file supplies [DATABASE_URL] when the environment
    has none.  With a [.env] of quoted assignments, one per variable,
    none of which has a value yet, and among them [DATABASE_URL] with a
    value that is not empty, [main] makes the pool from the value
    written in the file. *)
Theorem env_file_supplies_the_url
    quote (kvs : list (string * string)) w dsn :
  quote = env.DQUOTE ∨ quote = env.SQUOTE →
  files (filesystem w) !! ".env"
  = Some (env.unlines (env.assignment quote <$> kvs)) →
  Forall (λ kv, env.plain_key kv.1 = true ∧ env.line_value kv.2 = true
                ∧ env.fits (env.assignment quote kv)) kvs →
  NoDup kvs.*1 →
  (∀ key, key ∈ kvs.*1 → default "" (environ w !! key) = "") →
  ("DATABASE_URL", dsn) ∈ kvs → dsn ≠ "" →
  ∃ w' before,
    load_and_connect pgxpool_New env.LoadEnv w
    = (match pgxpool_New 10 dsn with
       | inl failure => Some ("failed to connect to PostgreSQL: " +:+ failure)
       | inr _ => None
       end, w')
    ∧ trace w' = before ++ [EvPoolNew 10 dsn]
    ∧ DB w' = match pgxpool_New 10 dsn with
              | inl _ => DB w
              | inr pool => Some pool
              end.
Proof.
  intros Hq Hfile Hgood Hnodup Hfree Hin Hne.
  destruct (LoadEnv_assignments ".env" quote kvs w Hq Hfile Hgood Hnodup
              Hfree) as (e' & Hload & Hset & _).
  eapply load_and_connect_with; [exact Hload| |exact Hne].
  by apply Hset.
Qed.

End Connect.

End EnvProperties.

(** ** internal/user *)

Lemma scan_rows_scanned (rows : list (string + user.UserResponse)) users :
  match user.scanned rows with
  | Some more => user.scan_rows rows users = inr (users ++ more)
  | None => ∃ err, user.scan_rows rows users = inl err
  end.
Proof.
  revert users. induction rows as [|[err|row] rows IH]; intros users.
  - simpl. by rewrite app_nil_r.
  - simpl. by eexists.
  - unfold user.scanned in *. simpl. specialize (IH (users ++ [row])).
    destruct (mapM _ rows) as [more|]; simpl.
    + by rewrite IH, <- app_assoc.
    + exact IH.
Qed.

(** Skipping the first [n] bytes. *)
Lemma RuneCountInString_step c rest :
  ∃ tail,
    user.RuneCountInString (String c rest)
    = S (user.RuneCountInString tail)
    ∧ (String.length rest ≤ 3 + String.length tail)%nat
    ∧ (String.length tail ≤ String.length rest)%nat.
Proof.
  simpl.
  destruct (_ <? _)%nat; [exists rest; split; [done|lia]|].
  destruct (user.first c) as [[[size lo] hi]|]; [|exists rest; split; [done|lia]].
  destruct rest as [|c1 r1]; [exists ""; split; [done|simpl; lia]|].
  destruct (negb _); [eexists; split; [done|lia]|].
  destruct (size =? 2)%nat; [exists r1; split; [done|simpl; lia]|].
  destruct r1 as [|c2 r2]; [eexists; split; [done|lia]|].
  destruct (negb _); [eexists; split; [done|lia]|].
  destruct (size =? 3)%nat; [exists r2; split; [done|simpl; lia]|].
  destruct r2 as [|c3 r3]; [eexists; split; [done|lia]|].
  destruct (negb _); [eexists; split; [done|lia]|].
  exists r3; split; [done|simpl; lia].
Qed.

Lemma RuneCountInString_bounds_upto (n : nat) (s : string) :
  (String.length s ≤ n)%nat →
  (user.RuneCountInString s ≤ String.length s
   ∧ String.length s ≤ 4 * user.RuneCountInString s)%nat.
Proof.
  revert s. induction n as [|n IH]; intros s Hlen.
  { destruct s; simpl in *; [lia|lia]. }
  destruct s as [|c rest]; [simpl; lia|].
  destruct (RuneCountInString_step c rest) as (tail & -> & Hshort & Hlong).
  simpl in Hlen. destruct (IH tail) as [Hle Hge]; [lia|].
  simpl String.length. lia.
Qed.

Section UserProperties.

#[local] Set Default Proof Using "Type".

Context {Store : Type} `{!user.Library Store}.

Lemma first_failure_None tags v :
  user.first_failure tags v = None ↔ Forall (λ t, user.holds t v = true) tags.
Proof.
  induction tags as [|t tags IH]; simpl.
  - split; [by constructor|done].
  - destruct (user.holds t v) eqn:Hholds.
    + rewrite IH. split; [by constructor|by inversion 1].
    + split; [done|]. inversion 1; congruence.
Qed.

Lemma validate_Struct_None req :
  user.validate_Struct req = None
  ↔ (3 ≤ Z.of_nat (user.RuneCountInString (user.Username req)) ≤ 32
     ∧ user.Email req ≠ ""
     ∧ user.emailRegex_MatchString (user.Email req) = true
     ∧ 1 ≤ user.Age req ≤ 120).
Proof.
  assert (user.validate_Struct req = None ↔ user.failures req = []) as ->.
  { unfold user.validate_Struct. by destruct (user.failures req). }
  unfold user.failures, user.fields. simpl.
  destruct (user.Username req) as [|c name] eqn:Hname.
  { simpl. split; [done|]. intros [[? ?] _]. simpl in *. lia. }
  rewrite <- Hname. replace (negb (String.eqb (user.Username req) ""))
    with true by (by rewrite Hname).
  destruct (3 <=? _) eqn:Hmin;
    [|simpl; split; [done|intros [[? ?] _]; lia]].
  destruct (_ <=? 32) eqn:Hmax;
    [|simpl; split; [done|intros [[? ?] _]; lia]].
  destruct (String.eqb (user.Email req) "") eqn:Hmail.
  { simpl. apply String.eqb_eq in Hmail. split; [done|]. by intros (_ & ? & _). }
  apply String.eqb_neq in Hmail. simpl negb. cbv iota.
  destruct (user.emailRegex_MatchString _) eqn:Hre;
    [|simpl; split; [done|by intros (_ & _ & ? & _)]].
  destruct (user.Age req =? 0) eqn:Hzero;
    [simpl; split; [done|intros (_ & _ & _ & ? & ?); lia]|].
  simpl negb. cbv iota.
  destruct (0 <=? user.Age req) eqn:Hlow;
    [|simpl; split; [done|intros (_ & _ & _ & ? & ?); lia]].
  destruct (user.Age req <=? 120) eqn:Hhigh;
    [|simpl; split; [done|intros (_ & _ & _ & ? & ?); lia]].
  simpl. split; [|done]. intros _. split_and!; try done; lia.
Qed.

(** X21: the requests that pass validation.  [validate.Struct] returns
    nil exactly for a user name of 3 to 32 runes, an e-mail address that
    is not empty and matches the validator's pattern, and an age from 1
    to 120: an age of 0 is refused, although the tag says [min=0],
    because [required] refuses the zero value. *)
Theorem validation_accepts req :
  user.validate_Struct req = None
  ↔ (3 ≤ Z.of_nat (user.RuneCountInString (user.Username req)) ≤ 32
     ∧ user.Email req ≠ ""
     ∧ user.emailRegex_MatchString (user.Email req) = true
     ∧ 1 ≤ user.Age req ≤ 120).
Proof. apply validate_Struct_None. Qed.

Lemma validate_Struct_age req :
  3 ≤ Z.of_nat (user.RuneCountInString (user.Username req)) ≤ 32 →
  user.Email req ≠ "" →
  user.emailRegex_MatchString (user.Email req) = true →
  user.failures req
  = match user.first_failure [user.required; user.min 0; user.max 120]
            (user.IntField (user.Age req)) with
    | Some t => [("Age", t)]
    | None => []
    end.
Proof.
  intros [Hmin Hmax] Hmail Hre.
  unfold user.failures, user.fields.
  assert (user.first_failure [user.required; user.min 3; user.max 32]
            (user.StringField (user.Username req)) = None) as Hname.
  { apply first_failure_None. repeat constructor; simpl; try lia.
    destruct (user.Username req); [simpl in Hmin; lia|done]. }
  assert (user.first_failure [user.required; user.email]
            (user.StringField (user.Email req)) = None) as Haddr.
  { apply first_failure_None. repeat constructor; simpl; try done.
    apply negb_true_iff. by apply String.eqb_neq. }
  cbn [omap list_omap fst snd]. rewrite Hname, Haddr. cbn [fmap option_fmap option_map].
  by destruct (user.first_failure _ (user.IntField _)).
Qed.

Ltac handle H :=
  unfold user.CreateUser, user.GetUser, user.GetUsers, user.UpdateUser,
    user.DeleteUser, user.Create, user.GetByID, user.GetAll, user.Update,
    user.Delete, user.uuid_NewString, user.send, user.decodeStrictJSON,
    user.JSON in H;
  repeat case_match; simplify_eq; simpl in *.

(** X22: an age of zero is refused.  A request that decodes to a user
    with a good name, a good e-mail address and the age 0 is answered
    with status 400 and the validator's message for the [required] tag
    of [Age], by [CreateUser] and, given an id, by [UpdateUser]; the
    server is left as it was. *)
Theorem an_age_of_zero_is_refused c req s :
  user.decodeStrictJSON c = inr req →
  3 ≤ Z.of_nat (user.RuneCountInString (user.Username req)) ≤ 32 →
  user.Email req ≠ "" →
  user.emailRegex_MatchString (user.Email req) = true →
  user.Age req = 0 →
  let refusal :=
    user.JSON user.StatusBadRequest
      (user.Message
         "Key: 'CreateUserRequest.Age' Error:Field validation for 'Age' failed on the 'required' tag") in
  user.CreateUser c s = (refusal, s)
  ∧ (user.param_id c ≠ "" → user.UpdateUser c s = (refusal, s)).
Proof.
  intros Hdecode Hname Hmail Hre Hage refusal.
  assert (user.validate_Struct req
          = Some "Key: 'CreateUserRequest.Age' Error:Field validation for 'Age' failed on the 'required' tag")
    as Hvalidate.
  { unfold user.validate_Struct.
    rewrite (validate_Struct_age req Hname Hmail Hre), Hage.
    by vm_compute. }
  unfold user.CreateUser, user.UpdateUser.
  rewrite Hdecode, Hvalidate. split; [done|].
  intros Hid. by rewrite decide_False.
Qed.

(** X23: a refused request leaves the server alone, every other one
    sends exactly one statement.  Whichever handler serves a request:
    with status 400 the server is as before (no statement was sent, no
    identifier drawn); with any other status exactly one statement was
    sent to the pool. *)
Theorem refused_requests_leave_the_server_alone h c s reply s' :
  user.serve h c s = (reply, s') →
  (user.code reply = user.StatusBadRequest ∧ s' = s)
  ∨ (user.code reply ≠ user.StatusBadRequest
     ∧ ∃ q, user.issued s' = user.issued s ++ [q]).
Proof.
  intros Hrun.
  destruct h; simpl in Hrun; handle Hrun;
    try (left; split; reflexivity);
    right; (split; [done|]); by eexists.
Qed.

(** X24: what is written has been validated.  When [CreateUser] or
    [UpdateUser] sends a statement, it is the [INSERT] or the [UPDATE]
    of the repository, with the fields of the decoded request as its
    second to fourth argument, and that request has a name of 3 to 32
    runes, an e-mail address that matches, and an age from 1 to 120. *)
Theorem written_rows_are_validated h c s reply s' :
  h = user.hCreateUser ∨ h = user.hUpdateUser →
  user.serve h c s = (reply, s') →
  user.issued s' = user.issued s
  ∨ ∃ id req,
      user.json_Decode (user.Body c) = inr req
      ∧ user.issued s'
        = user.issued s
          ++ [{| user.sql := match h with
                             | user.hCreateUser => user.create_sql
                             | _ => user.update_sql
                             end;
                 user.args := [user.Text id; user.Text (user.Username req);
                               user.Text (user.Email req);
                               user.Int (user.Age req)] |}]
      ∧ 3 ≤ Z.of_nat (user.RuneCountInString (user.Username req)) ≤ 32
      ∧ user.emailRegex_MatchString (user.Email req) = true
      ∧ 1 ≤ user.Age req ≤ 120.
Proof.
  intros [-> | ->] Hrun; simpl in Hrun; handle Hrun;
    try (by left);
    right; eexists _, _; (split; [reflexivity|]); (split; [reflexivity|]);
    match goal with
    | Hv : user.validate_Struct _ = None |- _ =>
        apply validate_Struct_None in Hv; tauto
    end.
Qed.

(** X25: deleting a user that is not there is answered as a failure of
    the server.  For a request with an id, [DeleteUser] answers 204
    exactly when the [DELETE] affected a row; when it affected none, and
    the repository says "user not found", the answer is status 500 with
    "Failed to delete user", the same as when the statement fails. *)
Theorem delete_of_unknown_user_is_a_server_error c s reply s' :
  user.param_id c ≠ "" →
  user.DeleteUser c s = (reply, s') →
  let r := (user.Exec {| user.sql := user.delete_sql;
                         user.args := [user.Text (user.param_id c)] |}
              (user.store s)).1 in
  (reply = user.JSON user.StatusNoContent user.Nothing
   ∧ ∃ n, r = inr n ∧ n ≠ 0)
  ∨ (reply = user.JSON user.StatusInternalServerError
               (user.Message "Failed to delete user")
     ∧ (r = inr 0 ∨ ∃ err, r = inl err)).
Proof.
  intros Hid Hrun r. subst r. handle Hrun.
  - right. split; [done|]. right. by eexists.
  - right. split; [done|]. left. f_equal. lia.
  - left. split; [done|]. eexists. split; [done|]. lia.
Qed.

(** X26: only [GetUser] answers 404, and it does so for every failure.
    A reply has status 404 exactly when [GetUser] was given an id and
    the query or the scan of its row failed, whatever the failure was:
    no row, or a database that cannot be reached. *)
Theorem only_GetUser_answers_not_found h c s reply s' :
  user.serve h c s = (reply, s') →
  user.code reply = user.StatusNotFound
  ↔ (h = user.hGetUser ∧ user.param_id c ≠ ""
     ∧ ∃ err,
         (user.QueryRow_Scan
            {| user.sql := user.get_by_id_sql;
               user.args := [user.Text (user.param_id c)] |}
            (user.store s)).1 = inl err).
Proof.
  intros Hrun.
  destruct h; simpl in Hrun; handle Hrun;
    (split; [try done|try (by intros [? _])]);
    try (intros (_ & ? & _); done);
    try (intros _; split; [done|]; split; [done|]; by eexists);
    try (by intros (_ & _ & err & Herr)).
Qed.

(** X27: [GetUsers] gives every row or none.  When the query succeeds,
    the answer is status 200 with the users in the order of the rows if
    every row was scanned, and status 500 with "Failed to get users" as
    soon as one row was not, whatever was scanned before it. *)
Theorem GetUsers_gives_every_row_or_none c s rows st :
  user.Query_rows {| user.sql := user.get_all_sql; user.args := [] |}
    (user.store s) = (inr rows, st) →
  (user.GetUsers c s).1
  = match user.scanned rows with
    | Some users => user.JSON user.StatusOK (user.Users users)
    | None => user.JSON user.StatusInternalServerError
                (user.Message "Failed to get users")
    end.
Proof.
  intros Hquery.
  unfold user.GetUsers, user.GetAll, user.send. rewrite Hquery.
  pose proof (scan_rows_scanned rows []) as Hscan.
  destruct (user.scanned rows) as [users|].
  - by rewrite Hscan.
  - destruct Hscan as [err ->]. done.
Qed.

(** X28: the text of a failure never reaches the client.  A message in
    a reply is one of the seven texts of the handlers or the message of
    the validator for the decoded request; what the decoder, the pool or
    the repository said about a failure is not in it. *)
Theorem failures_are_not_shown h c s reply s' text :
  user.serve h c s = (reply, s') →
  user.payload reply = user.Message text →
  text ∈ ["Invalid request body"; "User ID is required";
          "Failed to create user"; "User not found"; "Failed to get users";
          "Failed to update user"; "Failed to delete user"]
  ∨ ∃ req, user.json_Decode (user.Body c) = inr req
           ∧ user.validate_Struct req = Some text.
Proof.
  intros Hrun Htext.
  destruct h; simpl in Hrun; handle Hrun;
    try (left; set_solver);
    right; eexists; (split; [reflexivity|]); congruence.
Qed.

(** X29: an accepted user name has 3 to 128 bytes.  The validator
    counts runes, of which there are at most as many as bytes and at
    least a quarter as many. *)
Theorem accepted_names_are_short req :
  user.validate_Struct req = None →
  (3 ≤ String.length (user.Username req) ≤ 128)%nat.
Proof.
  intros [Hname _]%validate_Struct_None.
  destruct (RuneCountInString_bounds_upto _ (user.Username req) (le_n _)).
  lia.
Qed.

End UserProperties.

(** ** cmd/main.go *)

Section MainProperties.

#[local] Set Default Proof Using "Type".

Context {Schema : Type}.
Variable sql_script : string → @Database Schema → string + @Database Schema.
Variable faults : @Faults Schema.
Variable pgxpool_New : Z → string → string + Pool.
Variable LoadEnv : string → IO (Schema := Schema) error.

Lemma load_and_connect_pool w w2 :
  load_and_connect pgxpool_New LoadEnv w = (None, w2) →
  ∃ pool, DB w2 = Some pool.
Proof.
  unfold load_and_connect, bind.
  destruct (LoadEnv ".env" w) as [e w0].
  destruct (_ w0) as [[] w1].
  intros Hinit. apply InitPostgres_success in Hinit
    as (dsn & pool & _ & _ & _ & ->).
  by exists pool.
Qed.

(** X30: started without auto-migration, the server seeds a database
    that it has not migrated.  When [AUTO_MIGRATE] is none of [true],
    [1] and [yes] (it is not set, say), [main] goes on to serve on
    [:8080] whatever the seeding returns, and all that it sends to the
    database after the connection are texts of the seed files, in the
    order of their names: the tracker table is neither created nor
    read, and no change-set is applied. *)
Theorem default_start_seeds_without_migrating w w2 entries outcome w' :
  load_and_connect pgxpool_New LoadEnv w = (None, w2) →
  auto_migrate_enabled (ToLower (default "" (environ w2 !! "AUTO_MIGRATE")))
  = false →
  dirs (filesystem w2) !! seedDir = Some entries →
  main sql_script faults pgxpool_New LoadEnv w = (outcome, w') →
  outcome = Serving ":8080"
  ∧ ∃ delta,
      trace w' = trace w2 ++ delta
      ∧ filter is_statement delta
        `prefix_of` ((λ f, EvExec (content_of (filesystem w2) seedDir f) [])
                     <$> sort_Strings (collect_sql entries)).
Proof.
  intros Hconnect Hoff Hdir.
  destruct (load_and_connect_pool _ _ Hconnect) as [pool HDB].
  unfold main, bind at 1. rewrite Hconnect.
  unfold os_Getenv, bind at 1. rewrite Hoff.
  unfold log_Println, emit, bind at 1.
  unfold seed_and_serve, bind.
  match goal with
  | |- context [SeedDatabase sql_script faults ?w3] =>
      destruct (SeedDatabase sql_script faults w3) as [res w4] eqn:Hseed;
        apply (SeedDatabase_plan sql_script faults w3 pool entries) in Hseed
          as (ran & delta & Hw4 & _ & _ & Hsent & _); [|done..]
  end.
  simpl in Hsent.
  destruct res as [err|]; unfold log_Printf, emit, ret;
    intros [= <- <-]; (split; [done|]); rewrite Hw4; simpl.
  - eexists (_ :: _ :: delta ++ [_]). split.
    + by rewrite <- !app_assoc.
    + rewrite !filter_statement_cons. simpl.
      rewrite filter_app, filter_statement_cons. simpl.
      by rewrite filter_nil, app_nil_r.
  - eexists (_ :: _ :: delta). split.
    + by rewrite <- !app_assoc.
    + by rewrite !filter_statement_cons.
Qed.

End MainProperties.

(** * The further properties at work *)

Section MoreWitnesses.

Import Scenario Example.

Lemma missing_directory_fails_after_creating_tracker_witness :
  let w := connected {| dirs := ∅; files := ∅ |} fresh_db [] in
  RunMigrations plain_script no_faults w
  = (Some "failed to read migrations directory: open migrations: no such file or directory",
     after w (with_tracker (database w))
       [EvExec createMigrationsTable []; EvReadDir migrationDir])
  ∧ is_Some (migrations (with_tracker (database w))).
Proof.
  intros w.
  apply (missing_directory_fails_after_creating_tracker plain_script
           no_faults w the_pool); reflexivity.
Defined.

Lemma rerun_resumes_at_failed_changeset_witness :
  let entries := [entry "C.sql"; entry "A.sql"; entry "B.sql"] in
  let w := connected abc_fs fresh_db [] in
  let w' := snd (RunMigrations plain_script no_faults w) in
  let w2 := connected (repaired abc_fs) (database w') [] in
  let run2 := RunMigrations plain_script no_faults w2 in
  let err := "failed to execute migration B.sql: syntax error at or near ;" in
  let rows := default [] (migrations (database w)) in
  ∃ done f rest ran delta,
    pending rows entries = done ++ f :: rest
    ∧ (∃ reason,
         err = "failed to read migration file " +:+ f +:+ ": " +:+ reason
         ∨ err = "failed to execute migration " +:+ f +:+ ": " +:+ reason
         ∨ err = "failed to record migration " +:+ f +:+ ": " +:+ reason)
    ∧ migrations (database w2) = Some (rows ++ done)
    ∧ trace (snd run2) = trace w2 ++ run_prologue ++ delta
    ∧ ran `prefix_of` f :: rest
    ∧ read_paths delta = filepath_Join migrationDir <$> ran
    ∧ (fst run2 = None →
       ran = f :: rest
       ∧ migrations (database (snd run2))
         = Some (rows ++ done ++ f :: rest)).
Proof.
  intros entries w w' w2 run2 err.
  apply (rerun_resumes_at_failed_changeset plain_script no_faults w the_pool
           entries err w' w2 (fst run2) (snd run2)).
  - reflexivity.
  - reflexivity.
  - exact abc_names_distinct.
  - exact plain_script_is_tracker_safe.
  - exact (no_faults_snapshot w).
  - vm_compute. reflexivity.
  - reflexivity.
  - reflexivity.
  - reflexivity.
  - exact (no_faults_snapshot w2).
  - apply surjective_pairing.
Defined.

Lemma a_run_only_appends_to_the_tracker_witness :
  let w := connected ab_fs {| migrations := Some ["A.sql"]; schema := [] |} [] in
  let run := RunMigrations plain_script no_faults w in
  ∃ added,
    default [] (migrations (database (snd run))) = ["A.sql"] ++ added
    ∧ (∀ entries rows,
         dirs (filesystem w) !! migrationDir = Some entries →
         snapshot no_faults w rows →
         added `prefix_of` pending rows entries
         ∧ (fst run = None → added = pending rows entries))
    ∧ (fst run = None → is_Some (migrations (database (snd run)))).
Proof.
  intros w run.
  apply (a_run_only_appends_to_the_tracker plain_script no_faults w the_pool
           (fst run) (snd run)).
  - reflexivity.
  - exact plain_script_is_tracker_safe.
  - apply surjective_pairing.
Defined.

Lemma seeds_run_in_filename_order_witness :
  let w := connected seed_fs fresh_db [] in
  let run := SeedDatabase plain_script no_faults w in
  let plan := sort_Strings (collect_sql [entry "a.sql"; entry "b.sql"]) in
  let statements :=
    (λ f, EvExec (content_of (filesystem w) seedDir f) []) <$> plan in
  StronglySorted str_le plan
  ∧ plan ≡ₚ collect_sql [entry "a.sql"; entry "b.sql"]
  ∧ ∃ ran delta,
      trace (snd run) = trace w ++ EvReadDir seedDir :: delta
      ∧ ran `prefix_of` plan
      ∧ read_paths delta = filepath_Join seedDir <$> ran
      ∧ filter is_statement delta `prefix_of` statements
      ∧ (fst run = None
         → ran = plan ∧ filter is_statement delta = statements).
Proof.
  intros w run.
  apply (seeds_run_in_filename_order plain_script no_faults w the_pool
           [entry "a.sql"; entry "b.sql"] (fst run) (snd run)).
  - reflexivity.
  - reflexivity.
  - apply surjective_pairing.
Defined.

Lemma seeding_is_repeated_by_every_run_witness :
  let fs := {| dirs := {[ "seeds" := [entry "b.sql"; entry "a.sql"] ]};
               files := {[ "seeds/a.sql" := "INSERT INTO a DEFAULT VALUES;";
                           "seeds/b.sql" := "INSERT INTO b DEFAULT VALUES;" ]}
            |} in
  let w := connected fs fresh_db [] in
  let w1 := snd (SeedDatabase plain_script no_faults w) in
  let run2 := SeedDatabase plain_script no_faults w1 in
  ∃ delta1 delta2,
    trace w1 = trace w ++ EvReadDir seedDir :: delta1
    ∧ trace (snd run2) = trace w1 ++ EvReadDir seedDir :: delta2
    ∧ filter is_statement delta2 `prefix_of` filter is_statement delta1
    ∧ read_paths delta2 `prefix_of` read_paths delta1
    ∧ (fst run2 = None →
       filter is_statement delta2 = filter is_statement delta1
       ∧ read_paths delta2 = read_paths delta1).
Proof.
  intros fs w w1 run2.
  apply (seeding_is_repeated_by_every_run plain_script no_faults w the_pool w1
           (fst run2) (snd run2)).
  - reflexivity.
  - vm_compute. reflexivity.
  - apply surjective_pairing.
Defined.

Lemma executors_keep_the_process_state_witness :
  let w := connected abc_fs fresh_db [] in
  let w' := snd (RunMigrations plain_script no_faults w) in
  ∃ delta, w' = after w (database w') delta.
Proof.
  intros w w'.
  apply (executors_keep_the_process_state plain_script no_faults w
           (fst (RunMigrations plain_script no_faults w)) w').
  left. apply surjective_pairing.
Defined.

Lemma connected_executors_are_initialized_witness :
  let w := at_start {[ "DATABASE_URL" := "postgres://localhost/userdb" ]}
             abc_fs fresh_db [] in
  let w1 := snd (InitPostgres url_pool w) in
  let res := fst (RunMigrations plain_script no_faults w1) in
  res ≠ Some "database not initialized"
  ∧ ∀ err, res = Some err → ∃ rest, err = "failed to " +:+ rest.
Proof.
  intros w w1 res.
  apply (connected_executors_are_initialized plain_script no_faults url_pool w w1 res
           (snd (RunMigrations plain_script no_faults w1))).
  - vm_compute. reflexivity.
  - left. apply surjective_pairing.
Defined.

Lemma help_never_connects_witness :
  let flags := {| up := true; down := false; force := true; help := true |} in
  let w := at_start ∅ ab_fs fresh_db [] in
  migrate_main plain_script no_faults url_pool flags w
  = (Returned, after w (database w) (EvStdout <$> help_lines)).
Proof.
  intros flags w.
  apply (help_never_connects plain_script no_faults url_pool flags w).
  reflexivity.
Defined.

Lemma tool_exits_when_connection_fails_witness :
  let flags := {| up := true; down := false; force := false; help := false |} in
  let w := at_start ∅ ab_fs fresh_db [] in
  migrate_main plain_script no_faults url_pool flags w
  = (Exited 1,
     after w (database w)
       [EvStderr ("Connecting to PostgreSQL with DSN: " +:+ LF);
        EvStderr ("Failed to initialize database: DATABASE_URL environment variable is not set" +:+ LF)]).
Proof.
  intros flags w.
  apply (proj2 (tool_exits_when_connection_fails plain_script no_faults url_pool
                  flags w eq_refl)).
  reflexivity.
Defined.

Lemma up_wins_and_force_alone_is_no_action_witness :
  let both := {| up := true; down := true; force := false; help := false |} in
  let alone := {| up := false; down := false; force := true; help := false |} in
  let w := at_start {[ "DATABASE_URL" := "postgres://localhost/userdb" ]}
             ab_fs fresh_db [] in
  let w1 := snd (InitPostgres url_pool w) in
  migrate_main plain_script no_faults url_pool both w
  = runMigrationsUp plain_script no_faults false w1
  ∧ migrate_main plain_script no_faults url_pool alone w
    = (Returned,
       after w1 (database w1)
         (EvStdout
          <$> ("No action specified. Use -help for usage information."
               +:+ LF) :: help_lines)).
Proof.
  intros both alone w w1. split.
  - apply (proj1 (up_wins_and_force_alone_is_no_action plain_script no_faults url_pool
                    both w w1 eq_refl eq_refl)).
    reflexivity.
  - apply (proj2 (up_wins_and_force_alone_is_no_action plain_script no_faults url_pool
                    alone w w1 eq_refl eq_refl)); reflexivity.
Defined.

Lemma apply_reports_the_failing_changeset_witness :
  let w1 := connected abc_fs fresh_db [] in
  let d_done := {| migrations := Some ["A.sql"];
                   schema := ["CREATE TABLE a();"] |} in
  let err := "failed to execute migration B.sql: syntax error at or near ;" in
  ∃ kind reason delta,
    kind ∈ ["failed to read migration file ";
            "failed to execute migration ";
            "failed to record migration "]
    ∧ err = kind +:+ "B.sql" +:+ ": " +:+ reason
    ∧ runMigrationsUp plain_script no_faults false w1
      = (Exited 1,
         after w1 d_done
           (EvStdout ("Running migrations..." +:+ LF)
            :: run_prologue ++ delta
            ++ [EvStderr ("Failed to run migrations: " +:+ kind +:+ "B.sql"
                          +:+ ": " +:+ reason +:+ LF)]))
    ∧ read_paths delta
      = filepath_Join migrationDir <$> (["A.sql"] ++ ["B.sql"]).
Proof.
  intros w1 d_done err.
  apply (proj2 (proj2 (apply_reports_the_failing_changeset plain_script
                         no_faults w1 the_pool
                         [entry "C.sql"; entry "A.sql"; entry "B.sql"] []
                         eq_refl eq_refl (no_faults_snapshot w1)))
           ["A.sql"] "B.sql" ["C.sql"] d_done err d_done
           [("CREATE TABLE;", [])]).
  - vm_compute. reflexivity.
  - vm_compute. reflexivity.
  - apply (failed_execute plain_script no_faults abc_fs "B.sql" d_done
             "CREATE TABLE;" "syntax error at or near ;"); reflexivity.
Defined.

Lemma LoadEnv_keeps_set_variables_witness :
  let content := env.unlines ["PORT=9090"; "DATABASE_URL=postgres://db/users"] in
  let w := at_start {[ "PORT" := "8080" ]} (env_fs content) fresh_db [] in
  let w' := snd (env.LoadEnv ".env" w) in
  environ w' !! "PORT" = Some "8080" ∧ is_Some (environ w' !! "PORT").
Proof.
  intros content w w'.
  destruct (LoadEnv_keeps_set_variables ".env" w
              (fst (env.LoadEnv ".env" w)) w') as [Hvalue Hpresent].
  - apply surjective_pairing.
  - split.
    + apply Hvalue; [reflexivity|discriminate].
    + apply Hpresent. by eexists.
Defined.

Lemma LoadEnv_changes_only_the_environment_witness :
  let w := at_start {[ "PORT" := "8080" ]}
             {| dirs := {[ ".env" := [] ]}; files := ∅ |} fresh_db [] in
  let run := env.LoadEnv ".env" w in
  snd run = env.with_environ (emitted w [EvReadFile ".env"]) (environ (snd run))
  ∧ (fst run = None ∨ fst run = Some env.ErrTooLong
     ∨ fst run = Some (eisdir ".env"))
  ∧ (files (filesystem w) !! ".env" = None →
     environ (snd run) = environ w
     ∧ (fst run = None ↔ dirs (filesystem w) !! ".env" = None)).
Proof.
  intros w run.
  apply (LoadEnv_changes_only_the_environment ".env" w (fst run) (snd run)).
  apply surjective_pairing.
Defined.

Lemma LoadEnv_reads_back_quoted_assignments_witness :
  let kvs := [("DATABASE_URL", "postgres://db/users");
              ("GREETING", "  hello = world  ")] in
  let w := at_start {[ "PORT" := "8080" ]}
             (env_fs (env.unlines (env.assignment env.SQUOTE <$> kvs)))
             fresh_db [] in
  ∃ w',
    env.LoadEnv ".env" w = (None, w')
    ∧ (∀ key value, (key, value) ∈ kvs → environ w' !! key = Some value)
    ∧ (∀ key, key ∉ kvs.*1 → environ w' !! key = environ w !! key).
Proof.
  intros kvs w.
  apply (LoadEnv_reads_back_quoted_assignments ".env" env.SQUOTE kvs w).
  - right. reflexivity.
  - reflexivity.
  - repeat constructor.
  - apply (bool_decide_unpack _). vm_compute. exact I.
  - intros key Hkey. apply (bool_decide_unpack _).
    simpl in Hkey. set_unfold in Hkey.
    destruct Hkey as [->|[->|[]]]; vm_compute; exact I.
Defined.

Lemma LoadEnv_passes_over_comments_witness :
  let lines := ["# DATABASE_URL=postgres://db/users"; "";
                "   "; "no assignment here"] in
  let w := at_start {[ "PORT" := "8080" ]} (env_fs (env.unlines lines))
             fresh_db [] in
  env.LoadEnv ".env" w = (None, emitted w [EvReadFile ".env"]).
Proof.
  intros lines w.
  apply (LoadEnv_passes_over_comments ".env" lines w).
  - reflexivity.
  - repeat (apply Forall_cons; split;
              [split; [reflexivity|split; [reflexivity|]]|]);
      [right; left; reflexivity | left; reflexivity | left; reflexivity
      | right; right; reflexivity | apply Forall_nil; exact I].
Defined.

Lemma LoadEnv_stops_at_a_line_too_long_witness :
  let lines := ["A=1"] in
  let rest := LF +:+ "B=2" +:+ LF in
  let w := at_start ∅ (env_fs (env.unlines lines +:+ long_line +:+ rest))
             fresh_db [] in
  let w2 := at_start ∅ (env_fs (env.unlines lines)) fresh_db [] in
  ∃ w' w2',
    env.LoadEnv ".env" w = (Some env.ErrTooLong, w')
    ∧ env.LoadEnv ".env" w2 = (None, w2')
    ∧ environ w' = environ w2'.
Proof.
  intros lines rest w w2.
  apply (LoadEnv_stops_at_a_line_too_long ".env" lines long_line rest w w2).
  - reflexivity.
  - reflexivity.
  - reflexivity.
  - repeat constructor.
  - vm_compute. reflexivity.
  - intros Hfits. vm_compute in Hfits. discriminate Hfits.
Defined.

Lemma environment_url_wins_over_env_file_witness :
  let dsn := "postgres://localhost/userdb" in
  let content := env.unlines ["DATABASE_URL=mysql://elsewhere/db"] in
  let w := at_start {[ "DATABASE_URL" := dsn ]} (env_fs content) fresh_db [] in
  ∃ w' before,
    load_and_connect url_pool env.LoadEnv w
    = (match url_pool 10 dsn with
       | inl failure => Some ("failed to connect to PostgreSQL: " +:+ failure)
       | inr _ => None
       end, w')
    ∧ trace w' = before ++ [EvPoolNew 10 dsn]
    ∧ DB w' = match url_pool 10 dsn with
              | inl _ => DB w
              | inr pool => Some pool
              end.
Proof.
  intros dsn content w.
  apply (environment_url_wins_over_env_file url_pool w dsn).
  - reflexivity.
  - discriminate.
Defined.

Lemma env_file_supplies_the_url_witness :
  let dsn := "postgres://localhost/userdb" in
  let kvs := [("AUTO_MIGRATE", "true"); ("DATABASE_URL", dsn)] in
  let w := at_start {[ "PORT" := "8080" ]}
             (env_fs (env.unlines (env.assignment env.DQUOTE <$> kvs)))
             fresh_db [] in
  ∃ w' before,
    load_and_connect url_pool env.LoadEnv w
    = (match url_pool 10 dsn with
       | inl failure => Some ("failed to connect to PostgreSQL: " +:+ failure)
       | inr _ => None
       end, w')
    ∧ trace w' = before ++ [EvPoolNew 10 dsn]
    ∧ DB w' = match url_pool 10 dsn with
              | inl _ => DB w
              | inr pool => Some pool
              end.
Proof.
  intros dsn kvs w.
  apply (env_file_supplies_the_url url_pool env.DQUOTE kvs w dsn).
  - left. reflexivity.
  - reflexivity.
  - repeat constructor.
  - apply (bool_decide_unpack _). vm_compute. exact I.
  - intros key Hkey. apply (bool_decide_unpack _).
    simpl in Hkey. set_unfold in Hkey.
    destruct Hkey as [->|[->|[]]]; vm_compute; exact I.
  - set_solver.
  - discriminate.
Defined.

Lemma an_age_of_zero_is_refused_witness :
  let c := {| user.param_id := "1"; user.Body := "baby" |} in
  let refusal :=
    user.JSON user.StatusBadRequest
      (user.Message
         "Key: 'CreateUserRequest.Age' Error:Field validation for 'Age' failed on the 'required' tag") in
  user.CreateUser c server = (refusal, server)
  ∧ (user.param_id c ≠ "" → user.UpdateUser c server = (refusal, server)).
Proof.
  intros c.
  apply (an_age_of_zero_is_refused c
           {| user.Username := "baby_joe"; user.Email := "joe@example.com";
              user.Age := 0 |} server).
  - reflexivity.
  - vm_compute. split; discriminate.
  - discriminate.
  - reflexivity.
  - reflexivity.
Defined.

Lemma refused_requests_leave_the_server_alone_witness :
  let c := {| user.param_id := ""; user.Body := "al" |} in
  let run := user.serve user.hCreateUser c server in
  (user.code (fst run) = user.StatusBadRequest ∧ snd run = server)
  ∨ (user.code (fst run) ≠ user.StatusBadRequest
     ∧ ∃ q, user.issued (snd run) = user.issued server ++ [q]).
Proof.
  intros c run.
  apply (refused_requests_leave_the_server_alone user.hCreateUser c server
           (fst run) (snd run)).
  apply surjective_pairing.
Defined.

Lemma written_rows_are_validated_witness :
  let c := {| user.param_id := "1"; user.Body := "ann" |} in
  let h := user.hUpdateUser in
  let run := user.serve h c server in
  user.issued (snd run) = user.issued server
  ∨ ∃ id req,
      user.json_Decode (user.Body c) = inr req
      ∧ user.issued (snd run)
        = user.issued server
          ++ [{| user.sql := match h with
                             | user.hCreateUser => user.create_sql
                             | _ => user.update_sql
                             end;
                 user.args := [user.Text id; user.Text (user.Username req);
                               user.Text (user.Email req);
                               user.Int (user.Age req)] |}]
      ∧ 3 ≤ Z.of_nat (user.RuneCountInString (user.Username req)) ≤ 32
      ∧ user.emailRegex_MatchString (user.Email req) = true
      ∧ 1 ≤ user.Age req ≤ 120.
Proof.
  intros c h run.
  apply (written_rows_are_validated h c server (fst run) (snd run)).
  - right. reflexivity.
  - apply surjective_pairing.
Defined.

Lemma delete_of_unknown_user_is_a_server_error_witness :
  let c := {| user.param_id := "2"; user.Body := "" |} in
  let run := user.DeleteUser c server in
  let r := (user.Exec {| user.sql := user.delete_sql;
                         user.args := [user.Text (user.param_id c)] |}
              (user.store server)).1 in
  (fst run = user.JSON user.StatusNoContent user.Nothing
   ∧ ∃ n, r = inr n ∧ n ≠ 0)
  ∨ (fst run = user.JSON user.StatusInternalServerError
                 (user.Message "Failed to delete user")
     ∧ (r = inr 0 ∨ ∃ err, r = inl err)).
Proof.
  intros c run.
  apply (delete_of_unknown_user_is_a_server_error c server (fst run)
           (snd run)).
  - discriminate.
  - apply surjective_pairing.
Defined.

Lemma only_GetUser_answers_not_found_witness :
  let c := {| user.param_id := "2"; user.Body := "" |} in
  let reply := fst (user.serve user.hGetUser c server) in
  user.code reply = user.StatusNotFound
  ↔ (user.hGetUser = user.hGetUser ∧ user.param_id c ≠ ""
     ∧ ∃ err,
         (user.QueryRow_Scan
            {| user.sql := user.get_by_id_sql;
               user.args := [user.Text (user.param_id c)] |}
            (user.store server)).1 = inl err).
Proof.
  intros c reply.
  apply (only_GetUser_answers_not_found user.hGetUser c server reply
           (snd (user.serve user.hGetUser c server))).
  apply surjective_pairing.
Defined.

Lemma GetUsers_gives_every_row_or_none_witness :
  let c := {| user.param_id := ""; user.Body := "" |} in
  let rows := [inr ann] in
  (user.GetUsers c server).1
  = match user.scanned rows with
    | Some users => user.JSON user.StatusOK (user.Users users)
    | None => user.JSON user.StatusInternalServerError
                (user.Message "Failed to get users")
    end.
Proof.
  intros c rows.
  apply (GetUsers_gives_every_row_or_none c server rows [ann]).
  reflexivity.
Defined.

Lemma failures_are_not_shown_witness :
  let c := {| user.param_id := ""; user.Body := "{" |} in
  let text := "Invalid request body" in
  text ∈ ["Invalid request body"; "User ID is required";
          "Failed to create user"; "User not found"; "Failed to get users";
          "Failed to update user"; "Failed to delete user"]
  ∨ ∃ req, user.json_Decode (user.Body c) = inr req
           ∧ user.validate_Struct req = Some text.
Proof.
  intros c text.
  apply (failures_are_not_shown user.hCreateUser c server
           (fst (user.serve user.hCreateUser c server))
           (snd (user.serve user.hCreateUser c server)) text).
  - apply surjective_pairing.
  - reflexivity.
Defined.

Lemma accepted_names_are_short_witness :
  let req := {| user.Username := "ann_lee"; user.Email := "ann@example.com";
                user.Age := 30 |} in
  (3 ≤ String.length (user.Username req) ≤ 128)%nat.
Proof.
  intros req.
  apply (accepted_names_are_short (Store := Table) req).
  reflexivity.
Defined.

Lemma default_start_seeds_without_migrating_witness :
  let entries := [entry "a.sql"; entry "b.sql"] in
  let w := at_start {[ "DATABASE_URL" := "postgres://localhost/userdb" ]}
             seed_fs fresh_db [] in
  let w2 := snd (load_and_connect url_pool no_env_file w) in
  let run := main plain_script no_faults url_pool no_env_file w in
  fst run = Serving ":8080"
  ∧ ∃ delta,
      trace (snd run) = trace w2 ++ delta
      ∧ filter is_statement delta
        `prefix_of` ((λ f, EvExec (content_of (filesystem w2) seedDir f) [])
                     <$> sort_Strings (collect_sql entries)).
Proof.
  intros entries w w2 run.
  apply (default_start_seeds_without_migrating plain_script no_faults url_pool
           no_env_file w w2 entries (fst run) (snd run)).
  - vm_compute. reflexivity.
  - vm_compute. reflexivity.
  - reflexivity.
  - apply surjective_pairing.
Defined.

End MoreWitnesses.
